(** * GraalVM native-image cataloger: extraction of the embedded SBOM

    A shallow embedding of the native-image cataloger (package [java]):
    the payload decoder [decompressSbom], the component mapper
    [getPackage], the ELF, Mach-O and PE marker locators, the PE export
    directory walk, the per-file format detector [fetchPkgs] and the
    multi-file scan [Catalog].

    Conventions.
    - Go's fixed-width unsigned integers are [Z] values reduced modulo
      [2^32] or [2^64] after every arithmetic operation ([u32], [u64]).
    - A Go slice expression [s[lo:hi]] is [slice s lo hi]; when the bounds
      are not ordered or leave the slice the run time panics, which the
      embedding records as the outcome [Panic].
    - A Go result [(v, err)] is an [outcome]: [Ok v], [Err e], or [Panic].
    - The Go standard library and the other packages the cataloger calls
      (gzip, JSON, the three object-file parsers, the CPE parser, the
      union reader, the resolver) are the fields of a record [Lib]. *)

From Stdlib Require Import ZArith List String Bool Lia.
From Stdlib Require Import Strings.Byte.
From Stdlib Require Import Permutation.
Import ListNotations.
Open Scope Z_scope.

Set Implicit Arguments.

(** ** Outcomes of Go calls *)

Inductive error : Type :=
| errors_New (msg : string)
| lib_error (origin : string).

Inductive outcome (A : Type) : Type :=
| Ok (a : A)
| Err (e : error)
| Panic.

Arguments Ok {A} a.
Arguments Err {A} e.
Arguments Panic {A}.

Definition bind {A B : Type} (m : outcome A) (k : A -> outcome B) : outcome B :=
  match m with
  | Ok a => k a
  | Err e => Err e
  | Panic => Panic
  end.

Notation "x <- m ;; k" := (bind m (fun x => k))
  (at level 61, m at next level, right associativity).

(** A library call that returns [(v, err)]: [None] is a non-nil [err]. *)
Definition lift {A : Type} (origin : string) (r : option A) : outcome A :=
  match r with
  | Some a => Ok a
  | None => Err (lib_error origin)
  end.

(** ** Machine integers, slices and little-endian decoding *)

Definition u32 (z : Z) : Z := z mod 2 ^ 32.
Definition u64 (z : Z) : Z := z mod 2 ^ 64.

Definition len {A : Type} (s : list A) : Z := Z.of_nat (List.length s).

(** [s[lo:hi]]: the capacity of every buffer sliced here is its length. *)
Definition slice {A : Type} (s : list A) (lo hi : Z) : outcome (list A) :=
  if (0 <=? lo) && (lo <=? hi) && (hi <=? len s)
  then Ok (firstn (Z.to_nat (hi - lo)) (skipn (Z.to_nat lo) s))
  else Panic.

(** [s[lo:]] *)
Definition slice_from {A : Type} (s : list A) (lo : Z) : outcome (list A) :=
  slice s lo (len s).

Fixpoint le_uint (bs : list byte) : Z :=
  match bs with
  | [] => 0
  | b :: rest => Z.of_N (Byte.to_N b) + 256 * le_uint rest
  end.

(** [binary.Read(p, binary.LittleEndian, &v)] for an unsigned [v] of
    [width] bytes, reading from the buffer [p]. *)
Definition binary_Read (width : nat) (p : list byte) : outcome Z :=
  if (List.length p <? width)%nat
  then Err (lib_error "binary.Read")
  else Ok (le_uint (firstn width p)).

Fixpoint bytes_HasPrefix (s prefix : list byte) : bool :=
  match prefix, s with
  | [], _ => true
  | _ :: _, [] => false
  | p :: prefix', b :: s' => Byte.eqb b p && bytes_HasPrefix s' prefix'
  end.

(** ** Data model *)

Record nativeImageCPE : Type := {
  cpe_Name : string;
  cpe_Value : string
}.

Record nativeImageComponent : Type := {
  comp_Type : string;
  comp_Group : string;
  comp_Name : string;
  comp_Version : string;
  comp_Properties : list nativeImageCPE
}.

Record nativeImageCycloneDX : Type := {
  BomFormat : string;
  SpecVersion : string;
  bom_Version : Z;
  Components : list nativeImageComponent
}.

Inductive Language : Type := UnknownLanguage | Java.
Inductive PkgType : Type := UnknownPkg | GraalVMNativeImagePkg.
Inductive MetadataType : Type := UnknownMetadataType | JavaMetadataType.

(** [pkg.Package], with the [GroupID] of its Java metadata's POM
    properties as the field [GroupID]. *)
Record Package (C : Type) : Type := {
  Name : string;
  Version : string;
  Lang : Language;
  Type_ : PkgType;
  MetadataType_ : MetadataType;
  FoundBy : string;
  GroupID : string;
  CPEs : list C
}.

(** Symbols of [debug/elf] and [debug/macho]: name and value. *)
Record Symbol : Type := {
  sym_Name : string;
  sym_Value : Z
}.

Definition zeroSymbol : Symbol := {| sym_Name := ""; sym_Value := 0 |}.

(** A section or segment: its virtual address and the result of [Data()]. *)
Record Section : Type := {
  sec_Addr : Z;
  sec_Data : option (list byte)
}.

Record elf_File : Type := {
  elf_Symbols : option (list Symbol);
  elf_Sections : list (string * Section)
}.

(** [Symtab] is a pointer in [debug/macho]: [None] is nil. *)
Record macho_File : Type := {
  macho_Symtab : option (list Symbol);
  macho_Segments : list (string * Section)
}.

Record DataDirectory : Type := {
  dd_VirtualAddress : Z;
  dd_Size : Z
}.

(** [pe_OptionalHeader] is the first data directory of a 32- or 64-bit
    optional header, [None] for any other kind of optional header. *)
Record pe_File : Type := {
  pe_OptionalHeader : option DataDirectory;
  pe_Sections : list (string * Section)
}.

Fixpoint find_section (name : string) (secs : list (string * Section))
  : option Section :=
  match secs with
  | [] => None
  | (n, s) :: rest => if String.eqb n name then Some s else find_section name rest
  end.

(** ** The libraries the cataloger calls *)

Record Lib : Type := {
  CPE : Type;
  cpe_New : string -> option CPE;
  GzipReader : Type;
  gzip_NewReader : list byte -> option GzipReader;
  io_ReadAll : GzipReader -> option (list byte);
  json_Unmarshal : list byte -> option nativeImageCycloneDX;
  ReaderAt : Type;
  (** [ReadAt r n off]: fill a buffer of [n] bytes from offset [off]. *)
  ReadAt : ReaderAt -> Z -> Z -> option (list byte);
  elf_NewFile : ReaderAt -> option elf_File;
  macho_NewFile : ReaderAt -> option macho_File;
  pe_NewFile : ReaderAt -> option pe_File;
  UnionReader : Type;
  GetReaders : UnionReader -> option (list ReaderAt);
  ReadCloser : Type;
  GetUnionReader : ReadCloser -> option UnionReader
}.

Definition nativeImageCatalogerName : string := "graalvm-native-image-cataloger".
Definition nativeImageSbomSymbol : string := "sbom".
Definition nativeImageSbomLengthSymbol : string := "sbom_length".
Definition nativeImageSbomVersionSymbol : string := "__svm_version_info".
Definition nativeImageMissingSymbolsError : string :=
  "one or more symbols are missing from the native image executable".
Definition nativeImageInvalidIndexError : string :=
  "parsing the executable file generated an invalid index".
Definition nativeImageMissingExportedDataDirectoryError : string :=
  "exported data directory is missing".

Unset Implicit Arguments.

Section Cataloger.

Variable L : Lib.

Let Pkg : Type := Package (CPE L).

(** ** PackageMapper *)

(** The loop over [component.Properties]: a value the CPE parser rejects
    is skipped, every other one is appended. *)
Definition collectCPEs (props : list nativeImageCPE) : list (CPE L) :=
  fold_left
    (fun cpes property =>
       match cpe_New L (cpe_Value property) with
       | None => cpes
       | Some c => cpes ++ [c]
       end)
    props [].

Definition getPackage (component : nativeImageComponent) : Pkg :=
  {| Name := comp_Name component;
     Version := comp_Version component;
     Lang := Java;
     Type_ := GraalVMNativeImagePkg;
     MetadataType_ := JavaMetadataType;
     FoundBy := nativeImageCatalogerName;
     GroupID := comp_Group component;
     CPEs := collectCPEs (comp_Properties component) |}.

(** The loop over [sbomContent.Components] at the end of [decompressSbom]. *)
Definition mapComponents (components : list nativeImageComponent) : list Pkg :=
  fold_left (fun pkgs component => pkgs ++ [getPackage component]) components [].

(** ** PayloadDecoder *)

Definition decompressSbom (databuf : list byte) (sbomStart lengthStart : Z)
  : outcome (list Pkg) :=
  let lengthEnd := u64 (lengthStart + 8) in
  let buflen := len databuf in
  if lengthEnd >? buflen
  then Err (errors_New "the sbom_length symbol overflows the binary")
  else
    lengthBytes <- slice databuf lengthStart lengthEnd ;;
    storedLength <- binary_Read 8 lengthBytes ;;
    let sbomEnd := u64 (sbomStart + storedLength) in
    if sbomEnd >? buflen
    then Err (errors_New "the sbom symbol overflows the binary")
    else
      sbomCompressed <- slice databuf sbomStart sbomEnd ;;
      gzreader <- lift "gzip.NewReader" (gzip_NewReader L sbomCompressed) ;;
      output <- lift "io.ReadAll" (io_ReadAll L gzreader) ;;
      sbomContent <- lift "json.Unmarshal" (json_Unmarshal L output) ;;
      Ok (mapComponents (Components sbomContent)).

(** ** ELF and Mach-O symbol locators *)

Record markers : Type := {
  sbom : Symbol;
  sbomLength : Symbol;
  svmVersion : Symbol
}.

(** The [switch s.Name] loop over the symbols; [prefix] is empty for ELF
    and an underscore for Mach-O.  A later symbol of the same name
    replaces an earlier one. *)
Definition scanSymbols (prefix : string) (syms : list Symbol) : markers :=
  fold_left
    (fun m s =>
       if String.eqb (sym_Name s) (prefix ++ nativeImageSbomSymbol)
       then {| sbom := s; sbomLength := sbomLength m; svmVersion := svmVersion m |}
       else if String.eqb (sym_Name s) (prefix ++ nativeImageSbomLengthSymbol)
       then {| sbom := sbom m; sbomLength := s; svmVersion := svmVersion m |}
       else if String.eqb (sym_Name s) (prefix ++ nativeImageSbomVersionSymbol)
       then {| sbom := sbom m; sbomLength := sbomLength m; svmVersion := s |}
       else m)
    syms
    {| sbom := zeroSymbol; sbomLength := zeroSymbol; svmVersion := zeroSymbol |}.

Definition markerMissing (m : markers) : bool :=
  (sym_Value (sbom m) =? 0) || (sym_Value (sbomLength m) =? 0)
  || (sym_Value (svmVersion m) =? 0).

Definition missingSymbols {A : Type} : outcome A :=
  Err (errors_New nativeImageMissingSymbolsError).

Definition nativeImageElf_fetchPkgs (bi : elf_File) : outcome (list Pkg) :=
  si <- lift "elf.Symbols" (elf_Symbols bi) ;;
  let m := scanSymbols "" si in
  if markerMissing m then missingSymbols
  else
    match find_section ".data" (elf_Sections bi) with
    | None => Ok []
    | Some dataSection =>
      let dataSectionBase := sec_Addr dataSection in
      data <- lift "Section.Data" (sec_Data dataSection) ;;
      let sbomLocation := u64 (sym_Value (sbom m) - dataSectionBase) in
      let lengthLocation := u64 (sym_Value (sbomLength m) - dataSectionBase) in
      decompressSbom data sbomLocation lengthLocation
    end.

Definition nativeImageMachO_fetchPkgs (bi : macho_File) : outcome (list Pkg) :=
  match macho_Symtab bi with
  | None => Panic
  | Some syms =>
    let m := scanSymbols "_" syms in
    if markerMissing m then missingSymbols
    else
      match find_section "__DATA" (macho_Segments bi) with
      | None => Ok []
      | Some dataSegment =>
        match sec_Data dataSegment with
        | None => Ok []
        | Some databuf =>
          let sbomLocation := u64 (sym_Value (sbom m) - sec_Addr dataSegment) in
          let lengthLocation := u64 (sym_Value (sbomLength m) - sec_Addr dataSegment) in
          decompressSbom databuf sbomLocation lengthLocation
        end
      end
  end.

(** ** PE export walker *)

(** The fields of [nativeImagePE] its methods read.  [t] and [header] are
    zero values consulted only through [unsafe.Sizeof]. *)
Record nativeImagePE : Type := {
  file : pe_File;
  exportSymbols : DataDirectory;
  exports : list byte
}.

Record exportContentPE : Type := {
  numberOfFunctions : Z;
  numberOfNames : Z;
  addressOfFunctions : Z;
  addressOfNames : Z;
  addressOfSbom : Z;
  addressOfSbomLength : Z;
  addressOfSvmVersion : Z
}.

(** [unsafe.Sizeof] of a [uint32] and of [exportPrefixPE] (two [uint32],
    two [uint16], two [uint32]: no padding). *)
Definition sizeof_uint32 : Z := 4.
Definition sizeof_exportPrefixPE : Z := 4 + 4 + 2 + 2 + 4 + 4.

Definition invalidIndex {A : Type} : outcome A :=
  Err (errors_New nativeImageInvalidIndexError).

(** [i] and [j] are Go [int]s; the callers pass 0, 1, 2 and 3. *)
Definition fetchExportAttribute (ni : nativeImagePE) (i : Z) : outcome Z :=
  let n := len (exports ni) in
  let j := sizeof_exportPrefixPE + i * sizeof_uint32 in
  if j + 4 >=? n then invalidIndex
  else
    p <- slice (exports ni) j (j + 4) ;;
    binary_Read 4 p.

Definition fetchExportFunctionPointer (ni : nativeImagePE) (functionsBase i : Z)
  : outcome Z :=
  let n := u32 (len (exports ni)) in
  let sz := sizeof_uint32 in
  let j := u32 (functionsBase + u32 (i * sz)) in
  if u32 (j + sz) >=? n then invalidIndex
  else
    p <- slice (exports ni) j (u32 (j + sz)) ;;
    binary_Read 4 p.

Definition fetchExportContent (ni : nativeImagePE) : outcome exportContentPE :=
  nFunctions <- fetchExportAttribute ni 0 ;;
  nNames <- fetchExportAttribute ni 1 ;;
  aFunctions <- fetchExportAttribute ni 2 ;;
  aNames <- fetchExportAttribute ni 3 ;;
  Ok {| numberOfFunctions := nFunctions;
        numberOfNames := nNames;
        addressOfFunctions := aFunctions;
        addressOfNames := aNames;
        addressOfSbom := 0;
        addressOfSbomLength := 0;
        addressOfSvmVersion := 0 |}.

(** The marker names followed by a NUL byte. *)
Definition sbomBytes : list byte :=
  list_byte_of_string nativeImageSbomSymbol ++ [x00].
Definition sbomLengthBytes : list byte :=
  list_byte_of_string nativeImageSbomLengthSymbol ++ [x00].
Definition svmVersionInfoBytes : list byte :=
  list_byte_of_string nativeImageSbomVersionSymbol ++ [x00].

(** The [switch] at the end of the loop body of [fetchSbomSymbols]:
    [name] is [ni.exports[symbolBase:]]. *)
Definition recordMarker (name : list byte) (i : Z) (content : exportContentPE)
  : exportContentPE :=
  if bytes_HasPrefix name sbomBytes then
    {| numberOfFunctions := numberOfFunctions content;
       numberOfNames := numberOfNames content;
       addressOfFunctions := addressOfFunctions content;
       addressOfNames := addressOfNames content;
       addressOfSbom := i;
       addressOfSbomLength := addressOfSbomLength content;
       addressOfSvmVersion := addressOfSvmVersion content |}
  else if bytes_HasPrefix name sbomLengthBytes then
    {| numberOfFunctions := numberOfFunctions content;
       numberOfNames := numberOfNames content;
       addressOfFunctions := addressOfFunctions content;
       addressOfNames := addressOfNames content;
       addressOfSbom := addressOfSbom content;
       addressOfSbomLength := i;
       addressOfSvmVersion := addressOfSvmVersion content |}
  else if bytes_HasPrefix name svmVersionInfoBytes then
    {| numberOfFunctions := numberOfFunctions content;
       numberOfNames := numberOfNames content;
       addressOfFunctions := addressOfFunctions content;
       addressOfNames := addressOfNames content;
       addressOfSbom := addressOfSbom content;
       addressOfSbomLength := addressOfSbomLength content;
       addressOfSvmVersion := i |}
  else content.

(** What one pass through the loop body does next. *)
Inductive walkStep : Type :=
| Next (content : exportContentPE)
| Return (content : exportContentPE)
| Crash.

(** The offset [k] of entry [i] of the name-pointer array. *)
Definition nameEntry (ni : nativeImagePE) (content : exportContentPE) (i : Z) : Z :=
  let j := u32 (i * sizeof_uint32) in
  let addressBase :=
    u32 (addressOfNames content - dd_VirtualAddress (exportSymbols ni)) in
  u32 (addressBase + j).

(** The loop body of [fetchSbomSymbols] for index [i], together with the
    offsets of the name-pointer entries it reads from [ni.exports]. *)
Definition walkName (ni : nativeImagePE) (content : exportContentPE) (i : Z)
  : list Z * walkStep :=
  let n := u32 (len (exports ni)) in
  let k := nameEntry ni content i in
  let sz := sizeof_uint32 in
  if u32 (k + sz) >=? n then ([], Return content)
  else
    match slice (exports ni) k (u32 (k + sz)) with
    | Ok p =>
      match binary_Read 4 p with
      | Ok symbolAddress =>
        let symbolBase :=
          u32 (symbolAddress - dd_VirtualAddress (exportSymbols ni)) in
        if symbolBase >=? n then ([k], Return content)
        else
          match slice_from (exports ni) symbolBase with
          | Ok name => ([k], Next (recordMarker name i content))
          | _ => ([k], Crash)
          end
      | _ => ([k], Return content)
      end
    | _ => ([k], Crash)
    end.

(** The [for] loop of [fetchSbomSymbols], from index [i], with [trips]
    passes left. *)
Fixpoint walkNames (ni : nativeImagePE) (trips : nat) (i : Z)
  (content : exportContentPE) : list Z * outcome exportContentPE :=
  match trips with
  | O => ([], Ok content)
  | S trips' =>
    match walkName ni content i with
    | (reads, Next content') =>
      let (reads', r) := walkNames ni trips' (u32 (i + 1)) content' in
      (reads ++ reads', r)
    | (reads, Return content') => (reads, Ok content')
    | (reads, Crash) => (reads, Panic)
    end
  end.

(** [fetchSbomSymbols] updates [content] in place; here it returns it. *)
Definition fetchSbomSymbols (ni : nativeImagePE) (content : exportContentPE)
  : outcome exportContentPE :=
  snd (walkNames ni (Z.to_nat (numberOfNames content)) 0 content).

(** The name-pointer entries [fetchSbomSymbols] reads, by offset. *)
Definition nameEntriesRead (ni : nativeImagePE) (content : exportContentPE)
  : list Z :=
  fst (walkNames ni (Z.to_nat (numberOfNames content)) 0 content).

Definition indexMissing (content : exportContentPE) : bool :=
  (addressOfSbom content =? 0) || (addressOfSbomLength content =? 0)
  || (addressOfSvmVersion content =? 0).

Definition nativeImagePE_fetchPkgs (ni : nativeImagePE) : outcome (list Pkg) :=
  content0 <- fetchExportContent ni ;;
  content <- fetchSbomSymbols ni content0 ;;
  if indexMissing content then missingSymbols
  else
    let functionsBase :=
      u32 (addressOfFunctions content - dd_VirtualAddress (exportSymbols ni)) in
    let sbomOffset := addressOfSbom content in
    sbomAddress <- fetchExportFunctionPointer ni functionsBase sbomOffset ;;
    let sbomLengthOffset := addressOfSbomLength content in
    sbomLengthAddress <-
      fetchExportFunctionPointer ni functionsBase sbomLengthOffset ;;
    match find_section ".data" (pe_Sections (file ni)) with
    | None => Ok []
    | Some dataSection =>
      match sec_Data dataSection with
      | None => Ok []
      | Some databuf =>
        let sbomLocation := u32 (sbomAddress - sec_Addr dataSection) in
        let lengthLocation := u32 (sbomLengthAddress - sec_Addr dataSection) in
        decompressSbom databuf sbomLocation lengthLocation
      end
    end.

(** ** FormatDetector *)

Inductive nativeImage : Type :=
| ImageElf (bi : elf_File)
| ImageMachO (bi : macho_File)
| ImagePE (ni : nativeImagePE).

Definition image_fetchPkgs (ni : nativeImage) : outcome (list Pkg) :=
  match ni with
  | ImageElf bi => nativeImageElf_fetchPkgs bi
  | ImageMachO bi => nativeImageMachO_fetchPkgs bi
  | ImagePE pe => nativeImagePE_fetchPkgs pe
  end.

Definition newElf (filename : string) (r : ReaderAt L) : outcome nativeImage :=
  bi <- lift "elf.NewFile" (elf_NewFile L r) ;;
  Ok (ImageElf bi).

Definition newMachO (filename : string) (r : ReaderAt L) : outcome nativeImage :=
  bi <- lift "macho.NewFile" (macho_NewFile L r) ;;
  Ok (ImageMachO bi).

Definition newPE (filename : string) (r : ReaderAt L) : outcome nativeImage :=
  bi <- lift "pe.NewFile" (pe_NewFile L r) ;;
  match pe_OptionalHeader bi with
  | None =>
    Err (errors_New
           ("unable to get exportSymbolsDataDirectory from binary: " ++ filename))
  | Some exportSymbolsDataDirectory =>
    if dd_Size exportSymbolsDataDirectory =? 0
    then Err (errors_New nativeImageMissingExportedDataDirectoryError)
    else
      let exportSymbolsOffset := dd_VirtualAddress exportSymbolsDataDirectory in
      exportsBuf <- lift "ReadAt"
        (ReadAt L r (dd_Size exportSymbolsDataDirectory) exportSymbolsOffset) ;;
      Ok (ImagePE {| file := bi;
                     exportSymbols := exportSymbolsDataDirectory;
                     exports := exportsBuf |})
  end.

Definition imageformats : list (string -> ReaderAt L -> outcome nativeImage) :=
  [newElf; newMachO; newPE].

(** One pass through the body of the inner loop of [fetchPkgs]: a probe
    that declines and an extraction that fails both [continue]. *)
Definition tryFormat (filename : string) (r : ReaderAt L) (pkgs : list Pkg)
  (makeNativeImage : string -> ReaderAt L -> outcome nativeImage)
  : outcome (list Pkg) :=
  match makeNativeImage filename r with
  | Ok ni =>
    match image_fetchPkgs ni with
    | Ok newpkgs => Ok (pkgs ++ newpkgs)
    | Err _ => Ok pkgs
    | Panic => Panic
    end
  | Err _ => Ok pkgs
  | Panic => Panic
  end.

(** The inner loop of [fetchPkgs]: every format against one reader. *)
Definition tryFormats (filename : string) (r : ReaderAt L) (pkgs : list Pkg)
  : outcome (list Pkg) :=
  fold_left
    (fun acc makeNativeImage =>
       pkgs' <- acc ;; tryFormat filename r pkgs' makeNativeImage)
    imageformats (Ok pkgs).

(** [fetchPkgs] returns a list and no error; its outcome is [Ok] or
    [Panic]. *)
Definition fetchPkgs (reader : UnionReader L) (filename : string)
  : outcome (list Pkg) :=
  match GetReaders L reader with
  | None => Ok []
  | Some readers =>
    fold_left
      (fun acc r => pkgs <- acc ;; tryFormats filename r pkgs)
      readers (Ok [])
  end.

(** ** The scan over the files of a resolver *)

Record FileResolver : Type := {
  FilesByMIMEType : option (list string);
  FileContentsByLocation : string -> option (ReadCloser L)
}.

(** [Catalog], without its relationships, which are always nil.  A
    location is its [RealPath]. *)
Definition Catalog (resolver : FileResolver) : outcome (list Pkg) :=
  match FilesByMIMEType resolver with
  | None => Err (lib_error "failed to find binaries by mime types")
  | Some fileMatches =>
    fold_left
      (fun acc location =>
         pkgs <- acc ;;
         match FileContentsByLocation resolver location with
         | None => Ok pkgs
         | Some readerCloser =>
           reader <- lift "unionreader.GetUnionReader"
                       (GetUnionReader L readerCloser) ;;
           newpkgs <- fetchPkgs reader location ;;
           Ok (pkgs ++ newpkgs)
         end)
      fileMatches (Ok [])
  end.

End Cataloger.

Arguments FileResolver L : clear implicits.

(** ** Test images

    Concrete images and a concrete [Lib] on which the definitions above
    can be run.  Its gzip and JSON decoders know one payload, the one of
    the concrete ELF scenario; a reader is the list of what the three
    object-file parsers make of it, with the bytes [ReadAt] serves. *)

(** The CPEs of a component as the specification words them: the
    property values that parse, in order. *)
Definition parsedCPEs (L : Lib) (props : list nativeImageCPE) : list (CPE L) :=
  flat_map
    (fun property =>
       match cpe_New L (cpe_Value property) with
       | Some c => [c]
       | None => []
       end)
    props.

(** The marker check of an image finds one of the three markers absent:
    its symbol scan, or its export walk, ends with a marker at zero.  An
    ELF image without a symbol table returns the error of [Symbols] and
    counts as well; a Mach-O image without a symbol table, and a PE image
    whose walk does not return, never reach their marker check. *)
Definition markerAbsent (ni : nativeImage) : bool :=
  match ni with
  | ImageElf bi =>
    match elf_Symbols bi with
    | Some si => markerMissing (scanSymbols "" si)
    | None => true
    end
  | ImageMachO bi =>
    match macho_Symtab bi with
    | Some syms => markerMissing (scanSymbols "_" syms)
    | None => false
    end
  | ImagePE pe =>
    match fetchExportContent pe with
    | Ok content0 =>
      match fetchSbomSymbols pe content0 with
      | Ok content => indexMissing content
      | _ => false
      end
    | _ => false
    end
  end.

(** The packages one probe adds to the list of a reader. *)
Definition contribution (L : Lib)
  (makeNativeImage : string -> ReaderAt L -> outcome nativeImage)
  (filename : string) (r : ReaderAt L) : list (Package (CPE L)) :=
  match makeNativeImage filename r with
  | Ok ni =>
    match image_fetchPkgs L ni with
    | Ok newpkgs => newpkgs
    | _ => []
    end
  | _ => []
  end.

Inductive marker : Type := MarkerSbom | MarkerSbomLength | MarkerSvmVersion.

Definition markerBytes (m : marker) : list byte :=
  match m with
  | MarkerSbom => sbomBytes
  | MarkerSbomLength => sbomLengthBytes
  | MarkerSvmVersion => svmVersionInfoBytes
  end.

Definition recordedIndex (m : marker) (content : exportContentPE) : Z :=
  match m with
  | MarkerSbom => addressOfSbom content
  | MarkerSbomLength => addressOfSbomLength content
  | MarkerSvmVersion => addressOfSvmVersion content
  end.

(** Entry [i] of the name-pointer array names the marker [m]: the walk
    reads the entry, and the bytes at the address it holds start with the
    name of [m] and a NUL byte. *)
Definition entryNames (ni : nativeImagePE) (content : exportContentPE) (i : Z)
  (m : marker) : bool :=
  match walkName ni content i with
  | (_, Next _) =>
    let n := u32 (len (exports ni)) in
    let k := nameEntry ni content i in
    match slice (exports ni) k (u32 (k + sizeof_uint32)) with
    | Ok p =>
      match binary_Read 4 p with
      | Ok symbolAddress =>
        let symbolBase :=
          u32 (symbolAddress - dd_VirtualAddress (exportSymbols ni)) in
        match slice_from (exports ni) symbolBase with
        | Ok name => bytes_HasPrefix name (markerBytes m)
        | _ => false
        end
      | _ => false
      end
    | _ => false
    end
  | _ => false
  end.


Definition withProperties (c : nativeImageComponent)
  (props : list nativeImageCPE) : nativeImageComponent :=
  {| comp_Type := comp_Type c; comp_Group := comp_Group c;
     comp_Name := comp_Name c; comp_Version := comp_Version c;
     comp_Properties := props |}.

Module Fixture.

Definition byte_of_Z (z : Z) : byte :=
  match Byte.of_N (Z.to_N (z mod 256)) with
  | Some b => b
  | None => x00
  end.

(** Little-endian encoding on [width] bytes. *)
Fixpoint putUint (width : nat) (z : Z) : list byte :=
  match width with
  | O => []
  | S w => byte_of_Z z :: putUint w (z / 256)
  end.

Definition zeros (n : nat) : list byte := repeat x00 n.

Fixpoint bytes_eqb (a b : list byte) : bool :=
  match a, b with
  | [], [] => true
  | x :: a', y :: b' => Byte.eqb x y && bytes_eqb a' b'
  | _, _ => false
  end.

(** JSON text written with apostrophes for its double quotes. *)
Definition json (s : string) : list byte :=
  map (fun b => if Byte.eqb b x27 then x22 else b) (list_byte_of_string s).

Definition scenarioText : list byte :=
  json ("{'bomFormat':'CycloneDX','specVersion':'1.4','version':1,"
        ++ "'components':[{'type':'library','group':'g','name':'n',"
        ++ "'version':'1.0','properties':[]}]}").

Definition scenarioComponent : nativeImageComponent :=
  {| comp_Type := "library"; comp_Group := "g"; comp_Name := "n";
     comp_Version := "1.0"; comp_Properties := [] |}.

Definition scenarioBom : nativeImageCycloneDX :=
  {| BomFormat := "CycloneDX"; SpecVersion := "1.4"; bom_Version := 1;
     Components := [scenarioComponent] |}.

(** The 37 bytes of the scenario's compressed payload. *)
Definition scenarioPayload : list byte :=
  [x1f; x8b; x08] ++ zeros 34.

Record testReader : Type := {
  as_elf : option elf_File;
  as_macho : option macho_File;
  as_pe : option pe_File;
  bytesAt : Z -> Z -> option (list byte)
}.

Definition testLib : Lib :=
  {| CPE := string;
     cpe_New := fun s => if String.prefix "cpe:" s then Some s else None;
     GzipReader := list byte;
     gzip_NewReader := fun bs =>
       if bytes_HasPrefix bs [x1f; x8b] then Some bs else None;
     io_ReadAll := fun bs =>
       if bytes_eqb bs scenarioPayload then Some scenarioText else None;
     json_Unmarshal := fun bs =>
       if bytes_eqb bs scenarioText then Some scenarioBom else None;
     ReaderAt := testReader;
     ReadAt := bytesAt;
     elf_NewFile := as_elf;
     macho_NewFile := as_macho;
     pe_NewFile := as_pe;
     UnionReader := list testReader;
     GetReaders := fun rs => Some rs;
     ReadCloser := list testReader;
     GetUnionReader := fun rs => Some rs |}.

(** The data region of the scenario: the length field at offset [0x10]
    holds 37, the payload starts at offset [0x20]. *)
Definition scenarioData : list byte :=
  zeros 16 ++ putUint 8 37 ++ zeros 8 ++ scenarioPayload ++ zeros 8.

Definition scenarioSection : Section :=
  {| sec_Addr := 0x2000; sec_Data := Some scenarioData |}.

Definition sym (name : string) (value : Z) : Symbol :=
  {| sym_Name := name; sym_Value := value |}.

Definition scenarioElf : elf_File :=
  {| elf_Symbols := Some [sym "sbom" 0x2020; sym "sbom_length" 0x2010;
                          sym "__svm_version_info" 0x2030];
     elf_Sections := [(".text"%string, {| sec_Addr := 0x1000; sec_Data := Some [] |});
                      (".data"%string, scenarioSection)] |}.

(** The scenario's image without the schema-version marker. *)
Definition twoMarkerElf : elf_File :=
  {| elf_Symbols := Some [sym "sbom" 0x2020; sym "sbom_length" 0x2010];
     elf_Sections := elf_Sections scenarioElf |}.

(** An image whose [sbom_length] symbol lies below the [.data] section. *)
Definition lowLengthElf : elf_File :=
  {| elf_Symbols := Some [sym "sbom" 0x2020; sym "sbom_length" 0x1ff8;
                          sym "__svm_version_info" 0x2030];
     elf_Sections := elf_Sections scenarioElf |}.

Definition scenarioMachO : macho_File :=
  {| macho_Symtab := Some [sym "_sbom" 0x2020; sym "_sbom_length" 0x2010;
                           sym "___svm_version_info" 0x2030];
     macho_Segments := [("__DATA"%string, scenarioSection)] |}.

Definition noBytes : Z -> Z -> option (list byte) := fun _ _ => None.

Definition elfReader (bi : elf_File) : testReader :=
  {| as_elf := Some bi; as_macho := None; as_pe := None; bytesAt := noBytes |}.


Definition scenarioPackage : Package string :=
  {| Name := "n"; Version := "1.0"; Lang := Java;
     Type_ := GraalVMNativeImagePkg; MetadataType_ := JavaMetadataType;
     FoundBy := nativeImageCatalogerName; GroupID := "g"; CPEs := [] |}.

(** *** PE images

    The exports buffer starts at virtual address [exportsVA].  After the
    20 bytes of the prefix and the header attributes come four function
    pointers (offset 40), four name pointers (offset 56) and the name
    strings: [sbom] at offset 72, [sbom_length] at 77,
    [__svm_version_info] at 89 and [other] at 108. *)

Definition exportsVA : Z := 0x3000.

Definition nameStrings : list byte :=
  sbomBytes ++ sbomLengthBytes ++ svmVersionInfoBytes
  ++ list_byte_of_string "other" ++ [x00].

Definition mkExports (nNames : Z) (names funcs : list Z) : list byte :=
  zeros 20 ++ putUint 4 4 ++ putUint 4 nNames
  ++ putUint 4 (exportsVA + 40) ++ putUint 4 (exportsVA + 56) ++ zeros 4
  ++ flat_map (putUint 4) funcs ++ flat_map (putUint 4) names
  ++ nameStrings ++ zeros 8.

Definition scenarioFuncs : list Z := [0; 0x2020; 0x2010; 0x2030].

Definition mkPE (buf : list byte) : nativeImagePE :=
  {| file := {| pe_OptionalHeader :=
                  Some {| dd_VirtualAddress := exportsVA; dd_Size := len buf |};
                pe_Sections := [(".data"%string, scenarioSection)] |};
     exportSymbols := {| dd_VirtualAddress := exportsVA; dd_Size := len buf |};
     exports := buf |}.

(** [sbom] is named by entries 0 and 1 of the name-pointer array. *)
Definition dupSbomPE : nativeImagePE :=
  mkPE (mkExports 4
          [exportsVA + 72; exportsVA + 72; exportsVA + 77; exportsVA + 89]
          scenarioFuncs).

(** [sbom] is named by entry 0 only. *)
Definition sbomFirstPE : nativeImagePE :=
  mkPE (mkExports 4
          [exportsVA + 72; exportsVA + 77; exportsVA + 89; exportsVA + 108]
          scenarioFuncs).

(** The three markers at entries 1, 2 and 3. *)
Definition scenarioPE : nativeImagePE :=
  mkPE (mkExports 4
          [exportsVA + 108; exportsVA + 72; exportsVA + 77; exportsVA + 89]
          scenarioFuncs).

Definition noNamesPE : nativeImagePE :=
  mkPE (mkExports 0 [0; 0; 0; 0] scenarioFuncs).

(** An exports buffer that ends inside its name-pointer array: the header
    announces five names, the strings come first (offset 56), the name
    pointers start at offset 100 and the buffer is 118 bytes long, so the
    entry of index 4 (offsets 116 to 120) runs past its end. *)
Definition truncatedExports : list byte :=
  zeros 20 ++ putUint 4 4 ++ putUint 4 5
  ++ putUint 4 (exportsVA + 40) ++ putUint 4 (exportsVA + 100) ++ zeros 4
  ++ flat_map (putUint 4) scenarioFuncs
  ++ nameStrings ++ zeros 2
  ++ flat_map (putUint 4)
       [exportsVA + 98; exportsVA + 56; exportsVA + 61; exportsVA + 73]
  ++ zeros 2.

Definition truncatedPE : nativeImagePE := mkPE truncatedExports.

(** An exports buffer of 44 bytes whose only name pointer occupies its
    last four bytes. *)
Definition lastEntryPE : nativeImagePE :=
  mkPE (zeros 20 ++ putUint 4 1 ++ putUint 4 1
        ++ putUint 4 (exportsVA + 36) ++ putUint 4 (exportsVA + 40)
        ++ zeros 4 ++ putUint 4 (exportsVA + 20)).

(** An exports buffer that ends with its header: 36 bytes. *)
Definition headerOnlyPE : nativeImagePE := mkPE (zeros 36).

(** An exports buffer without any name string, whose header announces one
    name and places the name-pointer array two bytes below the start of
    the export directory. *)
Definition wrappedNamesPE : nativeImagePE :=
  mkPE (zeros 20 ++ putUint 4 0 ++ putUint 4 1
        ++ putUint 4 (exportsVA + 40) ++ putUint 4 (exportsVA - 2)
        ++ zeros 8).

(** An exports buffer that ends with its last name string: [other] at
    offset 72, [sbom] at 78, [sbom_length] at 83 and [__svm_version_info]
    at 95, up to the end of the buffer at 114. *)
Definition tightPE : nativeImagePE :=
  mkPE (zeros 20 ++ putUint 4 4 ++ putUint 4 4
        ++ putUint 4 (exportsVA + 40) ++ putUint 4 (exportsVA + 56) ++ zeros 4
        ++ flat_map (putUint 4) scenarioFuncs
        ++ flat_map (putUint 4)
             [exportsVA + 72; exportsVA + 78; exportsVA + 83; exportsVA + 95]
        ++ list_byte_of_string "other" ++ [x00]
        ++ sbomBytes ++ sbomLengthBytes ++ svmVersionInfoBytes).

(** A Mach-O image without a symbol table. *)
Definition noSymtabMachO : macho_File :=
  {| macho_Symtab := None;
     macho_Segments := [("__DATA"%string, scenarioSection)] |}.

Definition machoReader (bi : macho_File) : testReader :=
  {| as_elf := None; as_macho := Some bi; as_pe := None; bytesAt := noBytes |}.

(** An exports buffer of 30 bytes: it ends inside its header. *)
Definition shortHeaderPE : nativeImagePE := mkPE (zeros 30).

Definition peReader (ni : nativeImagePE) : testReader :=
  {| as_elf := None; as_macho := None; as_pe := Some (file ni);
     bytesAt := fun n off =>
       if (n =? len (exports ni)) && (off =? exportsVA)
       then Some (exports ni) else None |}.

(** A component with one property that is a CPE and one that is not. *)
Definition mixedComponent : nativeImageComponent :=
  {| comp_Type := "library"; comp_Group := "org.example"; comp_Name := "lib";
     comp_Version := "2.1";
     comp_Properties :=
       [{| cpe_Name := "syft:cpe23"; cpe_Value := "not a cpe" |};
        {| cpe_Name := "syft:cpe23";
           cpe_Value := "cpe:2.3:a:example:lib:2.1:*:*:*:*:*:*:*" |}] |}.

(** A scan of two files: the first holds [lowLengthElf], the second the
    scenario's image. *)
Definition twoFiles : FileResolver testLib :=
  Build_FileResolver testLib
    (Some ["/bin/broken"%string; "/bin/app"%string])
    (fun location =>
       if String.eqb location "/bin/broken" then Some [elfReader lowLengthElf]
       else if String.eqb location "/bin/app" then Some [elfReader scenarioElf]
       else None).

End Fixture.

(** ** Readings of the native-image cataloger *)

(** The name of a marker in a symbol table, without the prefix of the
    format, and the symbol a scan holds for it. *)
Definition markerName (m : marker) : string :=
  match m with
  | MarkerSbom => nativeImageSbomSymbol
  | MarkerSbomLength => nativeImageSbomLengthSymbol
  | MarkerSvmVersion => nativeImageSbomVersionSymbol
  end.

Definition markerSymbol (m : marker) (ms : markers) : Symbol :=
  match m with
  | MarkerSbom => sbom ms
  | MarkerSbomLength => sbomLength ms
  | MarkerSvmVersion => svmVersion ms
  end.

(** The end of [decompressSbom], from the compressed payload on. *)
Definition decodePayload (L : Lib) (sbomCompressed : list byte)
  : outcome (list (Package (CPE L))) :=
  gzreader <- lift "gzip.NewReader" (gzip_NewReader L sbomCompressed) ;;
  output <- lift "io.ReadAll" (io_ReadAll L gzreader) ;;
  sbomContent <- lift "json.Unmarshal" (json_Unmarshal L output) ;;
  Ok (mapComponents L (Components sbomContent)).

Definition lengthOverflows : error :=
  errors_New "the sbom_length symbol overflows the binary".

Definition sbomOverflows : error :=
  errors_New "the sbom symbol overflows the binary".

(** The body of the loop of [scanSymbols]. *)
Definition scanStep (prefix : string) (m : markers) (s : Symbol) : markers :=
  if String.eqb (sym_Name s) (prefix ++ nativeImageSbomSymbol)
  then {| sbom := s; sbomLength := sbomLength m; svmVersion := svmVersion m |}
  else if String.eqb (sym_Name s) (prefix ++ nativeImageSbomLengthSymbol)
  then {| sbom := sbom m; sbomLength := s; svmVersion := svmVersion m |}
  else if String.eqb (sym_Name s) (prefix ++ nativeImageSbomVersionSymbol)
  then {| sbom := sbom m; sbomLength := sbomLength m; svmVersion := s |}
  else m.

(** The little-endian 32-bit value at offset [off] of a buffer. *)
Definition u32At (buf : list byte) (off : Z) : Z :=
  le_uint (firstn 4 (skipn (Z.to_nat off) buf)).

(** The packages the three probes add for one reader, and the packages
    one file adds to a scan. *)
Definition readerContribution (L : Lib) (filename : string) (r : ReaderAt L)
  : list (Package (CPE L)) :=
  contribution L (newElf L) filename r
  ++ contribution L (newMachO L) filename r
  ++ contribution L (newPE L) filename r.

Definition fileContribution (L : Lib) (resolver : FileResolver L)
  (location : string) : list (Package (CPE L)) :=
  match FileContentsByLocation L resolver location with
  | Some readerCloser =>
    match GetUnionReader L readerCloser with
    | Some reader =>
      match fetchPkgs L reader location with
      | Ok newpkgs => newpkgs
      | _ => []
      end
    | None => []
    end
  | None => []
  end.

(** * Path filters

    The packages [commands] and [source] each hold a table of glob
    patterns per cataloger and build from it the filter of the paths worth
    scanning.  [doublestar.PathMatch] is a parameter: [None] is its error
    for a malformed pattern.  A Go map is the list of its entries; a
    [range] over it visits them in an order of its own, given here by
    [orders n] for the [n]-th [range] statement that is run. *)

(** [strings.Contains] *)
Fixpoint strings_Contains (s substr : string) : bool :=
  if String.prefix substr s then true
  else
    match s with
    | EmptyString => false
    | String _ s' => strings_Contains s' substr
    end.

Definition GlobTable : Type := list (string * list string).

(** [table[k]]: the nil slice for a key that is not in the map. *)
Definition tableLookup (table : GlobTable) (k : string) : list string :=
  match find (fun kv => String.eqb (fst kv) k) table with
  | Some kv => snd kv
  | None => []
  end.

Section PathFilter.

Variable PathMatch : string -> string -> option bool.

Fixpoint AnyGlobMatches (patterns : list string) (path : string) : bool :=
  match patterns with
  | [] => false
  | p :: rest =>
    match PathMatch p path with
    | None => AnyGlobMatches rest path
    | Some true => true
    | Some false => AnyGlobMatches rest path
    end
  end.

(** The loop [for k := range table] for one cataloger name [c]. *)
Definition appendSelected (table : GlobTable) (order : GlobTable) (c : string)
  (patterns : list string) : list string :=
  fold_left
    (fun pats kv =>
       if strings_Contains (fst kv) c
       then pats ++ tableLookup table (fst kv)
       else pats)
    order patterns.

(** The loop over the cataloger names; [n] counts the [range] statements
    over the table run so far. *)
Fixpoint selectLoop (table : GlobTable) (orders : nat -> GlobTable) (n : nat)
  (catalogers : list string) (patterns : list string) : list string :=
  match catalogers with
  | [] => patterns
  | c :: rest =>
    selectLoop table orders (S n) rest
      (appendSelected table (orders n) c patterns)
  end.

(** The patterns [getfilter] and [GetPathFilterFunc] collect. *)
Definition globPatterns (osIdPaths : list string) (table : GlobTable)
  (orders : nat -> GlobTable) (catalogers : list string) : list string :=
  let patterns := [] ++ osIdPaths in
  if len catalogers >? 0
  then selectLoop table orders 0 catalogers patterns
  else fold_left (fun pats kv => pats ++ snd kv) (orders 0%nat) patterns.

(** The closure [getfilter] and [GetPathFilterFunc] return. *)
Definition pathFilter (osIdPaths : list string) (table : GlobTable)
  (orders : nat -> GlobTable) (catalogers : list string) : string -> bool :=
  let patterns := globPatterns osIdPaths table orders catalogers in
  fun path => AnyGlobMatches patterns path.

End PathFilter.

(** The set of patterns of a filter, whatever the order of the table. *)
Definition selectedPattern (osIdPaths : list string) (table : GlobTable)
  (catalogers : list string) (p : string) : Prop :=
  In p osIdPaths
  \/ (catalogers <> []
      /\ exists c k v,
          In c catalogers /\ In (k, v) table
          /\ strings_Contains k c = true /\ In p v)
  \/ (catalogers = [] /\ exists k v, In (k, v) table /\ In p v).

Module Commands.

Local Open Scope string_scope.

Definition OsIdPaths : list string :=
  ["**/etc/os-release"; "**/usr/lib/os-release"; "**/etc/lsb-release";
   "**/etc/centos-release"; "**/etc/redhat-release";
   "**/etc/system-release-cpe"; "**/bin/busybox";
   "**/usr/share/doc/**/copyright"].

Definition BinarySearchPaths : list string :=
  ["**/**"].

Definition CatalogerGlobPatterns : list (string * list string) :=
  [("alpmdb-cataloger",
    ["**/var/lib/pacman/local/**/desc"]);
   ("apkdb-cataloger",
    ["**/lib/apk/db/installed"]);
   ("conan-cataloger",
    ["**/conanfile.txt"; "**/conan.lock"]);
   ("dartlang-lock-cataloger",
    ["**/pubspec.lock"]);
   ("dpkgdb-cataloger",
    ["**/var/lib/dpkg/{status,status.d/**}"]);
   ("dotnet-deps-cataloger",
    ["**/*.deps.json"]);
   ("go-mod-file-cataloger",
    ["**/go.mod"]);
   ("haskell-cataloger",
    ["**/stack.yaml"; "**/stack.yaml.lock"; "**/cabal.project.freeze"]);
   ("java-cataloger",
    ["**/*.jar"; "**/*.war"; "**/*.ear"; "**/*.par"; "**/*.sar";
     "**/*.jpi"; "**/*.hpi"; "**/*.lpkg"; "**/*.zip"; "**/*.tar";
     "**/*.tar.gz"; "**/*.tgz"; "**/*.tar.bz"; "**/*.tar.bz2"; "**/*.tbz";
     "**/*.tbz2"; "**/*.tar.br"; "**/*.tbr"; "**/*.tar.lz4"; "**/*.tlz4";
     "**/*.tar.sz"; "**/*.tsz"; "**/*.tar.xz"; "**/*.txz"; "**/*.tar.zst"]);
   ("java-pom-cataloger",
    ["**/pom.xml"]);
   ("javascript-package-cataloger",
    ["**/package.json"]);
   ("javascript-lock-cataloger",
    ["**/package-lock.json"; "**/yarn.lock"; "**/pnpm-lock.yaml"]);
   ("nix-store-cataloger",
    ["**/nix/store/*"]);
   ("php-composer-installed-cataloger",
    ["**/installed.json"]);
   ("php-composer-lock-cataloger",
    ["**/composer.lock"]);
   ("portage-cataloger",
    ["**/var/db/pkg/*/*/CONTENTS"]);
   ("rpm-db-cataloger",
    ["**/var/lib/rpm/{Packages,Packages.db,rpmdb.sqlite}";
     "**/var/lib/rpmmanifest/container-manifest-2"]);
   ("rpm-file-cataloger",
    ["**/*.rpm"]);
   ("ruby-gemfile-cataloger",
    ["**/Gemfile.lock"]);
   ("ruby-gemspec-cataloger",
    ["**/specifications/**/*.gemspec"]);
   ("rust-cargo-lock-cataloger",
    ["**/Cargo.lock"]);
   ("cocoapods-cataloger",
    ["**/Podfile.lock"]);
   ("sbom-cataloger",
    ["**/*.syft.json"; "**/*.bom.*"; "**/*.bom"; "**/bom"; "**/*.sbom.*";
     "**/*.sbom"; "**/sbom"; "**/*.cdx.*"; "**/*.cdx"; "**/*.spdx.*";
     "**/*.spdx"]);
   ("python-index-cataloger",
    ["**/*requirements*.txt"; "**/poetry.lock"; "**/Pipfile.lock";
     "**/setup.py"]);
   ("python-package-cataloger",
    ["**/*egg-info/PKG-INFO"; "**/*.egg-info"; "**/*dist-info/METADATA";
     "**/*.egg"; "**/*.whl"]);
   ("binary-cataloger", BinarySearchPaths);
   ("go-module-binary-cataloger", BinarySearchPaths);
   ("cargo-auditable-binary-cataloger", BinarySearchPaths)].

Definition getfilter (PathMatch : string -> string -> option bool)
  (orders : nat -> GlobTable) (catalogers : list string) : string -> bool :=
  pathFilter PathMatch OsIdPaths CatalogerGlobPatterns orders catalogers.

End Commands.

Module Source.

Local Open Scope string_scope.

Definition OsIdPaths : list string :=
  ["**/etc/os-release"; "**/usr/lib/os-release"; "**/etc/lsb-release";
   "**/etc/centos-release"; "**/etc/redhat-release";
   "**/etc/system-release-cpe"; "**/bin/busybox";
   "**/usr/share/doc/**/copyright"].

Definition BinarySearchPaths : list string :=
  ["**/**"].

Definition CatalogerGlobPatterns : list (string * list string) :=
  [("alpm-db-cataloger",
    ["**/var/lib/pacman/local/**/desc"]);
   ("apk-db-cataloger",
    ["**/lib/apk/db/installed"]);
   ("conan-cataloger",
    ["**/conanfile.txt"; "**/conan.lock"]);
   ("conan-info-cataloger",
    ["**/conaninfo.txt"]);
   ("dart-pubspec-lock-cataloger",
    ["**/pubspec.lock"]);
   ("dpkg-db-cataloger",
    ["**/var/lib/dpkg/status"; "**/var/lib/dpkg/status.d/*";
     "**/lib/opkg/info/*.control"; "**/lib/opkg/status"]);
   ("dotnet-deps-cataloger",
    ["**/*.deps.json"]);
   ("dotnet-portable-executable-cataloger",
    ["**/*.dll"; "**/*.exe"]);
   ("elixir-mix-lock-cataloger",
    ["**/mix.lock"]);
   ("erlang-rebar-lock-cataloger",
    ["**/rebar.lock"]);
   ("erlang-otp-application-cataloger",
    ["**/*.app"]);
   ("portage-cataloger",
    ["**/var/db/pkg/*/*/CONTENTS"]);
   ("github-actions-usage-cataloger",
    ["**/.github/workflows/*.yaml"; "**/.github/workflows/*.yml";
     "**/.github/actions/*/action.yml";
     "**/.github/actions/*/action.yaml"]);
   ("github-action-workflow-usage-cataloger",
    ["**/.github/workflows/*.yaml"; "**/.github/workflows/*.yml"]);
   ("go-module-file-cataloger",
    ["**/go.mod"]);
   ("haskell-cataloger",
    ["**/stack.yaml"; "**/stack.yaml.lock"; "**/cabal.project.freeze"]);
   ("java-archive-cataloger",
    ["**/*.jar"; "**/*.war"; "**/*.ear"; "**/*.par"; "**/*.sar";
     "**/*.nar"; "**/*.jpi"; "**/*.hpi"; "**/*.lpkg"; "**/*.zip";
     "**/*.tar"; "**/*.tar.gz"; "**/*.tgz"; "**/*.tar.bz"; "**/*.tar.bz2";
     "**/*.tbz"; "**/*.tbz2"; "**/*.tar.br"; "**/*.tbr"; "**/*.tar.lz4";
     "**/*.tlz4"; "**/*.tar.sz"; "**/*.tsz"; "**/*.tar.xz"; "**/*.txz";
     "**/*.tar.zst"; "**/*.tzst"; "**/*.tar.zstd"; "**/*.tzstd"]);
   ("java-pom-cataloger",
    ["**/pom.xml"]);
   ("java-gradle-lockfile-cataloger",
    ["**/gradle.lockfile*"]);
   ("javascript-package-cataloger",
    ["**/package.json"]);
   ("javascript-lock-cataloger",
    ["**/package-lock.json"; "**/yarn.lock"; "**/pnpm-lock.yaml"]);
   ("linux-kernel-cataloger",
    ["**/kernel"; "**/kernel-*"; "**/vmlinux"; "**/vmlinux-*";
     "**/vmlinuz"; "**/vmlinuz-*"; "**/lib/modules/**/*.ko"]);
   ("nix-store-cataloger",
    ["**/nix/store/*"]);
   ("php-composer-installed-cataloger",
    ["**/installed.json"]);
   ("php-composer-lock-cataloger",
    ["**/composer.lock"]);
   ("php-pecl-serialized-cataloger",
    ["**/php/.registry/.channel.*/*.reg"]);
   ("python-package-cataloger",
    ["**/*requirements*.txt"; "**/poetry.lock"; "**/Pipfile.lock";
     "**/setup.py"]);
   ("python-installed-package-cataloger",
    ["**/*.egg-info"; "**/*dist-info/METADATA"; "**/*egg-info/PKG-INFO";
     "**/*DIST-INFO/METADATA"; "**/*EGG-INFO/PKG-INFO"]);
   ("r-package-cataloger",
    ["**/DESCRIPTION"]);
   ("rpm-db-cataloger",
    ["**/{var/lib,usr/share,usr/lib/sysimage}/rpm/{Packages,Packages.db,rpmdb.sqlite}";
     "**/var/lib/rpmmanifest/container-manifest-2"]);
   ("rpm-archive-cataloger",
    ["**/*.rpm"]);
   ("ruby-gemfile-cataloger",
    ["**/Gemfile.lock"]);
   ("ruby-installed-gemspec-cataloger",
    ["**/specifications/**/*.gemspec"]);
   ("ruby-gemspec-cataloger",
    ["**/*.gemspec"]);
   ("rust-cargo-lock-cataloger",
    ["**/Cargo.lock"]);
   ("sbom-cataloger",
    ["**/*.syft.json"; "**/*.bom.*"; "**/*.bom"; "**/bom"; "**/*.sbom.*";
     "**/*.sbom"; "**/sbom"; "**/*.cdx.*"; "**/*.cdx"; "**/*.spdx.*";
     "**/*.spdx"]);
   ("swift-package-manager-cataloger",
    ["**/Package.resolved"; "**/.package.resolved"]);
   ("cocoapods-cataloger",
    ["**/Podfile.lock"]);
   ("wordpress-plugins-cataloger",
    ["**/wp-content/plugins/*/*.php"]);
   ("binary-cataloger", BinarySearchPaths);
   ("go-module-binary-cataloger", BinarySearchPaths);
   ("cargo-auditable-binary-cataloger", BinarySearchPaths)].

Definition GetPathFilterFunc (PathMatch : string -> string -> option bool)
  (orders : nat -> GlobTable) (catalogers : list string) : string -> bool :=
  pathFilter PathMatch OsIdPaths CatalogerGlobPatterns orders catalogers.

End Source.

(** A Go map literal has no two equal keys (the compiler refuses it); the
    tables above are checked for it. *)

Fixpoint keysDistinct (keys : list string) : bool :=
  match keys with
  | [] => true
  | k :: rest => negb (existsb (String.eqb k) rest) && keysDistinct rest
  end.

(** ** Test matcher

    A matcher that knows the patterns made of the prefix [**/] and a
    literal tail: a path matches when it is the tail or ends with a slash
    and the tail.  Every other pattern is malformed. *)

Module PathFixture.

Definition endsWith (path tail : string) : bool :=
  let n := String.length tail in
  let m := String.length path in
  (n <=? m)%nat && String.eqb (String.substring (m - n) n path) tail.

Definition tailMatch (pattern path : string) : option bool :=
  if String.prefix "**/" pattern
  then
    let tail := String.substring 3 (String.length pattern - 3) pattern in
    Some (String.eqb path tail || endsWith path (String.append "/" tail))
  else None.

Definition inOrder (table : GlobTable) : nat -> GlobTable := fun _ => table.

Definition reversed (table : GlobTable) : nat -> GlobTable :=
  fun _ => rev table.

End PathFixture.

(** ** Test scans *)

Module ScanFixture.

(** A scan of three files: a native image, a file the resolver cannot
    open, and an ELF image without the schema-version marker. *)
Definition threeFiles : FileResolver Fixture.testLib :=
  Build_FileResolver Fixture.testLib
    (Some ["/bin/app"%string; "/bin/gone"%string; "/bin/plain"%string])
    (fun location =>
       if String.eqb location "/bin/app"
       then Some [Fixture.elfReader Fixture.scenarioElf]
       else if String.eqb location "/bin/plain"
       then Some [Fixture.elfReader Fixture.twoMarkerElf]
       else None).

(** The library of the test images, with read-closers of which no union
    reader can be made: [None]. *)
Definition strictLib : Lib :=
  {| CPE := CPE Fixture.testLib;
     cpe_New := cpe_New Fixture.testLib;
     GzipReader := GzipReader Fixture.testLib;
     gzip_NewReader := gzip_NewReader Fixture.testLib;
     io_ReadAll := io_ReadAll Fixture.testLib;
     json_Unmarshal := json_Unmarshal Fixture.testLib;
     ReaderAt := ReaderAt Fixture.testLib;
     ReadAt := ReadAt Fixture.testLib;
     elf_NewFile := elf_NewFile Fixture.testLib;
     macho_NewFile := macho_NewFile Fixture.testLib;
     pe_NewFile := pe_NewFile Fixture.testLib;
     UnionReader := UnionReader Fixture.testLib;
     GetReaders := GetReaders Fixture.testLib;
     ReadCloser := option (list Fixture.testReader);
     GetUnionReader := fun rc => rc |}.

(** A scan whose second file opens but cannot be read. *)
Definition unreadableSecond : FileResolver strictLib :=
  Build_FileResolver strictLib
    (Some ["/bin/app"%string; "/bin/torn"%string; "/bin/late"%string])
    (fun location =>
       if String.eqb location "/bin/torn" then Some None
       else Some (Some [Fixture.elfReader Fixture.scenarioElf])).

End ScanFixture.

(** * Properties *)

(** ** Outcomes, slices and machine integers *)

Lemma u32_small (z : Z) : 0 <= z < 2 ^ 32 -> u32 z = z.
Proof. intros H. unfold u32. now apply Z.mod_small. Qed.

Lemma u64_small (z : Z) : 0 <= z < 2 ^ 64 -> u64 z = z.
Proof. intros H. unfold u64. now apply Z.mod_small. Qed.

Lemma u32_range (z : Z) : 0 <= u32 z < 2 ^ 32.
Proof. unfold u32. apply Z.mod_pos_bound. lia. Qed.

Lemma u64_range (z : Z) : 0 <= u64 z < 2 ^ 64.
Proof. unfold u64. apply Z.mod_pos_bound. lia. Qed.

Lemma u32_le (z : Z) : 0 <= z -> u32 z <= z.
Proof. intros H. unfold u32. apply Z.mod_le; lia. Qed.

Lemma len_nonneg {A : Type} (s : list A) : 0 <= len s.
Proof. unfold len. lia. Qed.

Lemma slice_in_bounds {A : Type} (s : list A) (lo hi : Z) :
  0 <= lo -> lo <= hi -> hi <= len s ->
  slice s lo hi = Ok (firstn (Z.to_nat (hi - lo)) (skipn (Z.to_nat lo) s)).
Proof.
  intros H0 H1 H2. unfold slice.
  destruct (Z.leb_spec 0 lo); [|lia].
  destruct (Z.leb_spec lo hi); [|lia].
  destruct (Z.leb_spec hi (len s)); [|lia].
  reflexivity.
Qed.

Lemma slice_unordered {A : Type} (s : list A) (lo hi : Z) :
  hi < lo -> slice s lo hi = Panic.
Proof.
  intros H. unfold slice.
  destruct (Z.leb_spec lo hi); [lia|].
  now rewrite andb_false_r.
Qed.

Lemma slice_length {A : Type} (s : list A) (lo hi : Z) (p : list A) :
  slice s lo hi = Ok p -> len p = hi - lo.
Proof.
  unfold slice.
  destruct (Z.leb_spec 0 lo); [|discriminate].
  destruct (Z.leb_spec lo hi); [|discriminate].
  destruct (Z.leb_spec hi (len s)); [|discriminate].
  simpl. intros E. injection E as <-. unfold len in *.
  rewrite length_firstn, length_skipn. lia.
Qed.

Lemma slice_not_err {A : Type} (s : list A) (lo hi : Z) (e : error) :
  slice s lo hi <> Err e.
Proof. unfold slice. now destruct (_ && _). Qed.

Lemma binary_Read_enough (width : nat) (p : list byte) :
  (width <= List.length p)%nat -> binary_Read width p = Ok (le_uint (firstn width p)).
Proof.
  intros H. unfold binary_Read.
  destruct (Nat.ltb_spec (List.length p) width); [lia|reflexivity].
Qed.

Lemma binary_Read_exact (width : nat) (p : list byte) :
  List.length p = width -> binary_Read width p = Ok (le_uint p).
Proof.
  intros H. rewrite binary_Read_enough by lia.
  now rewrite firstn_all2 by lia.
Qed.

Lemma le_uint_bound (bs : list byte) :
  0 <= le_uint bs < 256 ^ Z.of_nat (List.length bs).
Proof.
  induction bs as [|b bs IH].
  - simpl. lia.
  - cbn [le_uint List.length]. rewrite Nat2Z.inj_succ, Z.pow_succ_r by lia.
    assert (Hb : 0 <= Z.of_N (Byte.to_N b) < 256).
    { pose proof (Byte.to_N_bounded b). lia. }
    lia.
Qed.

(** ** PackageMapper *)

Lemma fold_left_app_flat_map {A B : Type} (f : A -> list B) (l : list A)
  (init : list B) :
  fold_left (fun acc x => acc ++ f x) l init = init ++ flat_map f l.
Proof.
  revert init. induction l as [|x l IH]; intros init; simpl.
  - now rewrite app_nil_r.
  - rewrite IH. now rewrite app_assoc.
Qed.

Lemma collect_from (L : Lib) (props : list nativeImageCPE) (init : list (CPE L)) :
  fold_left
    (fun cpes property =>
       match cpe_New L (cpe_Value property) with
       | None => cpes
       | Some c => cpes ++ [c]
       end)
    props init
  = init ++ parsedCPEs L props.
Proof.
  revert init. induction props as [|p props IH]; intros init; simpl.
  - now rewrite app_nil_r.
  - rewrite IH. destruct (cpe_New L (cpe_Value p)); simpl.
    + now rewrite <- app_assoc.
    + reflexivity.
Qed.

Lemma collectCPEs_parsedCPEs (L : Lib) (props : list nativeImageCPE) :
  collectCPEs L props = parsedCPEs L props.
Proof. unfold collectCPEs. now rewrite collect_from. Qed.

Lemma mapComponents_map (L : Lib) (components : list nativeImageComponent) :
  mapComponents L components = map (getPackage L) components.
Proof.
  unfold mapComponents.
  rewrite (fold_left_app_flat_map (fun c => [getPackage L c])). simpl.
  induction components as [|c cs IH]; simpl; [reflexivity|now rewrite IH].
Qed.

Lemma parsedCPEs_skip (L : Lib) (before after : list nativeImageCPE)
  (p : nativeImageCPE) :
  cpe_New L (cpe_Value p) = None ->
  parsedCPEs L (before ++ p :: after) = parsedCPEs L (before ++ after).
Proof.
  intros H. unfold parsedCPEs. rewrite !flat_map_app. simpl.
  now rewrite H.
Qed.

(** C8.  The component-to-package mapper is total and maps the list of
    components to one package per component, in order.  Each package has
    the name, version and group of its component and the fixed tags of
    the cataloger; its CPEs are the property values that parse, in order.
    A property whose value does not parse is skipped alone: the package is
    the one of the component without that property.  A component none of
    whose properties parses still yields its package, with no CPE. *)
Theorem getPackage_one_package_per_component (L : Lib)
  (components : list nativeImageComponent) :
  mapComponents L components = map (getPackage L) components
  /\ List.length (mapComponents L components) = List.length components
  /\ (forall (i : nat) (c : nativeImageComponent),
        nth_error components i = Some c ->
        nth_error (mapComponents L components) i = Some (getPackage L c))
  /\ (forall c : nativeImageComponent,
        Name (getPackage L c) = comp_Name c
        /\ Version (getPackage L c) = comp_Version c
        /\ GroupID (getPackage L c) = comp_Group c
        /\ Lang (getPackage L c) = Java
        /\ Type_ (getPackage L c) = GraalVMNativeImagePkg
        /\ MetadataType_ (getPackage L c) = JavaMetadataType
        /\ FoundBy (getPackage L c) = nativeImageCatalogerName
        /\ CPEs (getPackage L c) = parsedCPEs L (comp_Properties c))
  /\ (forall (c : nativeImageComponent) (before after : list nativeImageCPE)
        (p : nativeImageCPE),
        comp_Properties c = before ++ p :: after ->
        cpe_New L (cpe_Value p) = None ->
        getPackage L c = getPackage L (withProperties c (before ++ after)))
  /\ (forall c : nativeImageComponent,
        parsedCPEs L (comp_Properties c) = [] ->
        In c components ->
        In (getPackage L c) (mapComponents L components)
        /\ CPEs (getPackage L c) = []).
Proof.
  pose proof (mapComponents_map L components) as Hmap.
  repeat split.
  - exact Hmap.
  - rewrite Hmap. apply length_map.
  - intros i c Hi. rewrite Hmap. now apply map_nth_error.
  - simpl. apply collectCPEs_parsedCPEs.
  - intros c before after p Hp Hnone.
    unfold getPackage, withProperties. simpl.
    rewrite !collectCPEs_parsedCPEs, Hp.
    now rewrite (parsedCPEs_skip L before after p Hnone).
  - rewrite Hmap. now apply in_map.
  - simpl. rewrite collectCPEs_parsedCPEs. assumption.
Qed.

Lemma getPackage_one_package_per_component_witness :
  mapComponents Fixture.testLib [Fixture.mixedComponent; Fixture.scenarioComponent]
  = [getPackage Fixture.testLib Fixture.mixedComponent; Fixture.scenarioPackage]
  /\ CPEs (getPackage Fixture.testLib Fixture.mixedComponent)
     = ["cpe:2.3:a:example:lib:2.1:*:*:*:*:*:*:*"%string]
  /\ getPackage Fixture.testLib Fixture.mixedComponent
     = getPackage Fixture.testLib
         (withProperties Fixture.mixedComponent
            (skipn 1 (comp_Properties Fixture.mixedComponent)))
  /\ In Fixture.scenarioPackage
       (mapComponents Fixture.testLib
          [Fixture.mixedComponent; Fixture.scenarioComponent]).
Proof.
  destruct (getPackage_one_package_per_component Fixture.testLib
              [Fixture.mixedComponent; Fixture.scenarioComponent])
    as (Hmap & _ & _ & Hfields & Hskip & Hkeep).
  split; [exact Hmap|]. split.
  - destruct (Hfields Fixture.mixedComponent) as (_ & _ & _ & _ & _ & _ & _ & H).
    exact H.
  - split.
    + apply (Hskip Fixture.mixedComponent [] _ _ eq_refl). reflexivity.
    + apply (Hkeep Fixture.scenarioComponent); [reflexivity|].
      right. left. reflexivity.
Defined.

(** ** PayloadDecoder *)

Lemma bind_Ok {A B : Type} (m : outcome A) (k : A -> outcome B) (b : B) :
  bind m k = Ok b -> exists a, m = Ok a /\ k a = Ok b.
Proof. destruct m; simpl; intros H; try discriminate. now exists a. Qed.

Lemma lift_not_panic {A : Type} (origin : string) (r : option A) :
  lift origin r <> Panic.
Proof. now destruct r. Qed.

(** Without wrap-around, a length field that does not fit in the buffer is
    refused with the error of the length check. *)
Lemma decompressSbom_length_checked (L : Lib) (databuf : list byte)
  (sbomStart lengthStart : Z) :
  0 <= lengthStart -> lengthStart + 8 < 2 ^ 64 ->
  len databuf < lengthStart + 8 ->
  decompressSbom L databuf sbomStart lengthStart
  = Err (errors_New "the sbom_length symbol overflows the binary").
Proof.
  intros H0 H1 H2. unfold decompressSbom.
  rewrite u64_small by lia.
  destruct (Z.gtb_spec (lengthStart + 8) (len databuf)); [reflexivity|lia].
Qed.

(** Without wrap-around, a payload that does not fit in the buffer is
    refused with the error of the payload check. *)
Lemma decompressSbom_payload_checked (L : Lib) (databuf lengthBytes : list byte)
  (sbomStart lengthStart : Z) :
  0 <= lengthStart -> lengthStart + 8 < 2 ^ 64 ->
  slice databuf lengthStart (lengthStart + 8) = Ok lengthBytes ->
  0 <= sbomStart -> sbomStart + le_uint lengthBytes < 2 ^ 64 ->
  len databuf < sbomStart + le_uint lengthBytes ->
  decompressSbom L databuf sbomStart lengthStart
  = Err (errors_New "the sbom symbol overflows the binary").
Proof.
  intros H0 H1 Hs H2 H3 H4. unfold decompressSbom.
  rewrite u64_small by lia.
  pose proof (slice_length _ _ _ _ Hs) as Hlen.
  assert (Hle : lengthStart + 8 <= len databuf).
  { unfold slice in Hs.
    destruct (Z.leb_spec (lengthStart + 8) (len databuf)); [assumption|].
    rewrite andb_false_r in Hs. discriminate. }
  destruct (Z.gtb_spec (lengthStart + 8) (len databuf)); [lia|].
  rewrite Hs. cbn [bind].
  rewrite binary_Read_exact by (unfold len in Hlen; lia). cbn [bind].
  pose proof (le_uint_bound lengthBytes).
  rewrite u64_small by lia.
  destruct (Z.gtb_spec (sbomStart + le_uint lengthBytes) (len databuf));
    [reflexivity|lia].
Qed.

(** Without wrap-around the decoder never panics. *)
Lemma decompressSbom_no_wrap_no_panic (L : Lib) (databuf : list byte)
  (sbomStart lengthStart : Z) :
  0 <= lengthStart -> lengthStart + 8 < 2 ^ 64 -> 0 <= sbomStart ->
  (forall lengthBytes,
      slice databuf lengthStart (lengthStart + 8) = Ok lengthBytes ->
      sbomStart + le_uint lengthBytes < 2 ^ 64) ->
  decompressSbom L databuf sbomStart lengthStart <> Panic.
Proof.
  intros H0 H1 H2 Hsum. unfold decompressSbom.
  rewrite u64_small by lia.
  destruct (Z.gtb_spec (lengthStart + 8) (len databuf)); [discriminate|].
  assert (Hs : exists lengthBytes,
             slice databuf lengthStart (lengthStart + 8) = Ok lengthBytes)
    by (eexists; apply slice_in_bounds; lia).
  destruct Hs as [lengthBytes Hs]. rewrite Hs. cbn [bind].
  pose proof (slice_length _ _ _ _ Hs) as Hlen.
  specialize (Hsum _ Hs).
  rewrite binary_Read_exact by (unfold len in Hlen; lia). cbn [bind].
  pose proof (le_uint_bound lengthBytes).
  rewrite u64_small by lia.
  destruct (Z.gtb_spec (sbomStart + le_uint lengthBytes) (len databuf));
    [discriminate|].
  rewrite slice_in_bounds by lia. cbn [bind].
  destruct (gzip_NewReader L _); cbn [bind lift]; [|discriminate].
  destruct (io_ReadAll L _); cbn [bind lift]; [|discriminate].
  destruct (json_Unmarshal L _); cbn [bind lift]; discriminate.
Qed.

(** When [lengthStart + 8] wraps around [2^64] the length check passes and
    the slice of the length field panics. *)
Lemma decompressSbom_length_wrap_panics (L : Lib) (databuf : list byte)
  (sbomStart lengthStart : Z) :
  2 ^ 64 - 8 <= lengthStart < 2 ^ 64 ->
  lengthStart + 8 - 2 ^ 64 <= len databuf ->
  decompressSbom L databuf sbomStart lengthStart = Panic.
Proof.
  intros H0 H1. unfold decompressSbom.
  assert (E : u64 (lengthStart + 8) = lengthStart + 8 - 2 ^ 64).
  { unfold u64. symmetry. apply (Z.mod_unique _ _ 1); lia. }
  rewrite E.
  destruct (Z.gtb_spec (lengthStart + 8 - 2 ^ 64) (len databuf)); [lia|].
  rewrite slice_unordered by lia. reflexivity.
Qed.

(** C1.  The decoder compares [lengthStart + 8] and
    [sbomStart + storedLength] with the buffer length after the sums have
    been reduced modulo [2^64].  On a 16-byte buffer with the length field
    at offset [2^64 - 8] the first sum wraps to 0, the check passes and the
    slice [databuf[lengthStart:lengthEnd]] panics; on a 16-byte buffer whose
    length field holds [2^64 - 1], with the payload at offset 8, the second
    sum wraps to 7, the check passes and [databuf[sbomStart:sbomEnd]]
    panics.  Neither violation is returned as an error. *)
Theorem decompressSbom_wrapped_bounds_panic (L : Lib) :
  decompressSbom L (Fixture.zeros 16) 0 (2 ^ 64 - 8) = Panic
  /\ decompressSbom L
       (Fixture.putUint 8 (2 ^ 64 - 1) ++ Fixture.zeros 8) 8 0 = Panic.
Proof. split; reflexivity. Qed.

(** ** The scan *)

Lemma tryFormat_error_continues (L : Lib) (filename : string) (r : ReaderAt L)
  (pkgs : list (Package (CPE L)))
  (mk : string -> ReaderAt L -> outcome nativeImage) (ni : nativeImage)
  (e : error) :
  mk filename r = Ok ni -> image_fetchPkgs L ni = Err e ->
  tryFormat L filename r pkgs mk = Ok pkgs.
Proof. intros H1 H2. unfold tryFormat. now rewrite H1, H2. Qed.

Lemma tryFormat_declined (L : Lib) (filename : string) (r : ReaderAt L)
  (pkgs : list (Package (CPE L)))
  (mk : string -> ReaderAt L -> outcome nativeImage) (e : error) :
  mk filename r = Err e -> tryFormat L filename r pkgs mk = Ok pkgs.
Proof. intros H. unfold tryFormat. now rewrite H. Qed.

(** C9.  A scan of two files whose first file is an ELF image with all
    three markers and with its [sbom_length] symbol at [0x1ff8], below the
    [.data] section at [0x2000]: the length-field offset is
    [0x1ff8 - 0x2000] reduced modulo [2^64], that is [2^64 - 8], the
    decoder panics on the slice of the length field, nothing recovers the
    panic, and [Catalog] ends there without the packages of the second
    file. *)
Theorem Catalog_aborts_on_malformed_image :
  nativeImageElf_fetchPkgs Fixture.testLib Fixture.lowLengthElf = Panic
  /\ Catalog Fixture.testLib Fixture.twoFiles = Panic.
Proof. split; reflexivity. Qed.

(** ** PE export walker: the comparisons with the buffer length *)

Lemma geb_refl_true (z : Z) : (z >=? z) = true.
Proof. rewrite Z.geb_leb. apply Z.leb_refl. Qed.

(** C6, what fails.  The exports buffer of [tightPE] ends with the name
    string [__svm_version_info] and its NUL byte, at offsets 95 to 113 of
    114.  The check before that read compares the start offset of the
    string with the buffer length; the read, whose last byte is the last
    byte of the buffer, is accepted: the walk records the marker at index 3
    and the image yields its package. *)
Lemma name_read_accepted_at_buffer_end :
  let content :=
    {| numberOfFunctions := 4; numberOfNames := 4;
       addressOfFunctions := Fixture.exportsVA + 40;
       addressOfNames := Fixture.exportsVA + 56;
       addressOfSbom := 1; addressOfSbomLength := 2;
       addressOfSvmVersion := 0 |} in
  len (exports Fixture.tightPE) = 114
  /\ slice_from (exports Fixture.tightPE) 95 = Ok svmVersionInfoBytes
  /\ 95 + len svmVersionInfoBytes = len (exports Fixture.tightPE)
  /\ walkName Fixture.tightPE content 3
     = ([68], Next {| numberOfFunctions := 4; numberOfNames := 4;
                      addressOfFunctions := Fixture.exportsVA + 40;
                      addressOfNames := Fixture.exportsVA + 56;
                      addressOfSbom := 1; addressOfSbomLength := 2;
                      addressOfSvmVersion := 3 |})
  /\ nativeImagePE_fetchPkgs Fixture.testLib Fixture.tightPE
     = Ok [Fixture.scenarioPackage].
Proof. cbv zeta. repeat split; reflexivity. Qed.

(** C6, amended.  The three bounds checks of the PE export pathway on a
    four-byte read (header attribute, function pointer, name pointer)
    compare the end offset of the read with the length of the exports
    buffer by [>=].  A four-byte read whose end offset equals the buffer
    length lies within the buffer (the slice expression would succeed), and
    is refused: [fetchExportAttribute] and [fetchExportFunctionPointer]
    return the invalid-index error, and the name walk stops at that entry
    without reading it and leaves the content as it was.  The fourth
    check, before the read of a name string, compares the start offset of
    the string with the buffer length by [>=]: a string that starts at the
    buffer length is refused, and a string that starts below it is read up
    to the last byte of the buffer. *)
Theorem pe_checks_refuse_read_ending_at_buffer_end :
  (forall (ni : nativeImagePE) (i : Z),
      0 <= i ->
      sizeof_exportPrefixPE + i * sizeof_uint32 + 4 = len (exports ni) ->
      fetchExportAttribute ni i = invalidIndex
      /\ exists p,
          slice (exports ni) (sizeof_exportPrefixPE + i * sizeof_uint32)
            (sizeof_exportPrefixPE + i * sizeof_uint32 + 4) = Ok p)
  /\ (forall (ni : nativeImagePE) (functionsBase i : Z),
      u32 (functionsBase + u32 (i * sizeof_uint32)) + sizeof_uint32
      = len (exports ni) ->
      fetchExportFunctionPointer ni functionsBase i = invalidIndex
      /\ exists p,
          slice (exports ni) (u32 (functionsBase + u32 (i * sizeof_uint32)))
            (u32 (functionsBase + u32 (i * sizeof_uint32)) + sizeof_uint32)
          = Ok p)
  /\ (forall (ni : nativeImagePE) (content : exportContentPE) (i : Z)
        (trips : nat),
      nameEntry ni content i + sizeof_uint32 = len (exports ni) ->
      walkName ni content i = ([], Return content)
      /\ walkNames ni (S trips) i content = ([], Ok content)
      /\ exists p,
          slice (exports ni) (nameEntry ni content i)
            (nameEntry ni content i + sizeof_uint32) = Ok p)
  /\ (forall (ni : nativeImagePE) (content : exportContentPE) (i : Z)
        (p : list byte) (symbolAddress : Z),
      u32 (nameEntry ni content i + sizeof_uint32) < u32 (len (exports ni)) ->
      slice (exports ni) (nameEntry ni content i)
        (u32 (nameEntry ni content i + sizeof_uint32)) = Ok p ->
      binary_Read 4 p = Ok symbolAddress ->
      (u32 (symbolAddress - dd_VirtualAddress (exportSymbols ni))
       = len (exports ni) ->
       walkName ni content i = ([nameEntry ni content i], Return content))
      /\ (u32 (symbolAddress - dd_VirtualAddress (exportSymbols ni))
          < u32 (len (exports ni)) ->
          exists name,
            slice_from (exports ni)
              (u32 (symbolAddress - dd_VirtualAddress (exportSymbols ni)))
            = Ok name
            /\ u32 (symbolAddress - dd_VirtualAddress (exportSymbols ni))
               + len name = len (exports ni)
            /\ walkName ni content i
               = ([nameEntry ni content i],
                  Next (recordMarker name i content)))).
Proof.
  split; [|split; [|split]].
  - intros ni i Hi Hend. split.
    + unfold fetchExportAttribute. rewrite Hend.
      now rewrite geb_refl_true.
    + eexists. apply slice_in_bounds;
        unfold sizeof_exportPrefixPE, sizeof_uint32 in *; lia.
  - intros ni functionsBase i Hend. split.
    + unfold fetchExportFunctionPointer. rewrite Hend.
      now rewrite geb_refl_true.
    + pose proof (u32_range (functionsBase + u32 (i * sizeof_uint32))).
      eexists. apply slice_in_bounds; unfold sizeof_uint32 in *; lia.
  - intros ni content i trips Hend.
    assert (Hstep : walkName ni content i = ([], Return content)).
    { unfold walkName. rewrite Hend. now rewrite geb_refl_true. }
    split; [exact Hstep|]. split.
    + simpl. now rewrite Hstep.
    + assert (0 <= nameEntry ni content i) by (unfold nameEntry; apply u32_range).
      eexists. apply slice_in_bounds; unfold sizeof_uint32 in *; lia.
  - intros ni content i p symbolAddress Hin Hp Hread.
    set (symbolBase := u32 (symbolAddress - dd_VirtualAddress (exportSymbols ni))).
    pose proof (u32_range (symbolAddress - dd_VirtualAddress (exportSymbols ni)))
      as Hb. fold symbolBase in Hb.
    pose proof (len_nonneg (exports ni)) as Hn.
    pose proof (u32_le _ Hn) as Hle.
    assert (Hchecked :
              (u32 (nameEntry ni content i + sizeof_uint32)
               >=? u32 (len (exports ni))) = false).
    { destruct (Z.geb_spec (u32 (nameEntry ni content i + sizeof_uint32))
                  (u32 (len (exports ni)))); [lia|reflexivity]. }
    split.
    + intros Hstart. unfold walkName. rewrite Hchecked, Hp, Hread.
      fold symbolBase. rewrite Hstart.
      rewrite (u32_small (len (exports ni))) by lia.
      now rewrite geb_refl_true.
    + intros Hstart.
      assert (Hname : slice_from (exports ni) symbolBase
                      = Ok (firstn (Z.to_nat (len (exports ni) - symbolBase))
                              (skipn (Z.to_nat symbolBase) (exports ni)))).
      { unfold slice_from. apply slice_in_bounds; lia. }
      eexists. split; [exact Hname|]. split.
      * pose proof (slice_length _ _ _ _ Hname). lia.
      * unfold walkName. rewrite Hchecked, Hp, Hread. fold symbolBase.
        destruct (Z.geb_spec symbolBase (u32 (len (exports ni)))); [lia|].
        now rewrite Hname.
Qed.

Lemma pe_checks_refuse_read_ending_at_buffer_end_witness :
  fetchExportAttribute Fixture.headerOnlyPE 3 = invalidIndex
  /\ fetchExportFunctionPointer Fixture.lastEntryPE 36 1 = invalidIndex
  /\ walkNames Fixture.lastEntryPE 1 0
       {| numberOfFunctions := 1; numberOfNames := 1;
          addressOfFunctions := Fixture.exportsVA + 36;
          addressOfNames := Fixture.exportsVA + 40;
          addressOfSbom := 0; addressOfSbomLength := 0;
          addressOfSvmVersion := 0 |}
     = ([], Ok {| numberOfFunctions := 1; numberOfNames := 1;
                  addressOfFunctions := Fixture.exportsVA + 36;
                  addressOfNames := Fixture.exportsVA + 40;
                  addressOfSbom := 0; addressOfSbomLength := 0;
                  addressOfSvmVersion := 0 |})
  /\ exists name,
      slice_from (exports Fixture.tightPE)
        (u32 (Fixture.exportsVA + 95
              - dd_VirtualAddress (exportSymbols Fixture.tightPE)))
      = Ok name
      /\ u32 (Fixture.exportsVA + 95
              - dd_VirtualAddress (exportSymbols Fixture.tightPE))
         + len name = len (exports Fixture.tightPE)
      /\ walkName Fixture.tightPE
           {| numberOfFunctions := 4; numberOfNames := 4;
              addressOfFunctions := Fixture.exportsVA + 40;
              addressOfNames := Fixture.exportsVA + 56;
              addressOfSbom := 1; addressOfSbomLength := 2;
              addressOfSvmVersion := 0 |} 3
         = ([nameEntry Fixture.tightPE
               {| numberOfFunctions := 4; numberOfNames := 4;
                  addressOfFunctions := Fixture.exportsVA + 40;
                  addressOfNames := Fixture.exportsVA + 56;
                  addressOfSbom := 1; addressOfSbomLength := 2;
                  addressOfSvmVersion := 0 |} 3],
            Next (recordMarker name 3
                    {| numberOfFunctions := 4; numberOfNames := 4;
                       addressOfFunctions := Fixture.exportsVA + 40;
                       addressOfNames := Fixture.exportsVA + 56;
                       addressOfSbom := 1; addressOfSbomLength := 2;
                       addressOfSvmVersion := 0 |})).
Proof.
  destruct pe_checks_refuse_read_ending_at_buffer_end as (Ha & Hf & Hw & Hn).
  split; [|split; [|split]].
  - apply (Ha Fixture.headerOnlyPE 3); [lia|reflexivity].
  - apply (Hf Fixture.lastEntryPE 36 1). reflexivity.
  - apply (Hw Fixture.lastEntryPE _ 0 0%nat). reflexivity.
  - apply (Hn Fixture.tightPE _ 3 (Fixture.putUint 4 (Fixture.exportsVA + 95))
             (Fixture.exportsVA + 95)); reflexivity.
Defined.

(** ** PE export walker: header attributes *)

Lemma fetchExportAttribute_range (ni : nativeImagePE) (i v : Z) :
  fetchExportAttribute ni i = Ok v -> 0 <= v < 2 ^ 32.
Proof.
  unfold fetchExportAttribute.
  destruct (_ >=? _); [discriminate|].
  intros H. apply bind_Ok in H. destruct H as (p & Hp & Hv).
  apply slice_length in Hp.
  rewrite binary_Read_exact in Hv by (unfold len in Hp; lia).
  injection Hv as <-.
  pose proof (le_uint_bound p) as Hb.
  replace (Z.of_nat (List.length p)) with 4 in Hb by (unfold len in Hp; lia).
  lia.
Qed.

Lemma fetchExportAttribute_cases (ni : nativeImagePE) (i : Z) :
  0 <= i ->
  (exists v, fetchExportAttribute ni i = Ok v)
  \/ fetchExportAttribute ni i = invalidIndex.
Proof.
  intros Hi. unfold fetchExportAttribute.
  destruct (Z.geb_spec (sizeof_exportPrefixPE + i * sizeof_uint32 + 4)
              (len (exports ni))) as [H|H]; [now right|left].
  assert (Hs : exists p,
             slice (exports ni) (sizeof_exportPrefixPE + i * sizeof_uint32)
               (sizeof_exportPrefixPE + i * sizeof_uint32 + 4) = Ok p).
  { eexists. apply slice_in_bounds;
      unfold sizeof_exportPrefixPE, sizeof_uint32 in *; lia. }
  destruct Hs as [p Hs]. rewrite Hs. cbn [bind].
  pose proof (slice_length _ _ _ _ Hs) as Hlen.
  rewrite binary_Read_exact by (unfold len in Hlen; lia).
  now eexists.
Qed.

Lemma fetchExportContent_short (ni : nativeImagePE) :
  len (exports ni) <= 36 -> fetchExportContent ni = invalidIndex.
Proof.
  intros Hlen. unfold fetchExportContent.
  destruct (fetchExportAttribute_cases ni 0) as [[v0 ->]| ->];
    [lia| |reflexivity]. cbn [bind].
  destruct (fetchExportAttribute_cases ni 1) as [[v1 ->]| ->];
    [lia| |reflexivity]. cbn [bind].
  destruct (fetchExportAttribute_cases ni 2) as [[v2 ->]| ->];
    [lia| |reflexivity]. cbn [bind].
  assert (H3 : fetchExportAttribute ni 3 = invalidIndex).
  { unfold fetchExportAttribute.
    destruct (Z.geb_spec (sizeof_exportPrefixPE + 3 * sizeof_uint32 + 4)
                (len (exports ni))) as [H|H]; [reflexivity|].
    unfold sizeof_exportPrefixPE, sizeof_uint32 in H. lia. }
  now rewrite H3.
Qed.

(** [fetchExportContent] returns a content or the invalid-index error. *)
Lemma fetchExportContent_cases (ni : nativeImagePE) :
  (exists content, fetchExportContent ni = Ok content)
  \/ fetchExportContent ni = invalidIndex.
Proof.
  unfold fetchExportContent.
  destruct (fetchExportAttribute_cases ni 0) as [[v0 ->]| ->];
    [lia| |now right]. cbn [bind].
  destruct (fetchExportAttribute_cases ni 1) as [[v1 ->]| ->];
    [lia| |now right]. cbn [bind].
  destruct (fetchExportAttribute_cases ni 2) as [[v2 ->]| ->];
    [lia| |now right]. cbn [bind].
  destruct (fetchExportAttribute_cases ni 3) as [[v3 ->]| ->];
    [lia| |now right]. cbn [bind].
  left. now eexists.
Qed.

(** What [fetchExportContent] returns: the four attributes, each below
    [2^32], and the three marker indices at zero. *)
Lemma fetchExportContent_initial (ni : nativeImagePE) (content : exportContentPE) :
  fetchExportContent ni = Ok content ->
  fetchExportAttribute ni 1 = Ok (numberOfNames content)
  /\ 0 <= numberOfNames content < 2 ^ 32
  /\ addressOfSbom content = 0
  /\ addressOfSbomLength content = 0
  /\ addressOfSvmVersion content = 0.
Proof.
  unfold fetchExportContent. intros H.
  apply bind_Ok in H. destruct H as (nf & _ & H).
  apply bind_Ok in H. destruct H as (nn & Hnn & H).
  apply bind_Ok in H. destruct H as (af & _ & H).
  apply bind_Ok in H. destruct H as (an & _ & H).
  injection H as <-. simpl.
  split; [assumption|]. split; [now apply (fetchExportAttribute_range ni 1)|].
  repeat split.
Qed.

Lemma fetchPkgs_PE_missing (L : Lib) (ni : nativeImagePE)
  (content0 content : exportContentPE) :
  fetchExportContent ni = Ok content0 ->
  fetchSbomSymbols ni content0 = Ok content ->
  indexMissing content = true ->
  nativeImagePE_fetchPkgs L ni = missingSymbols.
Proof.
  intros H0 H1 H2. unfold nativeImagePE_fetchPkgs.
  rewrite H0. cbn [bind]. rewrite H1. cbn [bind]. now rewrite H2.
Qed.

(** C7.  A PE image whose export directory announces no names
    ([numberOfNames], the header attribute of index 1, is 0): extraction
    returns an error for the image, which adds no package to the list of
    its reader.  When the header is read in full, the name walk makes no
    pass, so it reads no entry of the name-pointer array and returns the
    content with its three marker indices still at zero, and the error is
    the one of the missing symbols. *)
Theorem pe_no_names_finds_no_markers (L : Lib) (ni : nativeImagePE) :
  fetchExportAttribute ni 1 = Ok 0 ->
  (exists e, nativeImagePE_fetchPkgs L ni = Err e)
  /\ (forall (filename : string) (r : ReaderAt L)
        (pkgs : list (Package (CPE L)))
        (mk : string -> ReaderAt L -> outcome nativeImage),
        mk filename r = Ok (ImagePE ni) ->
        tryFormat L filename r pkgs mk = Ok pkgs)
  /\ (forall content : exportContentPE,
        fetchExportContent ni = Ok content ->
        numberOfNames content = 0
        /\ fetchSbomSymbols ni content = Ok content
        /\ addressOfSbom content = 0
        /\ addressOfSbomLength content = 0
        /\ addressOfSvmVersion content = 0
        /\ nameEntriesRead ni content = []
        /\ nativeImagePE_fetchPkgs L ni = missingSymbols).
Proof.
  intros Hnames.
  assert (Hfull : forall content : exportContentPE,
             fetchExportContent ni = Ok content ->
             numberOfNames content = 0
             /\ fetchSbomSymbols ni content = Ok content
             /\ addressOfSbom content = 0
             /\ addressOfSbomLength content = 0
             /\ addressOfSvmVersion content = 0
             /\ nameEntriesRead ni content = []
             /\ nativeImagePE_fetchPkgs L ni = missingSymbols).
  { intros content Hc.
    destruct (fetchExportContent_initial ni content Hc)
      as (Hattr & _ & Hs & Hl & Hv).
    assert (Hn : numberOfNames content = 0) by congruence.
    assert (Hwalk : fetchSbomSymbols ni content = Ok content).
    { unfold fetchSbomSymbols. now rewrite Hn. }
    repeat split; try assumption.
    - unfold nameEntriesRead. now rewrite Hn.
    - apply (fetchPkgs_PE_missing L ni content content Hc Hwalk).
      unfold indexMissing. now rewrite Hs. }
  assert (Herr : exists e, nativeImagePE_fetchPkgs L ni = Err e).
  { destruct (fetchExportContent_cases ni) as [[content Hc]|Hc].
    - destruct (Hfull content Hc) as (_ & _ & _ & _ & _ & _ & Hpkgs).
      exists (errors_New nativeImageMissingSymbolsError). exact Hpkgs.
    - exists (errors_New nativeImageInvalidIndexError).
      unfold nativeImagePE_fetchPkgs. now rewrite Hc. }
  split; [exact Herr|]. split; [|exact Hfull].
  intros filename r pkgs mk Hmk. destruct Herr as [e He].
  now apply (tryFormat_error_continues L filename r pkgs mk (ImagePE ni) e).
Qed.

Lemma pe_no_names_finds_no_markers_witness :
  (exists e, nativeImagePE_fetchPkgs Fixture.testLib Fixture.noNamesPE = Err e)
  /\ tryFormat Fixture.testLib "app.exe" (Fixture.peReader Fixture.noNamesPE)
       [Fixture.scenarioPackage] (newPE Fixture.testLib)
     = Ok [Fixture.scenarioPackage]
  /\ nameEntriesRead Fixture.noNamesPE
       {| numberOfFunctions := 4; numberOfNames := 0;
          addressOfFunctions := Fixture.exportsVA + 40;
          addressOfNames := Fixture.exportsVA + 56;
          addressOfSbom := 0; addressOfSbomLength := 0;
          addressOfSvmVersion := 0 |} = []
  /\ nativeImagePE_fetchPkgs Fixture.testLib Fixture.noNamesPE = missingSymbols.
Proof.
  destruct (pe_no_names_finds_no_markers Fixture.testLib Fixture.noNamesPE
              eq_refl) as (Herr & Htry & Hfull).
  split; [exact Herr|]. split; [apply Htry; reflexivity|].
  destruct (Hfull {| numberOfFunctions := 4; numberOfNames := 0;
                     addressOfFunctions := Fixture.exportsVA + 40;
                     addressOfNames := Fixture.exportsVA + 56;
                     addressOfSbom := 0; addressOfSbomLength := 0;
                     addressOfSvmVersion := 0 |} eq_refl)
    as (_ & _ & _ & _ & _ & Hreads & Hpkgs).
  split; [exact Hreads|exact Hpkgs].
Defined.

(** ** FormatDetector *)

(** C3.  Two recognized images without any of the three markers on which
    the marker check is never reached.  The exports buffer of
    [wrappedNamesPE] holds no name string; its header announces one name
    and an [addressOfNames] two bytes below the export directory, so the
    offset [k] of the entry of index 0 is [2^32 - 2], [k + 4] wraps to 2,
    the comparison with the buffer length passes and
    [ni.exports[k : k+sz]] panics.  [noSymtabMachO] has no symbol table,
    and [bi.Symtab.Syms] dereferences nil.  In both cases the per-file
    [fetchPkgs] panics instead of returning the empty list. *)
Theorem fetchPkgs_panics_before_marker_check :
  fetchExportContent Fixture.wrappedNamesPE
  = Ok {| numberOfFunctions := 0; numberOfNames := 1;
          addressOfFunctions := Fixture.exportsVA + 40;
          addressOfNames := Fixture.exportsVA - 2;
          addressOfSbom := 0; addressOfSbomLength := 0;
          addressOfSvmVersion := 0 |}
  /\ nameEntry Fixture.wrappedNamesPE
       {| numberOfFunctions := 0; numberOfNames := 1;
          addressOfFunctions := Fixture.exportsVA + 40;
          addressOfNames := Fixture.exportsVA - 2;
          addressOfSbom := 0; addressOfSbomLength := 0;
          addressOfSvmVersion := 0 |} 0 = 2 ^ 32 - 2
  /\ nativeImagePE_fetchPkgs Fixture.testLib Fixture.wrappedNamesPE = Panic
  /\ fetchPkgs Fixture.testLib [Fixture.peReader Fixture.wrappedNamesPE]
       "app.exe" = Panic
  /\ nativeImageMachO_fetchPkgs Fixture.testLib Fixture.noSymtabMachO = Panic
  /\ fetchPkgs Fixture.testLib [Fixture.machoReader Fixture.noSymtabMachO]
       "app" = Panic.
Proof. repeat split; reflexivity. Qed.

Lemma newElf_not_panic (L : Lib) (filename : string) (r : ReaderAt L) :
  newElf L filename r <> Panic.
Proof. unfold newElf. now destruct (elf_NewFile L r). Qed.

Lemma newMachO_not_panic (L : Lib) (filename : string) (r : ReaderAt L) :
  newMachO L filename r <> Panic.
Proof. unfold newMachO. now destruct (macho_NewFile L r). Qed.

Lemma newPE_not_panic (L : Lib) (filename : string) (r : ReaderAt L) :
  newPE L filename r <> Panic.
Proof.
  unfold newPE. destruct (pe_NewFile L r) as [bi|]; cbn [lift bind]; [|discriminate].
  destruct (pe_OptionalHeader bi) as [dd|]; [|discriminate].
  destruct (dd_Size dd =? 0); [discriminate|].
  now destruct (ReadAt L r _ _).
Qed.

Lemma probe_not_panic (L : Lib) (filename : string) (r : ReaderAt L)
  (mk : string -> ReaderAt L -> outcome nativeImage) :
  In mk (imageformats L) -> mk filename r <> Panic.
Proof.
  intros [<-|[<-|[<-|[]]]].
  - apply newElf_not_panic.
  - apply newMachO_not_panic.
  - apply newPE_not_panic.
Qed.

(** The marker check of an image that lacks a marker returns an error. *)
Lemma markerAbsent_error (L : Lib) (ni : nativeImage) :
  markerAbsent ni = true -> exists e, image_fetchPkgs L ni = Err e.
Proof.
  destruct ni as [bi|bi|pe]; simpl.
  - unfold nativeImageElf_fetchPkgs.
    destruct (elf_Symbols bi) as [si|]; cbn [lift bind].
    + intros ->. now eexists.
    + intros _. now eexists.
  - unfold nativeImageMachO_fetchPkgs.
    destruct (macho_Symtab bi) as [syms|]; [|discriminate].
    intros ->. now eexists.
  - destruct (fetchExportContent pe) as [content0| |] eqn:H0; try discriminate.
    destruct (fetchSbomSymbols pe content0) as [content| |] eqn:H1;
      try discriminate.
    intros H2. eexists. now apply (fetchPkgs_PE_missing L pe content0 content).
Qed.

Lemma tryFormat_absent (L : Lib) (filename : string) (r : ReaderAt L)
  (pkgs : list (Package (CPE L)))
  (mk : string -> ReaderAt L -> outcome nativeImage) :
  In mk (imageformats L) ->
  (forall ni, mk filename r = Ok ni -> markerAbsent ni = true) ->
  tryFormat L filename r pkgs mk = Ok pkgs.
Proof.
  intros Hin Habs.
  destruct (mk filename r) as [ni|e|] eqn:Hmk.
  - destruct (markerAbsent_error L ni (Habs ni eq_refl)) as [e He].
    now apply (tryFormat_error_continues L filename r pkgs mk ni e).
  - now apply (tryFormat_declined L filename r pkgs mk e).
  - now destruct (probe_not_panic L filename r mk Hin).
Qed.

Lemma readers_absent (L : Lib) (filename : string) (readers : list (ReaderAt L))
  (pkgs : list (Package (CPE L))) :
  (forall r mk ni,
      In r readers -> In mk (imageformats L) -> mk filename r = Ok ni ->
      markerAbsent ni = true) ->
  fold_left (fun acc r => pkgs' <- acc ;; tryFormats L filename r pkgs')
    readers (Ok pkgs)
  = Ok pkgs.
Proof.
  induction readers as [|r readers IH]; intros Habs; [reflexivity|].
  cbn [fold_left bind].
  assert (Hr : tryFormats L filename r pkgs = Ok pkgs).
  { unfold tryFormats, imageformats. cbn [fold_left bind].
    rewrite (tryFormat_absent L filename r pkgs (newElf L));
      [|now left|intros ni; apply (Habs r); [now left|now left]].
    cbn [bind].
    rewrite (tryFormat_absent L filename r pkgs (newMachO L));
      [|right; now left|intros ni; apply (Habs r); [now left|right; now left]].
    cbn [bind].
    apply (tryFormat_absent L filename r pkgs (newPE L));
      [right; right; now left
      |intros ni; apply (Habs r); [now left|right; right; now left]]. }
  rewrite Hr. apply IH.
  intros r' mk ni Hin. apply Habs. now right.
Qed.

(** X12.  What the marker check does when it is reached.  A file every
    one of whose recognized images lacks a marker: for each reader of the
    file and each of the three probes that recognizes the container format
    of the reader, the marker check of the image finds one of the three
    markers at zero (not found, or of value zero).  The marker check of
    each such image returns an error, which the per-file [fetchPkgs] does
    not pass on: it returns the empty package list. *)
Lemma fetchPkgs_missing_marker_yields_nothing (L : Lib)
  (reader : UnionReader L) (filename : string) (readers : list (ReaderAt L)) :
  GetReaders L reader = Some readers ->
  (forall r mk ni,
      In r readers -> In mk (imageformats L) -> mk filename r = Ok ni ->
      markerAbsent ni = true) ->
  fetchPkgs L reader filename = Ok []
  /\ (forall r mk ni,
      In r readers -> In mk (imageformats L) -> mk filename r = Ok ni ->
      exists e, image_fetchPkgs L ni = Err e).
Proof.
  intros Hreaders Habs. split.
  - unfold fetchPkgs. rewrite Hreaders.
    now apply readers_absent.
  - intros r mk ni Hr Hmk Hni.
    apply markerAbsent_error. now apply (Habs r mk ni).
Qed.

Lemma fetchPkgs_missing_marker_example :
  fetchPkgs Fixture.testLib
    [Fixture.elfReader Fixture.twoMarkerElf; Fixture.peReader Fixture.sbomFirstPE]
    "universal"
  = Ok [].
Proof.
  refine (proj1 (fetchPkgs_missing_marker_yields_nothing Fixture.testLib
            [Fixture.elfReader Fixture.twoMarkerElf;
             Fixture.peReader Fixture.sbomFirstPE]
            "universal" _ eq_refl _)).
  intros r mk ni [<-|[<-|[]]] [<-|[<-|[<-|[]]]] H;
    vm_compute in H; try discriminate; injection H as <-; reflexivity.
Defined.

Lemma tryFormat_contribution (L : Lib) (filename : string) (r : ReaderAt L)
  (pkgs : list (Package (CPE L)))
  (mk : string -> ReaderAt L -> outcome nativeImage) :
  In mk (imageformats L) ->
  (forall ni, mk filename r = Ok ni -> image_fetchPkgs L ni <> Panic) ->
  tryFormat L filename r pkgs mk = Ok (pkgs ++ contribution L mk filename r).
Proof.
  intros Hin Hsafe. unfold tryFormat, contribution.
  destruct (mk filename r) as [ni|e|] eqn:Hmk.
  - destruct (image_fetchPkgs L ni) as [newpkgs|e|] eqn:Hni.
    + reflexivity.
    + now rewrite app_nil_r.
    + now destruct (Hsafe ni eq_refl).
  - now rewrite app_nil_r.
  - now destruct (probe_not_panic L filename r mk Hin).
Qed.




(** ** PE export walker: reads past the end of the buffer *)

(** C5, what fails.  The exports buffer of [truncatedPE] is 118 bytes
    long and announces five names; the entry of index 4 of its
    name-pointer array spans offsets 116 to 120, past the end of the
    buffer.  The walk reads the entries 0 to 3, stops at the entry 4
    without an error, and extraction goes on with the three markers found
    so far: the image yields its package, and no invalid-index error is
    reported. *)
Lemma name_walk_overrun_is_not_reported :
  let content :=
    {| numberOfFunctions := 4; numberOfNames := 5;
       addressOfFunctions := Fixture.exportsVA + 40;
       addressOfNames := Fixture.exportsVA + 100;
       addressOfSbom := 0; addressOfSbomLength := 0;
       addressOfSvmVersion := 0 |} in
  fetchExportContent Fixture.truncatedPE = Ok content
  /\ len (exports Fixture.truncatedPE)
     < nameEntry Fixture.truncatedPE content 4 + sizeof_uint32
  /\ nameEntriesRead Fixture.truncatedPE content = [100; 104; 108; 112]
  /\ fetchSbomSymbols Fixture.truncatedPE content
     = Ok {| numberOfFunctions := 4; numberOfNames := 5;
             addressOfFunctions := Fixture.exportsVA + 40;
             addressOfNames := Fixture.exportsVA + 100;
             addressOfSbom := 1; addressOfSbomLength := 2;
             addressOfSvmVersion := 3 |}
  /\ nativeImagePE_fetchPkgs Fixture.testLib Fixture.truncatedPE
     = Ok [Fixture.scenarioPackage]
  /\ nativeImagePE_fetchPkgs Fixture.testLib Fixture.truncatedPE
     <> invalidIndex.
Proof.
  cbv zeta. repeat split; try reflexivity.
  vm_compute. discriminate.
Qed.

Lemma fetchExportFunctionPointer_refuses (ni : nativeImagePE)
  (functionsBase i : Z) :
  u32 (functionsBase + u32 (i * sizeof_uint32)) + sizeof_uint32 < 2 ^ 32 ->
  len (exports ni)
  < u32 (functionsBase + u32 (i * sizeof_uint32)) + sizeof_uint32 ->
  fetchExportFunctionPointer ni functionsBase i = invalidIndex.
Proof.
  intros Hwrap Hpast. unfold fetchExportFunctionPointer.
  pose proof (u32_range (functionsBase + u32 (i * sizeof_uint32))) as Hj.
  pose proof (len_nonneg (exports ni)) as Hn.
  unfold sizeof_uint32 in *.
  rewrite (u32_small (u32 _ + 4)) by lia.
  rewrite (u32_small (len _)) by lia.
  destruct (Z.geb_spec (u32 (functionsBase + u32 (i * 4)) + 4)
              (len (exports ni))); [reflexivity|lia].
Qed.

Lemma fetchExportFunctionPointer_no_panic (ni : nativeImagePE)
  (functionsBase i : Z) :
  u32 (functionsBase + u32 (i * sizeof_uint32)) + sizeof_uint32 < 2 ^ 32 ->
  fetchExportFunctionPointer ni functionsBase i <> Panic.
Proof.
  intros Hwrap. unfold fetchExportFunctionPointer.
  pose proof (u32_range (functionsBase + u32 (i * sizeof_uint32))) as Hj.
  pose proof (len_nonneg (exports ni)) as Hn.
  pose proof (u32_le _ Hn) as Hle.
  unfold sizeof_uint32 in *.
  rewrite (u32_small (u32 _ + 4)) by lia.
  destruct (Z.geb_spec (u32 (functionsBase + u32 (i * 4)) + 4)
              (u32 (len (exports ni)))); [discriminate|].
  assert (Hs : exists p,
             slice (exports ni) (u32 (functionsBase + u32 (i * 4)))
               (u32 (functionsBase + u32 (i * 4)) + 4) = Ok p)
    by (eexists; apply slice_in_bounds; lia).
  destruct Hs as [p Hs]. rewrite Hs. cbn [bind].
  pose proof (slice_length _ _ _ _ Hs) as Hlen.
  rewrite binary_Read_exact by (unfold len in Hlen; lia).
  discriminate.
Qed.

Lemma walkName_refuses (ni : nativeImagePE) (content : exportContentPE) (i : Z) :
  nameEntry ni content i + sizeof_uint32 < 2 ^ 32 ->
  len (exports ni) < nameEntry ni content i + sizeof_uint32 ->
  walkName ni content i = ([], Return content).
Proof.
  intros Hwrap Hpast. unfold walkName.
  assert (Hk : 0 <= nameEntry ni content i) by (unfold nameEntry; apply u32_range).
  pose proof (len_nonneg (exports ni)) as Hn.
  unfold sizeof_uint32 in *.
  rewrite (u32_small (nameEntry ni content i + 4)) by lia.
  rewrite (u32_small (len _)) by lia.
  destruct (Z.geb_spec (nameEntry ni content i + 4) (len (exports ni)));
    [reflexivity|lia].
Qed.

Lemma walkName_no_crash (ni : nativeImagePE) (content : exportContentPE) (i : Z) :
  nameEntry ni content i + sizeof_uint32 < 2 ^ 32 ->
  snd (walkName ni content i) <> Crash.
Proof.
  intros Hwrap. unfold walkName.
  assert (Hk : 0 <= nameEntry ni content i) by (unfold nameEntry; apply u32_range).
  pose proof (len_nonneg (exports ni)) as Hn.
  pose proof (u32_le _ Hn) as Hle.
  unfold sizeof_uint32 in *.
  rewrite (u32_small (nameEntry ni content i + 4)) by lia.
  destruct (Z.geb_spec (nameEntry ni content i + 4) (u32 (len (exports ni))));
    [discriminate|].
  assert (Hs : exists p,
             slice (exports ni) (nameEntry ni content i)
               (nameEntry ni content i + 4) = Ok p)
    by (eexists; apply slice_in_bounds; lia).
  destruct Hs as [p Hs]. rewrite Hs.
  pose proof (slice_length _ _ _ _ Hs) as Hlen.
  rewrite binary_Read_exact by (unfold len in Hlen; lia).
  set (symbolBase := u32 (le_uint p - _)).
  destruct (Z.geb_spec symbolBase (u32 (len (exports ni)))); [discriminate|].
  assert (Hb : 0 <= symbolBase) by apply u32_range.
  unfold slice_from. rewrite slice_in_bounds by lia.
  discriminate.
Qed.

(** C5, amended.  In the PE export walk every indexed read follows a
    comparison of its end offset (its start offset, for a name string)
    with the length of the exports buffer; as long as the end offset stays
    below [2^32], no read leaves the buffer.  A header attribute or a
    function-pointer entry that would end past the buffer end is refused
    with the invalid-index error, and that error ends the extraction of
    the image: the image adds nothing to the package list and the
    detector goes on.  A name-pointer entry that would end past the buffer
    end, or a name string that would start at or past it, is not reported:
    the name walk stops there and keeps the content recorded so far. *)
Theorem pe_reads_past_buffer_end_are_refused :
  (forall (ni : nativeImagePE) (i : Z),
      len (exports ni) < sizeof_exportPrefixPE + i * sizeof_uint32 + 4 ->
      fetchExportAttribute ni i = invalidIndex)
  /\ (forall (ni : nativeImagePE) (i : Z),
      0 <= i -> fetchExportAttribute ni i <> Panic)
  /\ (forall (ni : nativeImagePE) (functionsBase i : Z),
      u32 (functionsBase + u32 (i * sizeof_uint32)) + sizeof_uint32 < 2 ^ 32 ->
      len (exports ni)
      < u32 (functionsBase + u32 (i * sizeof_uint32)) + sizeof_uint32 ->
      fetchExportFunctionPointer ni functionsBase i = invalidIndex)
  /\ (forall (ni : nativeImagePE) (functionsBase i : Z),
      u32 (functionsBase + u32 (i * sizeof_uint32)) + sizeof_uint32 < 2 ^ 32 ->
      fetchExportFunctionPointer ni functionsBase i <> Panic)
  /\ (forall (ni : nativeImagePE) (content : exportContentPE) (i : Z)
        (trips : nat),
      nameEntry ni content i + sizeof_uint32 < 2 ^ 32 ->
      len (exports ni) < nameEntry ni content i + sizeof_uint32 ->
      walkName ni content i = ([], Return content)
      /\ walkNames ni (S trips) i content = ([], Ok content))
  /\ (forall (ni : nativeImagePE) (content : exportContentPE) (i : Z),
      nameEntry ni content i + sizeof_uint32 < 2 ^ 32 ->
      snd (walkName ni content i) <> Crash)
  /\ (forall (ni : nativeImagePE) (content : exportContentPE) (i : Z)
        (p : list byte) (symbolAddress : Z),
      u32 (nameEntry ni content i + sizeof_uint32) < u32 (len (exports ni)) ->
      slice (exports ni) (nameEntry ni content i)
        (u32 (nameEntry ni content i + sizeof_uint32)) = Ok p ->
      binary_Read 4 p = Ok symbolAddress ->
      len (exports ni)
      <= u32 (symbolAddress - dd_VirtualAddress (exportSymbols ni)) ->
      walkName ni content i = ([nameEntry ni content i], Return content))
  /\ (forall (L : Lib) (ni : nativeImagePE),
      len (exports ni) <= 36 ->
      nativeImagePE_fetchPkgs L ni = invalidIndex)
  /\ (forall (L : Lib) (ni : nativeImagePE) (content0 content : exportContentPE),
      fetchExportContent ni = Ok content0 ->
      fetchSbomSymbols ni content0 = Ok content ->
      indexMissing content = false ->
      fetchExportFunctionPointer ni
        (u32 (addressOfFunctions content
              - dd_VirtualAddress (exportSymbols ni)))
        (addressOfSbom content) = invalidIndex
      \/ (exists sbomAddress,
             fetchExportFunctionPointer ni
               (u32 (addressOfFunctions content
                     - dd_VirtualAddress (exportSymbols ni)))
               (addressOfSbom content) = Ok sbomAddress
             /\ fetchExportFunctionPointer ni
                  (u32 (addressOfFunctions content
                        - dd_VirtualAddress (exportSymbols ni)))
                  (addressOfSbomLength content) = invalidIndex) ->
      nativeImagePE_fetchPkgs L ni = invalidIndex)
  /\ (forall (L : Lib) (filename : string) (r : ReaderAt L)
        (pkgs : list (Package (CPE L)))
        (mk : string -> ReaderAt L -> outcome nativeImage)
        (ni : nativeImagePE),
      mk filename r = Ok (ImagePE ni) ->
      nativeImagePE_fetchPkgs L ni = invalidIndex ->
      tryFormat L filename r pkgs mk = Ok pkgs).
Proof.
  repeat match goal with |- _ /\ _ => split end.
  - intros ni i Hpast. unfold fetchExportAttribute.
    destruct (Z.geb_spec (sizeof_exportPrefixPE + i * sizeof_uint32 + 4)
                (len (exports ni))); [reflexivity|lia].
  - intros ni i Hi.
    destruct (fetchExportAttribute_cases ni i Hi) as [[v ->]| ->]; discriminate.
  - apply fetchExportFunctionPointer_refuses.
  - apply fetchExportFunctionPointer_no_panic.
  - intros ni content i trips Hwrap Hpast.
    pose proof (walkName_refuses ni content i Hwrap Hpast) as Hstep.
    split; [exact Hstep|]. simpl. now rewrite Hstep.
  - apply walkName_no_crash.
  - intros ni content i p symbolAddress Hin Hp Hread Hstart.
    unfold walkName.
    destruct (Z.geb_spec (u32 (nameEntry ni content i + sizeof_uint32))
                (u32 (len (exports ni)))); [lia|].
    rewrite Hp, Hread.
    pose proof (u32_le _ (len_nonneg (exports ni))).
    destruct (Z.geb_spec
                (u32 (symbolAddress - dd_VirtualAddress (exportSymbols ni)))
                (u32 (len (exports ni)))); [reflexivity|lia].
  - intros L ni Hshort. unfold nativeImagePE_fetchPkgs.
    now rewrite (fetchExportContent_short ni Hshort).
  - intros L ni content0 content H0 H1 H2 Hfp.
    unfold nativeImagePE_fetchPkgs.
    rewrite H0. cbn [bind]. rewrite H1. cbn [bind]. rewrite H2.
    destruct Hfp as [-> | (sbomAddress & -> & ->)]; reflexivity.
  - intros L filename r pkgs mk ni Hmk Hni.
    now apply (tryFormat_error_continues L filename r pkgs mk (ImagePE ni)
                 (errors_New nativeImageInvalidIndexError)).
Qed.

Lemma pe_reads_past_buffer_end_are_refused_witness :
  fetchExportAttribute Fixture.shortHeaderPE 3 = invalidIndex
  /\ fetchExportFunctionPointer Fixture.lastEntryPE 36 2 = invalidIndex
  /\ walkName Fixture.truncatedPE
       {| numberOfFunctions := 4; numberOfNames := 5;
          addressOfFunctions := Fixture.exportsVA + 40;
          addressOfNames := Fixture.exportsVA + 100;
          addressOfSbom := 1; addressOfSbomLength := 2;
          addressOfSvmVersion := 3 |} 4
     = ([], Return
              {| numberOfFunctions := 4; numberOfNames := 5;
                 addressOfFunctions := Fixture.exportsVA + 40;
                 addressOfNames := Fixture.exportsVA + 100;
                 addressOfSbom := 1; addressOfSbomLength := 2;
                 addressOfSvmVersion := 3 |})
  /\ nativeImagePE_fetchPkgs Fixture.testLib Fixture.shortHeaderPE = invalidIndex
  /\ tryFormat Fixture.testLib "app.exe" (Fixture.peReader Fixture.shortHeaderPE)
       [Fixture.scenarioPackage] (newPE Fixture.testLib)
     = Ok [Fixture.scenarioPackage].
Proof.
  destruct pe_reads_past_buffer_end_are_refused
    as (Ha & _ & Hf & _ & Hw & _ & _ & Hshort & _ & Htry).
  split; [|split; [|split; [|split]]].
  - apply (Ha Fixture.shortHeaderPE 3). reflexivity.
  - apply (Hf Fixture.lastEntryPE 36 2); reflexivity.
  - apply (Hw Fixture.truncatedPE _ 4 0%nat); reflexivity.
  - apply (Hshort Fixture.testLib Fixture.shortHeaderPE). discriminate.
  - apply (Htry Fixture.testLib "app.exe"%string
             (Fixture.peReader Fixture.shortHeaderPE) _ _ Fixture.shortHeaderPE).
    + reflexivity.
    + apply (Hshort Fixture.testLib Fixture.shortHeaderPE). discriminate.
Defined.

(** ** The concrete ELF scenario *)

Lemma slice_Ok_bounds {A : Type} (s : list A) (lo hi : Z) (p : list A) :
  slice s lo hi = Ok p -> 0 <= lo /\ lo <= hi /\ hi <= len s.
Proof.
  unfold slice.
  destruct (Z.leb_spec 0 lo); [|discriminate].
  destruct (Z.leb_spec lo hi); [|discriminate].
  destruct (Z.leb_spec hi (len s)); [|discriminate].
  intros _. lia.
Qed.




(** ** PE export walker: a marker at index 0 *)

Lemma recordMarker_addressOfNames (name : list byte) (j : Z)
  (content : exportContentPE) :
  addressOfNames (recordMarker name j content) = addressOfNames content.
Proof.
  unfold recordMarker.
  destruct (bytes_HasPrefix name sbomBytes); [reflexivity|].
  destruct (bytes_HasPrefix name sbomLengthBytes); [reflexivity|].
  destruct (bytes_HasPrefix name svmVersionInfoBytes); reflexivity.
Qed.

Lemma recordMarker_zero (m : marker) (name : list byte)
  (content : exportContentPE) :
  recordedIndex m content = 0 ->
  recordedIndex m (recordMarker name 0 content) = 0.
Proof.
  intros H. unfold recordMarker.
  destruct (bytes_HasPrefix name sbomBytes);
    [destruct m; simpl in *; congruence|].
  destruct (bytes_HasPrefix name sbomLengthBytes);
    [destruct m; simpl in *; congruence|].
  destruct (bytes_HasPrefix name svmVersionInfoBytes);
    destruct m; simpl in *; congruence.
Qed.

Lemma recordMarker_other (m : marker) (name : list byte) (i : Z)
  (content : exportContentPE) :
  bytes_HasPrefix name (markerBytes m) = false ->
  recordedIndex m (recordMarker name i content) = recordedIndex m content.
Proof.
  intros H. unfold recordMarker.
  destruct (bytes_HasPrefix name sbomBytes) eqn:E1;
    [destruct m; simpl in *; congruence|].
  destruct (bytes_HasPrefix name sbomLengthBytes) eqn:E2;
    [destruct m; simpl in *; congruence|].
  destruct (bytes_HasPrefix name svmVersionInfoBytes) eqn:E3;
    destruct m; simpl in *; congruence.
Qed.

(** The walk depends on the content through [addressOfNames] only. *)
Lemma walkName_same_names (ni : nativeImagePE) (c c' : exportContentPE) (i : Z) :
  addressOfNames c' = addressOfNames c ->
  fst (walkName ni c' i) = fst (walkName ni c i)
  /\ (snd (walkName ni c' i) = Crash <-> snd (walkName ni c i) = Crash)
  /\ (forall m, entryNames ni c' i m = entryNames ni c i m).
Proof.
  intros Hsame.
  assert (Hk : nameEntry ni c' i = nameEntry ni c i)
    by (unfold nameEntry; now rewrite Hsame).
  unfold entryNames, walkName. rewrite Hk.
  destruct (u32 (nameEntry ni c i + sizeof_uint32) >=? u32 (len (exports ni)));
    [simpl; intuition discriminate|].
  destruct (slice (exports ni) (nameEntry ni c i)
              (u32 (nameEntry ni c i + sizeof_uint32))) as [p| |];
    [|simpl; intuition|simpl; intuition].
  destruct (binary_Read 4 p) as [symbolAddress| |];
    [|simpl; intuition discriminate|simpl; intuition discriminate].
  destruct (u32 (symbolAddress - dd_VirtualAddress (exportSymbols ni))
            >=? u32 (len (exports ni)));
    [simpl; intuition discriminate|].
  destruct (slice_from (exports ni)
              (u32 (symbolAddress - dd_VirtualAddress (exportSymbols ni))));
    simpl; intuition discriminate.
Qed.

(** A pass that goes on to the next index has compared a name. *)
Lemma walkName_Next (ni : nativeImagePE) (c c' : exportContentPE) (i : Z)
  (reads : list Z) :
  walkName ni c i = (reads, Next c') ->
  exists name,
    c' = recordMarker name i c
    /\ forall m, entryNames ni c i m = bytes_HasPrefix name (markerBytes m).
Proof.
  unfold entryNames. intros H. rewrite H. revert H. unfold walkName.
  destruct (u32 (nameEntry ni c i + sizeof_uint32) >=? u32 (len (exports ni)));
    [discriminate|].
  destruct (slice (exports ni) (nameEntry ni c i)
              (u32 (nameEntry ni c i + sizeof_uint32))) as [p| |];
    [|discriminate|discriminate].
  destruct (binary_Read 4 p) as [symbolAddress| |];
    [|discriminate|discriminate].
  destruct (u32 (symbolAddress - dd_VirtualAddress (exportSymbols ni))
            >=? u32 (len (exports ni)));
    [discriminate|].
  destruct (slice_from (exports ni)
              (u32 (symbolAddress - dd_VirtualAddress (exportSymbols ni))))
    as [name| |]; [|discriminate|discriminate].
  intros H. injection H as _ <-. now exists name.
Qed.

Lemma walkName_Return (ni : nativeImagePE) (c c' : exportContentPE) (i : Z)
  (reads : list Z) :
  walkName ni c i = (reads, Return c') -> c' = c.
Proof.
  unfold walkName.
  destruct (u32 (nameEntry ni c i + sizeof_uint32) >=? u32 (len (exports ni)));
    [intros H; now injection H|].
  destruct (slice (exports ni) (nameEntry ni c i)
              (u32 (nameEntry ni c i + sizeof_uint32))) as [p| |];
    [|discriminate|discriminate].
  destruct (binary_Read 4 p) as [symbolAddress| |];
    [|intros H; now injection H|intros H; now injection H].
  destruct (u32 (symbolAddress - dd_VirtualAddress (exportSymbols ni))
            >=? u32 (len (exports ni)));
    [intros H; now injection H|].
  destruct (slice_from (exports ni)
              (u32 (symbolAddress - dd_VirtualAddress (exportSymbols ni))));
    discriminate.
Qed.

(** The loop invariant: a marker whose index is zero, and which no entry
    of index other than 0 names, still has index zero when the walk
    returns. *)
Lemma walkNames_keeps_zero (ni : nativeImagePE) (m : marker)
  (names : exportContentPE) (trips : nat) :
  forall (i : Z) (content result : exportContentPE),
    0 <= i -> i + Z.of_nat trips < 2 ^ 32 ->
    addressOfNames content = addressOfNames names ->
    recordedIndex m content = 0 ->
    (forall i', i <= i' < i + Z.of_nat trips ->
                i' = 0 \/ entryNames ni names i' m = false) ->
    snd (walkNames ni trips i content) = Ok result ->
    recordedIndex m result = 0.
Proof.
  induction trips as [|trips IH];
    intros i content result Hi Hmax Hsame Hzero Hothers Hwalk.
  - simpl in Hwalk. now injection Hwalk as <-.
  - cbn [walkNames] in Hwalk.
    destruct (walkName ni content i) as [reads [content'|content'|]] eqn:Hstep.
    + destruct (walkNames ni trips (u32 (i + 1)) content') as [reads' r] eqn:Hrest.
      simpl in Hwalk. subst r.
      destruct (walkName_Next ni content content' i reads Hstep)
        as (name & -> & Hnames).
      rewrite u32_small in Hrest by lia.
      apply (IH (i + 1) (recordMarker name i content) result); try lia.
      * now rewrite recordMarker_addressOfNames.
      * destruct (Hothers i ltac:(lia)) as [-> | Hno].
        -- now apply recordMarker_zero.
        -- rewrite recordMarker_other; [assumption|].
           rewrite <- Hnames.
           destruct (walkName_same_names ni names content i Hsame)
             as (_ & _ & Heq).
           now rewrite Heq.
      * intros i' Hi'. apply Hothers. lia.
      * now rewrite Hrest.
    + simpl in Hwalk. injection Hwalk as <-.
      now rewrite (walkName_Return ni content content' i reads Hstep).
    + discriminate.
Qed.

(** C10, what fails.  In [dupSbomPE] the entry of index 0 of the
    name-pointer array names [sbom], and so does the entry of index 1.
    The walk records index 1 for [sbom], the marker check passes, and the
    image yields its package. *)
Lemma marker_at_index_zero_found_again :
  let content0 :=
    {| numberOfFunctions := 4; numberOfNames := 4;
       addressOfFunctions := Fixture.exportsVA + 40;
       addressOfNames := Fixture.exportsVA + 56;
       addressOfSbom := 0; addressOfSbomLength := 0;
       addressOfSvmVersion := 0 |} in
  fetchExportContent Fixture.dupSbomPE = Ok content0
  /\ entryNames Fixture.dupSbomPE content0 0 MarkerSbom = true
  /\ fetchSbomSymbols Fixture.dupSbomPE content0
     = Ok {| numberOfFunctions := 4; numberOfNames := 4;
             addressOfFunctions := Fixture.exportsVA + 40;
             addressOfNames := Fixture.exportsVA + 56;
             addressOfSbom := 1; addressOfSbomLength := 2;
             addressOfSvmVersion := 3 |}
  /\ nativeImagePE_fetchPkgs Fixture.testLib Fixture.dupSbomPE
     = Ok [Fixture.scenarioPackage]
  /\ nativeImagePE_fetchPkgs Fixture.testLib Fixture.dupSbomPE
     <> missingSymbols.
Proof.
  cbv zeta. repeat split; try reflexivity.
  vm_compute. discriminate.
Qed.

(** C10, amended.  The PE pathway records a found marker as the index of
    its entry in the name-pointer array and reads a recorded zero as
    absent.  For a PE image whose name walk returns, and in which one of
    the three marker names occupies the entry of index 0 of the
    name-pointer array and no entry of a higher index below
    [numberOfNames]: the recorded index of that marker is zero, the marker
    check takes it for missing, extraction returns the missing-symbols
    error and the image yields no package, although the marker is
    there. *)
Theorem pe_marker_at_index_zero_is_missing (L : Lib) (ni : nativeImagePE)
  (content0 content : exportContentPE) (m : marker) :
  fetchExportContent ni = Ok content0 ->
  0 < numberOfNames content0 ->
  entryNames ni content0 0 m = true ->
  (forall i, 0 < i < numberOfNames content0 ->
             entryNames ni content0 i m = false) ->
  fetchSbomSymbols ni content0 = Ok content ->
  recordedIndex m content = 0
  /\ indexMissing content = true
  /\ nativeImagePE_fetchPkgs L ni = missingSymbols
  /\ (forall (filename : string) (r : ReaderAt L)
        (pkgs : list (Package (CPE L)))
        (mk : string -> ReaderAt L -> outcome nativeImage),
        mk filename r = Ok (ImagePE ni) ->
        tryFormat L filename r pkgs mk = Ok pkgs).
Proof.
  intros Hc Hsome Hfirst Hothers Hwalk.
  destruct (fetchExportContent_initial ni content0 Hc)
    as (_ & Hrange & Hs & Hl & Hv).
  assert (Hzero : recordedIndex m content = 0).
  { apply (walkNames_keeps_zero ni m content0
             (Z.to_nat (numberOfNames content0)) 0 content0 content);
      try lia; try reflexivity.
    - destruct m; assumption.
    - intros i' Hi'. destruct (Z.eq_dec i' 0) as [->|Hne]; [now left|right].
      apply Hothers. lia.
    - exact Hwalk. }
  assert (Hmissing : indexMissing content = true).
  { unfold indexMissing. destruct m; simpl in Hzero; rewrite Hzero;
      simpl; now rewrite ?orb_true_r. }
  assert (Hpkgs : nativeImagePE_fetchPkgs L ni = missingSymbols)
    by now apply (fetchPkgs_PE_missing L ni content0 content).
  repeat split; try assumption.
  intros filename r pkgs mk Hmk.
  now apply (tryFormat_error_continues L filename r pkgs mk (ImagePE ni)
               (errors_New nativeImageMissingSymbolsError)).
Qed.

Lemma pe_marker_at_index_zero_is_missing_witness :
  entryNames Fixture.sbomFirstPE
    {| numberOfFunctions := 4; numberOfNames := 4;
       addressOfFunctions := Fixture.exportsVA + 40;
       addressOfNames := Fixture.exportsVA + 56;
       addressOfSbom := 0; addressOfSbomLength := 0;
       addressOfSvmVersion := 0 |} 0 MarkerSbom = true
  /\ nativeImagePE_fetchPkgs Fixture.testLib Fixture.sbomFirstPE
     = missingSymbols.
Proof.
  split; [reflexivity|].
  refine (proj1 (proj2 (proj2
    (pe_marker_at_index_zero_is_missing Fixture.testLib Fixture.sbomFirstPE
       {| numberOfFunctions := 4; numberOfNames := 4;
          addressOfFunctions := Fixture.exportsVA + 40;
          addressOfNames := Fixture.exportsVA + 56;
          addressOfSbom := 0; addressOfSbomLength := 0;
          addressOfSvmVersion := 0 |}
       {| numberOfFunctions := 4; numberOfNames := 4;
          addressOfFunctions := Fixture.exportsVA + 40;
          addressOfNames := Fixture.exportsVA + 56;
          addressOfSbom := 0; addressOfSbomLength := 1;
          addressOfSvmVersion := 2 |}
       MarkerSbom eq_refl eq_refl eq_refl _ eq_refl)))).
  intros i Hi. simpl in Hi.
  assert (Hcases : i = 1 \/ i = 2 \/ i = 3) by lia.
  destruct Hcases as [->|[->| ->]]; reflexivity.
Defined.

(** ** When the name walk returns *)

Lemma nameEntry_succ (ni : nativeImagePE) (content : exportContentPE) (i : Z) :
  nameEntry ni content (i + 1) = u32 (nameEntry ni content i + sizeof_uint32).
Proof.
  unfold nameEntry, u32, sizeof_uint32.
  set (a := (addressOfNames content - dd_VirtualAddress (exportSymbols ni))
            mod 2 ^ 32).
  rewrite Z.add_mod_idemp_l by lia.
  rewrite (Z.add_mod_idemp_r a ((i + 1) * 4)) by lia.
  replace (a + (i * 4) mod 2 ^ 32 + 4) with (a + 4 + (i * 4) mod 2 ^ 32) by lia.
  rewrite Z.add_mod_idemp_r by lia.
  f_equal. lia.
Qed.

Lemma walkName_Next_checked (ni : nativeImagePE) (c c' : exportContentPE)
  (i : Z) (reads : list Z) :
  walkName ni c i = (reads, Next c') ->
  u32 (nameEntry ni c i + sizeof_uint32) < u32 (len (exports ni))
  /\ nameEntry ni c i <= u32 (nameEntry ni c i + sizeof_uint32).
Proof.
  unfold walkName.
  destruct (Z.geb_spec (u32 (nameEntry ni c i + sizeof_uint32))
              (u32 (len (exports ni)))); [discriminate|].
  destruct (slice (exports ni) (nameEntry ni c i)
              (u32 (nameEntry ni c i + sizeof_uint32))) as [p| |] eqn:Hs;
    [|discriminate|discriminate].
  intros _. apply slice_Ok_bounds in Hs. lia.
Qed.

(** On an exports buffer of at most [2^32 - 4] bytes, a walk whose first
    entry does not wrap around [2^32] returns: every later entry either
    lies in the buffer or stops the walk. *)
Lemma walkNames_returns (ni : nativeImagePE) (trips : nat) :
  forall (i : Z) (content : exportContentPE),
    0 <= i -> i + Z.of_nat trips < 2 ^ 32 ->
    len (exports ni) <= 2 ^ 32 - 4 ->
    nameEntry ni content i + sizeof_uint32 < 2 ^ 32 ->
    snd (walkNames ni trips i content) <> Panic.
Proof.
  induction trips as [|trips IH]; intros i content Hi Hmax Hlen Hwrap.
  - discriminate.
  - cbn [walkNames].
    pose proof (walkName_no_crash ni content i Hwrap) as Hsafe.
    destruct (walkName ni content i) as [reads [content'|content'|]] eqn:Hstep.
    + destruct (walkName_Next_checked ni content content' i reads Hstep)
        as (Hchecked & _).
      destruct (walkName_Next ni content content' i reads Hstep)
        as (name & -> & _).
      rewrite u32_small by lia.
      assert (Hk : 0 <= nameEntry ni content i)
        by (unfold nameEntry; apply u32_range).
      pose proof (u32_le _ (len_nonneg (exports ni))) as Hn.
      unfold sizeof_uint32 in *.
      rewrite (u32_small (nameEntry ni content i + 4)) in Hchecked by lia.
      specialize (IH (i + 1) (recordMarker name i content)).
      destruct (walkNames ni trips (i + 1) (recordMarker name i content))
        as [reads' r]. simpl. apply IH; try lia.
      assert (Hsame : nameEntry ni (recordMarker name i content) (i + 1)
                      = nameEntry ni content (i + 1)).
      { unfold nameEntry. now rewrite recordMarker_addressOfNames. }
      rewrite Hsame, nameEntry_succ. unfold sizeof_uint32.
      rewrite u32_small by lia. lia.
    + discriminate.
    + now destruct Hsafe.
Qed.

(** An entry that names a marker has been read without wrap-around. *)
Lemma entryNames_no_wrap (ni : nativeImagePE) (content : exportContentPE)
  (i : Z) (m : marker) :
  entryNames ni content i m = true ->
  nameEntry ni content i + sizeof_uint32 < 2 ^ 32.
Proof.
  unfold entryNames.
  destruct (walkName ni content i) as [reads [content'|content'|]] eqn:Hstep;
    try discriminate.
  intros _.
  destruct (walkName_Next_checked ni content content' i reads Hstep)
    as (Hchecked & Hordered).
  assert (Hk : 0 <= nameEntry ni content i < 2 ^ 32)
    by (unfold nameEntry; apply u32_range).
  destruct (Z.lt_ge_cases (nameEntry ni content i + sizeof_uint32) (2 ^ 32))
    as [Hlt|Hge]; [assumption|exfalso].
  assert (E : u32 (nameEntry ni content i + sizeof_uint32)
              = nameEntry ni content i + sizeof_uint32 - 2 ^ 32).
  { unfold u32, sizeof_uint32 in *. symmetry.
    apply (Z.mod_unique _ _ 1); lia. }
  unfold sizeof_uint32 in *. lia.
Qed.

(** The walk of an image that holds a marker at index 0 returns, when the
    exports buffer has at most [2^32 - 4] bytes. *)
Lemma fetchSbomSymbols_returns (ni : nativeImagePE) (content0 : exportContentPE)
  (m : marker) :
  fetchExportContent ni = Ok content0 ->
  len (exports ni) <= 2 ^ 32 - 4 ->
  entryNames ni content0 0 m = true ->
  exists content, fetchSbomSymbols ni content0 = Ok content.
Proof.
  intros Hc Hlen Hfirst.
  destruct (fetchExportContent_initial ni content0 Hc) as (_ & Hrange & _).
  pose proof (walkNames_returns ni (Z.to_nat (numberOfNames content0)) 0
                content0 ltac:(lia) ltac:(lia) Hlen
                (entryNames_no_wrap ni content0 0 m Hfirst)) as Hsafe.
  unfold fetchSbomSymbols.
  assert (Hne : forall trips i c e, snd (walkNames ni trips i c) <> Err e).
  { induction trips as [|trips IH]; intros i c e; [discriminate|].
    cbn [walkNames].
    destruct (walkName ni c i) as [reads [c'|c'|]]; try discriminate.
    specialize (IH (u32 (i + 1)) c' e).
    destruct (walkNames ni trips (u32 (i + 1)) c') as [reads' r]. exact IH. }
  destruct (snd (walkNames ni (Z.to_nat (numberOfNames content0)) 0 content0))
    as [content|e|] eqn:Hwalk.
  - now exists content.
  - now destruct (Hne _ _ _ _ Hwalk).
  - now destruct Hsafe.
Qed.

(** ** What the scan does with returned errors *)

Lemma tryFormat_not_err (L : Lib) (filename : string) (r : ReaderAt L)
  (pkgs : list (Package (CPE L)))
  (mk : string -> ReaderAt L -> outcome nativeImage) (e : error) :
  tryFormat L filename r pkgs mk <> Err e.
Proof.
  unfold tryFormat. destruct (mk filename r) as [ni| |]; try discriminate.
  destruct (image_fetchPkgs L ni); discriminate.
Qed.

Lemma tryFormats_not_err (L : Lib) (filename : string) (r : ReaderAt L)
  (pkgs : list (Package (CPE L))) (e : error) :
  tryFormats L filename r pkgs <> Err e.
Proof.
  unfold tryFormats, imageformats. cbn [fold_left bind].
  destruct (tryFormat L filename r pkgs (newElf L)) as [p1|e1|] eqn:H1;
    [|now destruct (tryFormat_not_err L filename r pkgs (newElf L) e1)
     |discriminate].
  cbn [bind].
  destruct (tryFormat L filename r p1 (newMachO L)) as [p2|e2|] eqn:H2;
    [|now destruct (tryFormat_not_err L filename r p1 (newMachO L) e2)
     |discriminate].
  cbn [bind]. apply tryFormat_not_err.
Qed.

(** The per-file [fetchPkgs] never returns an error: it returns a package
    list unless an extraction panics. *)
Lemma fetchPkgs_not_err (L : Lib) (reader : UnionReader L) (filename : string)
  (e : error) :
  fetchPkgs L reader filename <> Err e.
Proof.
  unfold fetchPkgs. destruct (GetReaders L reader) as [readers|]; [|discriminate].
  assert (H : forall acc,
             acc <> Err e ->
             fold_left (fun acc r => pkgs <- acc ;; tryFormats L filename r pkgs)
               readers acc <> Err e).
  { induction readers as [|r readers IH]; intros acc Hacc; [exact Hacc|].
    cbn [fold_left]. apply IH.
    destruct acc as [pkgs|e'|]; cbn [bind]; try assumption.
    apply tryFormats_not_err. }
  apply H. discriminate.
Qed.

Lemma scan_returns (L : Lib) (resolver : FileResolver L) (files : list string) :
  (forall location readerCloser,
      In location files ->
      FileContentsByLocation L resolver location = Some readerCloser ->
      exists reader,
        GetUnionReader L readerCloser = Some reader
        /\ fetchPkgs L reader location <> Panic) ->
  forall pkgs,
  exists pkgs',
    fold_left
      (fun acc location =>
         pkgs <- acc ;;
         match FileContentsByLocation L resolver location with
         | None => Ok pkgs
         | Some readerCloser =>
           reader <- lift "unionreader.GetUnionReader"
                       (GetUnionReader L readerCloser) ;;
           newpkgs <- fetchPkgs L reader location ;;
           Ok (pkgs ++ newpkgs)
         end)
      files (Ok pkgs)
    = Ok pkgs'.
Proof.
  induction files as [|location files IH]; intros Hsafe pkgs.
  - now exists pkgs.
  - cbn [fold_left bind].
    assert (Hrest : forall loc rc,
               In loc files ->
               FileContentsByLocation L resolver loc = Some rc ->
               exists reader,
                 GetUnionReader L rc = Some reader
                 /\ fetchPkgs L reader loc <> Panic).
    { intros loc rc Hin. apply Hsafe. now right. }
    destruct (FileContentsByLocation L resolver location) as [rc|] eqn:Hrc.
    + destruct (Hsafe location rc (or_introl eq_refl) Hrc)
        as (reader & Hreader & Hnopanic).
      rewrite Hreader. cbn [lift bind].
      destruct (fetchPkgs L reader location) as [newpkgs|e|] eqn:Hpkgs.
      * cbn [bind]. now apply IH.
      * now destruct (fetchPkgs_not_err L reader location e).
      * now destruct Hnopanic.
    + now apply IH.
Qed.

(** A scan in which every file can be opened and no extraction panics
    returns a package list: the errors of the images do not end it. *)
Lemma Catalog_returns_without_panic (L : Lib) (resolver : FileResolver L)
  (fileMatches : list string) :
  FilesByMIMEType L resolver = Some fileMatches ->
  (forall location readerCloser,
      In location fileMatches ->
      FileContentsByLocation L resolver location = Some readerCloser ->
      exists reader,
        GetUnionReader L readerCloser = Some reader
        /\ fetchPkgs L reader location <> Panic) ->
  exists pkgs, Catalog L resolver = Ok pkgs.
Proof.
  intros Hfiles Hsafe. unfold Catalog. rewrite Hfiles.
  now apply scan_returns.
Qed.

(** * Path filters *)


Lemma AnyGlobMatches_iff (PathMatch : string -> string -> option bool)
  (patterns : list string) (path : string) :
  AnyGlobMatches PathMatch patterns path = true
  <-> exists p, In p patterns /\ PathMatch p path = Some true.
Proof.
  induction patterns as [|q rest IH]; simpl.
  - split; [discriminate|intros (p & [] & _)].
  - destruct (PathMatch q path) as [[|]|] eqn:Hq.
    + split; [intros _; exists q; auto|reflexivity].
    + rewrite IH. split.
      * intros (p & Hin & Hp). exists p. auto.
      * intros (p & [<-|Hin] & Hp); [congruence|exists p; auto].
    + rewrite IH. split.
      * intros (p & Hin & Hp). exists p. auto.
      * intros (p & [<-|Hin] & Hp); [congruence|exists p; auto].
Qed.

Lemma tableLookup_In (table : GlobTable) (k : string) (v : list string) :
  NoDup (map fst table) -> In (k, v) table -> tableLookup table k = v.
Proof.
  unfold tableLookup. induction table as [|[k' v'] table IH]; intros Hnd Hin.
  - destruct Hin.
  - simpl in *. inversion Hnd as [|? ? Hnotin Hnd']; subst.
    destruct Hin as [E|Hin].
    + injection E as -> ->. now rewrite String.eqb_refl.
    + destruct (String.eqb_spec k' k) as [->|Hne].
      * exfalso. apply Hnotin. apply (in_map fst) in Hin. exact Hin.
      * now apply IH.
Qed.

Lemma appendSelected_In (table order : GlobTable) (c : string)
  (patterns : list string) (p : string) :
  In p (appendSelected table order c patterns)
  <-> In p patterns
      \/ exists kv, In kv order /\ strings_Contains (fst kv) c = true
                    /\ In p (tableLookup table (fst kv)).
Proof.
  unfold appendSelected. revert patterns.
  induction order as [|kv order IH]; intros patterns; simpl.
  - split; [auto|intros [H|(kv & [] & _)]; exact H].
  - rewrite IH. destruct (strings_Contains (fst kv) c) eqn:Hc.
    + rewrite in_app_iff. split.
      * intros [[H|H]|(kv' & Hin & Hc' & Hp)]; auto.
        -- right. exists kv. auto.
        -- right. exists kv'. auto.
      * intros [H|(kv' & [<-|Hin] & Hc' & Hp)]; auto.
        right. exists kv'. auto.
    + split.
      * intros [H|(kv' & Hin & Hc' & Hp)]; auto.
        right. exists kv'. auto.
      * intros [H|(kv' & [<-|Hin] & Hc' & Hp)]; auto; [congruence|].
        right. exists kv'. auto.
Qed.

Lemma selectLoop_In (table : GlobTable) (orders : nat -> GlobTable)
  (catalogers : list string) :
  NoDup (map fst table) ->
  (forall n, Permutation (orders n) table) ->
  forall (n : nat) (patterns : list string) (p : string),
    In p (selectLoop table orders n catalogers patterns)
    <-> In p patterns
        \/ exists c k v,
            In c catalogers /\ In (k, v) table
            /\ strings_Contains k c = true /\ In p v.
Proof.
  intros Hnd Hperm.
  induction catalogers as [|c rest IH]; intros n patterns p; simpl.
  - split; [auto|intros [H|(c & k & v & [] & _)]; exact H].
  - rewrite IH, appendSelected_In. split.
    + intros [[H|(kv & Hin & Hc & Hp)]|(c' & k & v & Hin & Hrest)]; auto.
      * right. destruct kv as [k v]. simpl in *.
        assert (Htab : In (k, v) table)
          by (apply (Permutation_in _ (Hperm n)); exact Hin).
        rewrite (tableLookup_In table k v Hnd Htab) in Hp.
        exists c, k, v. auto.
      * right. exists c', k, v. tauto.
    + intros [H|(c' & k & v & [<-|Hin] & Htab & Hc & Hp)]; auto.
      * left. right. exists (k, v). simpl.
        rewrite (tableLookup_In table k v Hnd Htab).
        split; [|auto].
        apply (Permutation_in _ (Permutation_sym (Hperm n))). exact Htab.
      * right. exists c', k, v. auto.
Qed.

Lemma fold_values_In (order : GlobTable) (patterns : list string) (p : string) :
  In p (fold_left (fun pats kv => pats ++ snd kv) order patterns)
  <-> In p patterns \/ exists k v, In (k, v) order /\ In p v.
Proof.
  revert patterns. induction order as [|[k v] order IH]; intros patterns; simpl.
  - split; [auto|intros [H|(k & v & [] & _)]; exact H].
  - rewrite IH, in_app_iff. split.
    + intros [[H|H]|(k' & v' & Hin & Hp)]; auto.
      * right. exists k, v. auto.
      * right. exists k', v'. auto.
    + intros [H|(k' & v' & [E|Hin] & Hp)]; auto.
      * injection E as <- <-. auto.
      * right. exists k', v'. auto.
Qed.

Lemma globPatterns_In (osIdPaths : list string) (table : GlobTable)
  (orders : nat -> GlobTable) (catalogers : list string) (p : string) :
  NoDup (map fst table) ->
  (forall n, Permutation (orders n) table) ->
  In p (globPatterns osIdPaths table orders catalogers)
  <-> selectedPattern osIdPaths table catalogers p.
Proof.
  intros Hnd Hperm. unfold globPatterns, selectedPattern. simpl app.
  destruct catalogers as [|c rest].
  - simpl. rewrite fold_values_In. split.
    + intros [H|(k & v & Hin & Hp)]; auto.
      right. right. split; [reflexivity|]. exists k, v.
      split; [|exact Hp]. apply (Permutation_in _ (Hperm 0%nat)). exact Hin.
    + intros [H|[(Hne & _)|(_ & k & v & Hin & Hp)]]; auto;
        [now destruct Hne|].
      right. exists k, v. split; [|exact Hp].
      apply (Permutation_in _ (Permutation_sym (Hperm 0%nat))). exact Hin.
  - assert (Hlen : (len (c :: rest) >? 0) = true).
    { unfold len. simpl List.length.
      destruct (Z.gtb_spec (Z.of_nat (S (List.length rest))) 0); [reflexivity|lia]. }
    rewrite Hlen. rewrite (selectLoop_In table orders (c :: rest) Hnd Hperm).
    split.
    + intros [H|H]; auto. right. left. split; [discriminate|exact H].
    + intros [H|[(_ & H)|(Hnil & _)]]; auto. discriminate.
Qed.

Lemma pathFilter_iff (PathMatch : string -> string -> option bool)
  (osIdPaths : list string) (table : GlobTable) (orders : nat -> GlobTable)
  (catalogers : list string) (path : string) :
  NoDup (map fst table) ->
  (forall n, Permutation (orders n) table) ->
  pathFilter PathMatch osIdPaths table orders catalogers path = true
  <-> exists p, selectedPattern osIdPaths table catalogers p
                /\ PathMatch p path = Some true.
Proof.
  intros Hnd Hperm. unfold pathFilter. rewrite AnyGlobMatches_iff.
  split; intros (p & Hin & Hp); exists p; split; try exact Hp.
  - now apply (globPatterns_In osIdPaths table orders catalogers p Hnd Hperm).
  - now apply (globPatterns_In osIdPaths table orders catalogers p Hnd Hperm).
Qed.

Lemma keysDistinct_NoDup (keys : list string) :
  keysDistinct keys = true -> NoDup keys.
Proof.
  induction keys as [|k rest IH]; simpl; intros H; constructor.
  - apply andb_prop in H. destruct H as (H & _).
    intros Hin. apply negb_true_iff in H.
    assert (existsb (String.eqb k) rest = true).
    { apply existsb_exists. exists k. split; [exact Hin|apply String.eqb_refl]. }
    congruence.
  - apply IH. apply andb_prop in H. tauto.
Qed.

Lemma Commands_keys_NoDup : NoDup (map fst Commands.CatalogerGlobPatterns).
Proof. apply keysDistinct_NoDup. vm_compute. reflexivity. Qed.

Lemma Source_keys_NoDup : NoDup (map fst Source.CatalogerGlobPatterns).
Proof. apply keysDistinct_NoDup. vm_compute. reflexivity. Qed.

(** X15.  [AnyGlobMatches] answers true exactly when one of the patterns
    matches the path.  A pattern the matcher rejects as malformed is
    skipped: it neither matches nor ends the search, so the answer is the
    one of the list without it. *)
Theorem AnyGlobMatches_skips_malformed_patterns
  (PathMatch : string -> string -> option bool) (path : string) :
  (forall patterns,
      AnyGlobMatches PathMatch patterns path = true
      <-> exists p, In p patterns /\ PathMatch p path = Some true)
  /\ (forall before bad after,
        PathMatch bad path = None ->
        AnyGlobMatches PathMatch (before ++ bad :: after) path
        = AnyGlobMatches PathMatch (before ++ after) path).
Proof.
  split.
  - intros patterns. apply AnyGlobMatches_iff.
  - intros before bad after Hbad.
    induction before as [|q before IH]; simpl.
    + now rewrite Hbad.
    + destruct (PathMatch q path) as [[|]|]; auto.
Qed.

Lemma AnyGlobMatches_skips_malformed_patterns_witness :
  AnyGlobMatches PathFixture.tailMatch
    (["**/etc/passwd"; "[bad"; "**/go.mod"])%string "/src/go.mod"
  = AnyGlobMatches PathFixture.tailMatch
      (["**/etc/passwd"; "**/go.mod"])%string "/src/go.mod".
Proof.
  destruct (AnyGlobMatches_skips_malformed_patterns PathFixture.tailMatch
              "/src/go.mod") as (_ & Hskip).
  apply (Hskip ["**/etc/passwd"%string] "[bad"%string ["**/go.mod"%string]).
  reflexivity.
Defined.

(** X16.  The filters of both packages accept a path exactly when a
    selected pattern matches it.  The selected patterns are the OS
    identification patterns, always; with cataloger names given, the
    patterns of every table key that contains one of the names as a
    substring; with no name given, the patterns of every key. *)
Theorem path_filters_accept_selected_patterns
  (PathMatch : string -> string -> option bool) (orders : nat -> GlobTable)
  (catalogers : list string) (path : string) :
  ((forall n, Permutation (orders n) Commands.CatalogerGlobPatterns) ->
   (Commands.getfilter PathMatch orders catalogers path = true
    <-> exists p,
        selectedPattern Commands.OsIdPaths Commands.CatalogerGlobPatterns
          catalogers p
        /\ PathMatch p path = Some true))
  /\ ((forall n, Permutation (orders n) Source.CatalogerGlobPatterns) ->
      (Source.GetPathFilterFunc PathMatch orders catalogers path = true
       <-> exists p,
           selectedPattern Source.OsIdPaths Source.CatalogerGlobPatterns
             catalogers p
           /\ PathMatch p path = Some true)).
Proof.
  split; intros Hperm.
  - apply pathFilter_iff; [exact Commands_keys_NoDup|exact Hperm].
  - apply pathFilter_iff; [exact Source_keys_NoDup|exact Hperm].
Qed.

Lemma path_filters_accept_selected_patterns_witness :
  Commands.getfilter PathFixture.tailMatch
    (PathFixture.reversed Commands.CatalogerGlobPatterns)
    ["go-mod"%string] "/src/go.mod" = true
  /\ Source.GetPathFilterFunc PathFixture.tailMatch
       (PathFixture.reversed Source.CatalogerGlobPatterns)
       ["go-module-file"%string] "/src/go.mod" = true.
Proof.
  split.
  - apply (proj1 (path_filters_accept_selected_patterns PathFixture.tailMatch
                    (PathFixture.reversed Commands.CatalogerGlobPatterns)
                    ["go-mod"%string] "/src/go.mod")).
    + intros n. apply Permutation_sym, Permutation_rev.
    + exists "**/go.mod"%string. split; [|reflexivity].
      right. left. split; [discriminate|].
      exists "go-mod"%string, "go-mod-file-cataloger"%string,
        ["**/go.mod"%string].
      repeat split; simpl; auto 20.
  - apply (proj2 (path_filters_accept_selected_patterns PathFixture.tailMatch
                    (PathFixture.reversed Source.CatalogerGlobPatterns)
                    ["go-module-file"%string] "/src/go.mod")).
    + intros n. apply Permutation_sym, Permutation_rev.
    + exists "**/go.mod"%string. split; [|reflexivity].
      right. left. split; [discriminate|].
      exists "go-module-file"%string, "go-module-file-cataloger"%string,
        ["**/go.mod"%string].
      repeat split; simpl; auto 30.
Defined.

(** X17.  The answer of the filters does not depend on the order in which
    the [range] statements visit the pattern table: two runs that visit
    its entries in different orders accept the same paths. *)
Theorem path_filters_ignore_map_order
  (PathMatch : string -> string -> option bool)
  (orders1 orders2 : nat -> GlobTable) (catalogers : list string)
  (path : string) :
  ((forall n, Permutation (orders1 n) Commands.CatalogerGlobPatterns) ->
   (forall n, Permutation (orders2 n) Commands.CatalogerGlobPatterns) ->
   Commands.getfilter PathMatch orders1 catalogers path
   = Commands.getfilter PathMatch orders2 catalogers path)
  /\ ((forall n, Permutation (orders1 n) Source.CatalogerGlobPatterns) ->
      (forall n, Permutation (orders2 n) Source.CatalogerGlobPatterns) ->
      Source.GetPathFilterFunc PathMatch orders1 catalogers path
      = Source.GetPathFilterFunc PathMatch orders2 catalogers path).
Proof.
  assert (Hbool : forall a b : bool, (a = true <-> b = true) -> a = b).
  { intros [|] [|] H; try reflexivity.
    - symmetry. now apply H.
    - now apply H. }
  split; intros H1 H2; apply Hbool.
  - unfold Commands.getfilter.
    rewrite (pathFilter_iff PathMatch _ _ orders1 catalogers path
               Commands_keys_NoDup H1).
    rewrite (pathFilter_iff PathMatch _ _ orders2 catalogers path
               Commands_keys_NoDup H2).
    reflexivity.
  - unfold Source.GetPathFilterFunc.
    rewrite (pathFilter_iff PathMatch _ _ orders1 catalogers path
               Source_keys_NoDup H1).
    rewrite (pathFilter_iff PathMatch _ _ orders2 catalogers path
               Source_keys_NoDup H2).
    reflexivity.
Qed.

Lemma path_filters_ignore_map_order_witness :
  Commands.getfilter PathFixture.tailMatch
    (PathFixture.inOrder Commands.CatalogerGlobPatterns)
    ["java"%string; "rpm"%string] "/app/package.json"
  = Commands.getfilter PathFixture.tailMatch
      (PathFixture.reversed Commands.CatalogerGlobPatterns)
      ["java"%string; "rpm"%string] "/app/package.json"
  /\ Source.GetPathFilterFunc PathFixture.tailMatch
       (PathFixture.inOrder Source.CatalogerGlobPatterns) []
       "/app/package.json"
     = Source.GetPathFilterFunc PathFixture.tailMatch
         (PathFixture.reversed Source.CatalogerGlobPatterns) []
         "/app/package.json".
Proof.
  split.
  - apply (proj1 (path_filters_ignore_map_order PathFixture.tailMatch
                    (PathFixture.inOrder Commands.CatalogerGlobPatterns)
                    (PathFixture.reversed Commands.CatalogerGlobPatterns)
                    ["java"%string; "rpm"%string] "/app/package.json")).
    + intros n. apply Permutation_refl.
    + intros n. apply Permutation_sym, Permutation_rev.
  - apply (proj2 (path_filters_ignore_map_order PathFixture.tailMatch
                    (PathFixture.inOrder Source.CatalogerGlobPatterns)
                    (PathFixture.reversed Source.CatalogerGlobPatterns)
                    [] "/app/package.json")).
    + intros n. apply Permutation_refl.
    + intros n. apply Permutation_sym, Permutation_rev.
Defined.

Lemma selectLoop_keeps (table : GlobTable) (orders : nat -> GlobTable)
  (catalogers : list string) :
  forall (n : nat) (patterns : list string) (p : string),
    In p patterns -> In p (selectLoop table orders n catalogers patterns).
Proof.
  induction catalogers as [|c rest IH]; intros n patterns p Hin; simpl.
  - exact Hin.
  - apply IH. apply appendSelected_In. now left.
Qed.

Lemma pathFilter_os_path (PathMatch : string -> string -> option bool)
  (osIdPaths : list string) (table : GlobTable) (orders : nat -> GlobTable)
  (catalogers : list string) (path p : string) :
  In p osIdPaths -> PathMatch p path = Some true ->
  pathFilter PathMatch osIdPaths table orders catalogers path = true.
Proof.
  intros Hin Hp. unfold pathFilter. apply AnyGlobMatches_iff.
  exists p. split; [|exact Hp]. unfold globPatterns. simpl app.
  destruct (len catalogers >? 0).
  - now apply selectLoop_keeps.
  - apply fold_values_In. now left.
Qed.

(** X18.  Whatever cataloger names are given, and in whatever order the
    table is visited, the filters of both packages accept every path that
    one of the OS identification patterns matches. *)
Theorem path_filters_always_accept_os_paths
  (PathMatch : string -> string -> option bool) (orders : nat -> GlobTable)
  (catalogers : list string) (path p : string) :
  PathMatch p path = Some true ->
  (In p Commands.OsIdPaths ->
   Commands.getfilter PathMatch orders catalogers path = true)
  /\ (In p Source.OsIdPaths ->
      Source.GetPathFilterFunc PathMatch orders catalogers path = true).
Proof.
  intros Hp. split; intros Hin.
  - now apply (pathFilter_os_path PathMatch _ _ orders catalogers path p).
  - now apply (pathFilter_os_path PathMatch _ _ orders catalogers path p).
Qed.

Lemma path_filters_always_accept_os_paths_witness :
  Commands.getfilter PathFixture.tailMatch
    (PathFixture.inOrder Commands.CatalogerGlobPatterns)
    ["no-such-cataloger"%string] "/etc/os-release" = true
  /\ Source.GetPathFilterFunc PathFixture.tailMatch
       (PathFixture.inOrder Source.CatalogerGlobPatterns)
       ["no-such-cataloger"%string] "/etc/os-release" = true.
Proof.
  destruct (path_filters_always_accept_os_paths PathFixture.tailMatch
              (PathFixture.inOrder Commands.CatalogerGlobPatterns)
              ["no-such-cataloger"%string] "/etc/os-release"
              "**/etc/os-release" eq_refl) as (Hc & _).
  destruct (path_filters_always_accept_os_paths PathFixture.tailMatch
              (PathFixture.inOrder Source.CatalogerGlobPatterns)
              ["no-such-cataloger"%string] "/etc/os-release"
              "**/etc/os-release" eq_refl) as (_ & Hs).
  split; [apply Hc|apply Hs]; simpl; auto.
Defined.

Lemma selectedPattern_unrestricted (osIdPaths : list string) (table : GlobTable)
  (catalogers : list string) (p : string) :
  selectedPattern osIdPaths table catalogers p ->
  selectedPattern osIdPaths table [] p.
Proof.
  intros [H|[(_ & c & k & v & _ & Hin & _ & Hp)|(_ & k & v & Hin & Hp)]].
  - now left.
  - right. right. split; [reflexivity|]. now exists k, v.
  - right. right. split; [reflexivity|]. now exists k, v.
Qed.

(** X19.  Giving cataloger names only narrows a filter: a path that the
    filter of some names accepts is accepted by the filter built without
    any name, which uses the patterns of all the catalogers. *)
Theorem path_filters_names_only_narrow
  (PathMatch : string -> string -> option bool)
  (orders orders' : nat -> GlobTable) (catalogers : list string)
  (path : string) :
  ((forall n, Permutation (orders n) Commands.CatalogerGlobPatterns) ->
   (forall n, Permutation (orders' n) Commands.CatalogerGlobPatterns) ->
   Commands.getfilter PathMatch orders catalogers path = true ->
   Commands.getfilter PathMatch orders' [] path = true)
  /\ ((forall n, Permutation (orders n) Source.CatalogerGlobPatterns) ->
      (forall n, Permutation (orders' n) Source.CatalogerGlobPatterns) ->
      Source.GetPathFilterFunc PathMatch orders catalogers path = true ->
      Source.GetPathFilterFunc PathMatch orders' [] path = true).
Proof.
  split; intros H1 H2 Hacc.
  - apply (pathFilter_iff PathMatch _ _ orders' [] path Commands_keys_NoDup H2).
    apply (pathFilter_iff PathMatch _ _ orders catalogers path
             Commands_keys_NoDup H1) in Hacc.
    destruct Hacc as (p & Hsel & Hp). exists p. split; [|exact Hp].
    now apply (selectedPattern_unrestricted _ _ catalogers).
  - apply (pathFilter_iff PathMatch _ _ orders' [] path Source_keys_NoDup H2).
    apply (pathFilter_iff PathMatch _ _ orders catalogers path
             Source_keys_NoDup H1) in Hacc.
    destruct Hacc as (p & Hsel & Hp). exists p. split; [|exact Hp].
    now apply (selectedPattern_unrestricted _ _ catalogers).
Qed.

Lemma path_filters_names_only_narrow_witness :
  Commands.getfilter PathFixture.tailMatch
    (PathFixture.reversed Commands.CatalogerGlobPatterns) []
    "/src/Cargo.lock" = true
  /\ Source.GetPathFilterFunc PathFixture.tailMatch
       (PathFixture.reversed Source.CatalogerGlobPatterns) []
       "/src/Cargo.lock" = true.
Proof.
  split.
  - apply (proj1 (path_filters_names_only_narrow PathFixture.tailMatch
                    (PathFixture.inOrder Commands.CatalogerGlobPatterns)
                    (PathFixture.reversed Commands.CatalogerGlobPatterns)
                    ["rust"%string] "/src/Cargo.lock")).
    + intros n. apply Permutation_refl.
    + intros n. apply Permutation_sym, Permutation_rev.
    + reflexivity.
  - apply (proj2 (path_filters_names_only_narrow PathFixture.tailMatch
                    (PathFixture.inOrder Source.CatalogerGlobPatterns)
                    (PathFixture.reversed Source.CatalogerGlobPatterns)
                    ["rust"%string] "/src/Cargo.lock")).
    + intros n. apply Permutation_refl.
    + intros n. apply Permutation_sym, Permutation_rev.
    + reflexivity.
Defined.

(** X20.  A cataloger name selects by substring.  In the table of the
    package [commands] the name [java] is contained in the keys
    [java-cataloger], [java-pom-cataloger], [javascript-package-cataloger]
    and [javascript-lock-cataloger]: the filter built from that one name
    accepts a path exactly when an OS identification pattern or a pattern
    of one of these four keys matches it, so it accepts the JavaScript
    manifests as well. *)
Theorem commands_filter_java_selects_javascript
  (PathMatch : string -> string -> option bool) (orders : nat -> GlobTable)
  (path : string) :
  (forall n, Permutation (orders n) Commands.CatalogerGlobPatterns) ->
  (Commands.getfilter PathMatch orders ["java"%string] path = true
   <-> exists p,
       In p (Commands.OsIdPaths
             ++ tableLookup Commands.CatalogerGlobPatterns "java-cataloger"
             ++ tableLookup Commands.CatalogerGlobPatterns "java-pom-cataloger"
             ++ tableLookup Commands.CatalogerGlobPatterns
                  "javascript-package-cataloger"
             ++ tableLookup Commands.CatalogerGlobPatterns
                  "javascript-lock-cataloger")
       /\ PathMatch p path = Some true)
  /\ (PathMatch "**/package.json"%string path = Some true ->
      Commands.getfilter PathMatch orders ["java"%string] path = true).
Proof.
  intros Hperm.
  assert (Hset : forall p,
             selectedPattern Commands.OsIdPaths Commands.CatalogerGlobPatterns
               ["java"%string] p
             <-> In p (Commands.OsIdPaths
                       ++ tableLookup Commands.CatalogerGlobPatterns
                            "java-cataloger"
                       ++ tableLookup Commands.CatalogerGlobPatterns
                            "java-pom-cataloger"
                       ++ tableLookup Commands.CatalogerGlobPatterns
                            "javascript-package-cataloger"
                       ++ tableLookup Commands.CatalogerGlobPatterns
                            "javascript-lock-cataloger")).
  { intros p.
    rewrite <- (globPatterns_In Commands.OsIdPaths Commands.CatalogerGlobPatterns
                  (PathFixture.inOrder Commands.CatalogerGlobPatterns)
                  ["java"%string] p Commands_keys_NoDup
                  (fun n => Permutation_refl _)).
    reflexivity. }
  assert (Hiff : Commands.getfilter PathMatch orders ["java"%string] path = true
                 <-> exists p,
                     In p (Commands.OsIdPaths
                           ++ tableLookup Commands.CatalogerGlobPatterns
                                "java-cataloger"
                           ++ tableLookup Commands.CatalogerGlobPatterns
                                "java-pom-cataloger"
                           ++ tableLookup Commands.CatalogerGlobPatterns
                                "javascript-package-cataloger"
                           ++ tableLookup Commands.CatalogerGlobPatterns
                                "javascript-lock-cataloger")
                     /\ PathMatch p path = Some true).
  { unfold Commands.getfilter.
    rewrite (pathFilter_iff PathMatch _ _ orders ["java"%string] path
               Commands_keys_NoDup Hperm).
    split; intros (p & Hsel & Hp); exists p; split; try exact Hp;
      now apply Hset. }
  split; [exact Hiff|].
  intros Hjs. apply Hiff. exists "**/package.json"%string.
  split; [|exact Hjs]. vm_compute. auto 50.
Qed.

Lemma commands_filter_java_selects_javascript_witness :
  Commands.getfilter PathFixture.tailMatch
    (PathFixture.reversed Commands.CatalogerGlobPatterns)
    ["java"%string] "/app/package.json" = true.
Proof.
  apply (proj2 (commands_filter_java_selects_javascript PathFixture.tailMatch
                  (PathFixture.reversed Commands.CatalogerGlobPatterns)
                  "/app/package.json"
                  (fun n => Permutation_sym (Permutation_rev _)))).
  reflexivity.
Defined.

(** * Further properties of the native-image cataloger *)

(** ** PayloadDecoder *)

Lemma u64_wrapped (z : Z) : 2 ^ 64 <= z < 2 ^ 65 -> u64 z = z - 2 ^ 64.
Proof. intros H. unfold u64. symmetry. apply (Z.mod_unique _ _ 1); lia. Qed.

Lemma decodePayload_not_panic (L : Lib) (payload : list byte) :
  decodePayload L payload <> Panic.
Proof.
  unfold decodePayload.
  destruct (gzip_NewReader L payload); cbn [bind lift]; [|discriminate].
  destruct (io_ReadAll L _); cbn [bind lift]; [|discriminate].
  destruct (json_Unmarshal L _); cbn [bind lift]; discriminate.
Qed.

Lemma decodePayload_error (L : Lib) (payload : list byte) (e : error) :
  decodePayload L payload = Err e -> exists origin, e = lib_error origin.
Proof.
  unfold decodePayload.
  destruct (gzip_NewReader L payload); cbn [bind lift];
    [|intros H; injection H as <-; now eexists].
  destruct (io_ReadAll L _); cbn [bind lift];
    [|intros H; injection H as <-; now eexists].
  destruct (json_Unmarshal L _); cbn [bind lift];
    [discriminate|intros H; injection H as <-; now eexists].
Qed.

(** The decoder once the length field has been read. *)
Lemma decompressSbom_after_length (L : Lib) (databuf lengthBytes : list byte)
  (sbomStart lengthStart : Z) :
  lengthStart + 8 < 2 ^ 64 ->
  slice databuf lengthStart (lengthStart + 8) = Ok lengthBytes ->
  decompressSbom L databuf sbomStart lengthStart
  = if u64 (sbomStart + le_uint lengthBytes) >? len databuf
    then Err sbomOverflows
    else
      payload <- slice databuf sbomStart (u64 (sbomStart + le_uint lengthBytes)) ;;
      decodePayload L payload.
Proof.
  intros Hwrap Hs.
  destruct (slice_Ok_bounds _ _ _ _ Hs) as (H0 & _ & Hle).
  pose proof (slice_length _ _ _ _ Hs) as Hlen.
  unfold decompressSbom. rewrite u64_small by lia.
  destruct (Z.gtb_spec (lengthStart + 8) (len databuf)); [lia|].
  rewrite Hs. cbn [bind].
  rewrite binary_Read_exact by (unfold len in Hlen; lia).
  reflexivity.
Qed.

(** The length field of an outcome other than the error of the length
    check and the panic of its slice. *)
Lemma decompressSbom_length_read (L : Lib) (databuf : list byte)
  (sbomStart lengthStart : Z) :
  0 <= lengthStart < 2 ^ 64 ->
  decompressSbom L databuf sbomStart lengthStart = Err lengthOverflows
  \/ decompressSbom L databuf sbomStart lengthStart = Panic
  \/ (lengthStart + 8 < 2 ^ 64
      /\ exists lengthBytes,
          slice databuf lengthStart (lengthStart + 8) = Ok lengthBytes).
Proof.
  intros Hl.
  destruct (Z.lt_ge_cases (lengthStart + 8) (2 ^ 64)) as [Hlt|Hge].
  - destruct (Z.lt_ge_cases (len databuf) (lengthStart + 8)) as [Hshort|Hfits].
    + left. apply decompressSbom_length_checked; lia.
    + right. right. split; [exact Hlt|].
      eexists. apply slice_in_bounds; lia.
  - destruct (Z.lt_ge_cases (len databuf) (lengthStart + 8 - 2 ^ 64))
      as [Hshort|Hfits].
    + left. unfold decompressSbom. rewrite u64_wrapped by lia.
      destruct (Z.gtb_spec (lengthStart + 8 - 2 ^ 64) (len databuf));
        [reflexivity|lia].
    + right. left. apply decompressSbom_length_wrap_panics; lia.
Qed.

(** X1.  For offsets in the range of [uint64], the payload decoder panics
    in exactly two situations: [lengthStart + 8] passes [2^64] and its
    reduction does not exceed the buffer length; or the length field is
    read, [sbomStart] plus the stored length passes [2^64], and its
    reduction does not exceed the buffer length.  Every other input
    returns a package list or an error. *)
Theorem decompressSbom_panics_exactly_on_wrap (L : Lib) (databuf : list byte)
  (sbomStart lengthStart : Z) :
  0 <= sbomStart < 2 ^ 64 ->
  0 <= lengthStart < 2 ^ 64 ->
  decompressSbom L databuf sbomStart lengthStart = Panic
  <-> (2 ^ 64 <= lengthStart + 8
       /\ lengthStart + 8 - 2 ^ 64 <= len databuf)
      \/ (lengthStart + 8 < 2 ^ 64
          /\ exists lengthBytes,
              slice databuf lengthStart (lengthStart + 8) = Ok lengthBytes
              /\ 2 ^ 64 <= sbomStart + le_uint lengthBytes
              /\ sbomStart + le_uint lengthBytes - 2 ^ 64 <= len databuf).
Proof.
  intros Hs Hl.
  destruct (Z.lt_ge_cases (lengthStart + 8) (2 ^ 64)) as [Hlt|Hge].
  - destruct (Z.lt_ge_cases (len databuf) (lengthStart + 8)) as [Hshort|Hfits].
    + rewrite decompressSbom_length_checked by lia. split; [discriminate|].
      intros [(H & _)|(_ & bytes & Hb & _)]; [lia|].
      apply slice_Ok_bounds in Hb. lia.
    + assert (Hb : exists bytes,
                 slice databuf lengthStart (lengthStart + 8) = Ok bytes)
        by (eexists; apply slice_in_bounds; lia).
      destruct Hb as [bytes Hb].
      rewrite (decompressSbom_after_length L databuf bytes _ _ Hlt Hb).
      pose proof (le_uint_bound bytes) as Hstored.
      pose proof (slice_length _ _ _ _ Hb) as Hlen.
      replace (Z.of_nat (List.length bytes)) with 8 in Hstored
        by (unfold len in Hlen; lia).
      change (256 ^ 8) with (2 ^ 64) in Hstored.
      destruct (Z.lt_ge_cases (sbomStart + le_uint bytes) (2 ^ 64))
        as [Hsum|Hsum].
      * rewrite u64_small by lia.
        split.
        -- destruct (Z.gtb_spec (sbomStart + le_uint bytes) (len databuf))
             as [Hpast|Hin]; [discriminate|].
           rewrite slice_in_bounds by lia. cbn [bind].
           intros Hp. now destruct (decodePayload_not_panic L _ Hp).
        -- intros [(H & _)|(_ & bytes' & Hb' & H & _)]; [lia|].
           rewrite Hb in Hb'. injection Hb' as <-. lia.
      * rewrite u64_wrapped by lia.
        destruct (Z.gtb_spec (sbomStart + le_uint bytes - 2 ^ 64)
                    (len databuf)) as [Hpast|Hin].
        -- split; [discriminate|].
           intros [(H & _)|(_ & bytes' & Hb' & _ & H)]; [lia|].
           rewrite Hb in Hb'. injection Hb' as <-. lia.
        -- rewrite slice_unordered by lia. split; [|reflexivity].
           intros _. right. split; [exact Hlt|]. exists bytes. auto.
  - destruct (Z.lt_ge_cases (len databuf) (lengthStart + 8 - 2 ^ 64))
      as [Hshort|Hfits].
    + assert (E : decompressSbom L databuf sbomStart lengthStart
                  = Err lengthOverflows).
      { unfold decompressSbom. rewrite u64_wrapped by lia.
        destruct (Z.gtb_spec (lengthStart + 8 - 2 ^ 64) (len databuf));
          [reflexivity|lia]. }
      rewrite E. split; [discriminate|].
      intros [(_ & H)|(H & _)]; lia.
    + rewrite decompressSbom_length_wrap_panics by lia.
      split; [|reflexivity]. intros _. left. lia.
Qed.

Lemma decompressSbom_panics_exactly_on_wrap_witness :
  decompressSbom Fixture.testLib Fixture.scenarioData 0x20 (2 ^ 64 - 4) = Panic.
Proof.
  apply (proj2 (decompressSbom_panics_exactly_on_wrap Fixture.testLib
                  Fixture.scenarioData 0x20 (2 ^ 64 - 4)
                  ltac:(lia) ltac:(lia))).
  left. split; [lia|]. vm_compute. discriminate.
Defined.

(** The courses the decoder can take. *)
Lemma decompressSbom_cases (L : Lib) (databuf : list byte)
  (sbomStart lengthStart : Z) :
  0 <= lengthStart < 2 ^ 64 ->
  (len databuf < u64 (lengthStart + 8)
   /\ decompressSbom L databuf sbomStart lengthStart = Err lengthOverflows)
  \/ (2 ^ 64 <= lengthStart + 8
      /\ decompressSbom L databuf sbomStart lengthStart = Panic)
  \/ (lengthStart + 8 < 2 ^ 64
      /\ exists lengthBytes,
          slice databuf lengthStart (lengthStart + 8) = Ok lengthBytes
          /\ 0 <= le_uint lengthBytes < 2 ^ 64
          /\ ((len databuf < u64 (sbomStart + le_uint lengthBytes)
               /\ decompressSbom L databuf sbomStart lengthStart
                  = Err sbomOverflows)
              \/ (u64 (sbomStart + le_uint lengthBytes) <= len databuf
                  /\ decompressSbom L databuf sbomStart lengthStart
                     = (payload <- slice databuf sbomStart
                                     (u64 (sbomStart + le_uint lengthBytes)) ;;
                        decodePayload L payload)))).
Proof.
  intros Hl.
  destruct (Z.lt_ge_cases (lengthStart + 8) (2 ^ 64)) as [Hlt|Hge].
  - destruct (Z.lt_ge_cases (len databuf) (lengthStart + 8)) as [Hshort|Hfits].
    + left. rewrite u64_small by lia. split; [exact Hshort|].
      apply decompressSbom_length_checked; lia.
    + right. right. split; [exact Hlt|].
      assert (Hb : exists bytes,
                 slice databuf lengthStart (lengthStart + 8) = Ok bytes)
        by (eexists; apply slice_in_bounds; lia).
      destruct Hb as [bytes Hb]. exists bytes. split; [exact Hb|].
      pose proof (le_uint_bound bytes) as Hstored.
      pose proof (slice_length _ _ _ _ Hb) as Hlen.
      replace (Z.of_nat (List.length bytes)) with 8 in Hstored
        by (unfold len in Hlen; lia).
      change (256 ^ 8) with (2 ^ 64) in Hstored.
      split; [exact Hstored|].
      rewrite (decompressSbom_after_length L databuf bytes _ _ Hlt Hb).
      destruct (Z.gtb_spec (u64 (sbomStart + le_uint bytes)) (len databuf))
        as [Hpast|Hin]; [left|right]; auto.
  - destruct (Z.lt_ge_cases (len databuf) (lengthStart + 8 - 2 ^ 64))
      as [Hshort|Hfits].
    + left. rewrite u64_wrapped by lia. split; [exact Hshort|].
      unfold decompressSbom. rewrite u64_wrapped by lia.
      destruct (Z.gtb_spec (lengthStart + 8 - 2 ^ 64) (len databuf));
        [reflexivity|lia].
    + right. left. split; [exact Hge|].
      apply decompressSbom_length_wrap_panics; lia.
Qed.

Lemma decodePayload_Ok (L : Lib) (payload : list byte)
  (pkgs : list (Package (CPE L))) :
  decodePayload L payload = Ok pkgs
  <-> exists gz text bom,
      gzip_NewReader L payload = Some gz
      /\ io_ReadAll L gz = Some text
      /\ json_Unmarshal L text = Some bom
      /\ pkgs = map (getPackage L) (Components bom).
Proof.
  unfold decodePayload. split.
  - destruct (gzip_NewReader L payload) as [gz|] eqn:Hgz; cbn [bind lift];
      [|discriminate].
    destruct (io_ReadAll L gz) as [text|] eqn:Ht; cbn [bind lift];
      [|discriminate].
    destruct (json_Unmarshal L text) as [bom|] eqn:Hj; cbn [bind lift];
      [|discriminate].
    intros H. injection H as <-. exists gz, text, bom.
    repeat split; try assumption. apply mapComponents_map.
  - intros (gz & text & bom & -> & Ht & Hj & ->). cbn [bind lift].
    rewrite Ht. cbn [bind lift]. rewrite Hj. cbn [bind lift].
    now rewrite mapComponents_map.
Qed.

(** X2.  For offsets in the range of [uint64] and a buffer whose length
    is a Go [int], the payload decoder returns a package list exactly
    when the eight bytes of the length field lie in the buffer, the
    payload of the stored length lies in the buffer, the payload
    decompresses, and the text unmarshals; the list then holds the package
    of each component of the document, in order. *)
Theorem decompressSbom_returns_packages_iff (L : Lib) (databuf : list byte)
  (sbomStart lengthStart : Z) (pkgs : list (Package (CPE L))) :
  0 <= sbomStart < 2 ^ 64 ->
  0 <= lengthStart < 2 ^ 64 ->
  len databuf < 2 ^ 63 ->
  decompressSbom L databuf sbomStart lengthStart = Ok pkgs
  <-> exists lengthBytes payload gz text bom,
      lengthStart + 8 <= len databuf
      /\ slice databuf lengthStart (lengthStart + 8) = Ok lengthBytes
      /\ sbomStart + le_uint lengthBytes <= len databuf
      /\ slice databuf sbomStart (sbomStart + le_uint lengthBytes) = Ok payload
      /\ gzip_NewReader L payload = Some gz
      /\ io_ReadAll L gz = Some text
      /\ json_Unmarshal L text = Some bom
      /\ pkgs = map (getPackage L) (Components bom).
Proof.
  intros Hs Hl Hint.
  assert (Hpow : 2 ^ 63 < 2 ^ 64) by reflexivity.
  split.
  - intros Hok.
    destruct (decompressSbom_cases L databuf sbomStart lengthStart Hl)
      as [(_ & E)|[(_ & E)|(Hlt & bytes & Hb & Hstored & Hrest)]];
      try congruence.
    destruct Hrest as [(_ & E)|(Hin & E)]; [congruence|].
    rewrite E in Hok. apply bind_Ok in Hok.
    destruct Hok as (payload & Hp & Hdec).
    destruct (slice_Ok_bounds _ _ _ _ Hp) as (_ & Hord & _).
    assert (Hsum : sbomStart + le_uint bytes < 2 ^ 64).
    { destruct (Z.lt_ge_cases (sbomStart + le_uint bytes) (2 ^ 64))
        as [H|H]; [exact H|].
      rewrite u64_wrapped in Hord by lia. lia. }
    rewrite u64_small in Hp, Hin by lia.
    apply decodePayload_Ok in Hdec.
    destruct Hdec as (gz & text & bom & Hgz & Ht & Hj & ->).
    exists bytes, payload, gz, text, bom.
    destruct (slice_Ok_bounds _ _ _ _ Hb) as (_ & _ & Hle).
    repeat split; assumption.
  - intros (bytes & payload & gz & text & bom
            & Hle & Hb & Hin & Hp & Hgz & Ht & Hj & ->).
    rewrite (decompressSbom_after_length L databuf bytes sbomStart
               lengthStart ltac:(lia) Hb).
    pose proof (le_uint_bound bytes) as Hstored.
    rewrite u64_small by lia.
    destruct (Z.gtb_spec (sbomStart + le_uint bytes) (len databuf)); [lia|].
    rewrite Hp. cbn [bind]. apply decodePayload_Ok.
    now exists gz, text, bom.
Qed.

Lemma decompressSbom_returns_packages_iff_witness :
  exists lengthBytes payload,
    slice Fixture.scenarioData 0x10 (0x10 + 8) = Ok lengthBytes
    /\ le_uint lengthBytes = 37
    /\ slice Fixture.scenarioData 0x20 (0x20 + le_uint lengthBytes) = Ok payload
    /\ payload = Fixture.scenarioPayload.
Proof.
  destruct (proj1 (decompressSbom_returns_packages_iff Fixture.testLib
                     Fixture.scenarioData 0x20 0x10 [Fixture.scenarioPackage]
                     ltac:(lia) ltac:(lia) ltac:(vm_compute; reflexivity))
              eq_refl)
    as (bytes & payload & gz & text & bom & _ & Hb & _ & Hp & _).
  exists bytes, payload. split; [exact Hb|].
  assert (E : bytes = Fixture.putUint 8 37).
  { assert (H : slice Fixture.scenarioData 0x10 (0x10 + 8)
                = Ok (Fixture.putUint 8 37)) by reflexivity.
    congruence. }
  subst bytes. split; [reflexivity|]. split; [exact Hp|].
  assert (H : slice Fixture.scenarioData 0x20
                (0x20 + le_uint (Fixture.putUint 8 37))
              = Ok Fixture.scenarioPayload) by reflexivity.
  congruence.
Defined.

(** X3.  For offsets in the range of [uint64], the two bounds errors of
    the decoder are told apart from each other and from a failure to
    decode.  The length error is returned exactly when [lengthStart + 8],
    reduced modulo [2^64], exceeds the buffer length; the payload error
    exactly when the length field is read and [sbomStart] plus the stored
    length, reduced modulo [2^64], exceeds the buffer length; every other
    error comes from decompressing or unmarshalling a payload that both
    checks let through, and is an error of a library. *)
Theorem decompressSbom_errors_are_told_apart (L : Lib) (databuf : list byte)
  (sbomStart lengthStart : Z) :
  0 <= lengthStart < 2 ^ 64 ->
  (decompressSbom L databuf sbomStart lengthStart = Err lengthOverflows
   <-> len databuf < u64 (lengthStart + 8))
  /\ (decompressSbom L databuf sbomStart lengthStart = Err sbomOverflows
      <-> lengthStart + 8 < 2 ^ 64
          /\ exists lengthBytes,
              slice databuf lengthStart (lengthStart + 8) = Ok lengthBytes
              /\ len databuf < u64 (sbomStart + le_uint lengthBytes))
  /\ (forall e,
        decompressSbom L databuf sbomStart lengthStart = Err e ->
        e <> lengthOverflows -> e <> sbomOverflows ->
        exists lengthBytes payload origin,
          slice databuf lengthStart (lengthStart + 8) = Ok lengthBytes
          /\ slice databuf sbomStart (u64 (sbomStart + le_uint lengthBytes))
             = Ok payload
          /\ decodePayload L payload = Err e
          /\ e = lib_error origin).
Proof.
  intros Hl.
  assert (Hdecode : forall bytes e,
             (payload <- slice databuf sbomStart
                           (u64 (sbomStart + le_uint bytes)) ;;
              decodePayload L payload) = Err e ->
             exists payload origin,
               slice databuf sbomStart (u64 (sbomStart + le_uint bytes))
               = Ok payload
               /\ decodePayload L payload = Err e /\ e = lib_error origin).
  { intros bytes e.
    destruct (slice databuf sbomStart (u64 (sbomStart + le_uint bytes)))
      as [payload|e'|] eqn:Hp; cbn [bind]; try discriminate.
    - intros Hd. destruct (decodePayload_error L payload e Hd) as [origin ->].
      now exists payload, origin.
    - now destruct (slice_not_err _ _ _ _ Hp). }
  destruct (decompressSbom_cases L databuf sbomStart lengthStart Hl)
    as [(Hshort & E)|[(Hge & E)|(Hlt & bytes & Hb & Hstored & Hrest)]].
  - rewrite E. repeat split; auto; try discriminate.
    + intros (H & bytes & Hb & _). apply slice_Ok_bounds in Hb.
      rewrite u64_small in Hshort by lia. lia.
    + intros e He. injection He as <-. now intros H.
  - rewrite E. repeat split; try discriminate.
    + intros H. rewrite u64_wrapped in H by lia.
      unfold decompressSbom in E. rewrite u64_wrapped in E by lia.
      destruct (Z.gtb_spec (lengthStart + 8 - 2 ^ 64) (len databuf));
        [discriminate|lia].
    + intros (H & _). lia.
  - destruct (slice_Ok_bounds _ _ _ _ Hb) as (_ & _ & Hle).
    destruct Hrest as [(Hpast & E)|(Hin & E)]; rewrite E.
    + repeat split; try discriminate; auto.
      * intros H. rewrite u64_small in H by lia. lia.
      * exists bytes. auto.
      * intros e He. injection He as <-. now intros _ H.
    + split; [|split].
      * split.
        -- intros He.
           destruct (Hdecode bytes _ He) as (payload & origin & _ & _ & H).
           discriminate.
        -- intros H. rewrite u64_small in H by lia. lia.
      * split.
        -- intros He.
           destruct (Hdecode bytes _ He) as (payload & origin & _ & _ & H).
           discriminate.
        -- intros (_ & bytes' & Hb' & H).
           rewrite Hb in Hb'. injection Hb' as <-. lia.
      * intros e He _ _.
        destruct (Hdecode bytes e He) as (payload & origin & Hp & Hd & ->).
        now exists bytes, payload, origin.
Qed.

Lemma decompressSbom_errors_are_told_apart_witness :
  decompressSbom Fixture.testLib Fixture.scenarioData 0x20 0x48
  = Err lengthOverflows
  /\ decompressSbom Fixture.testLib Fixture.scenarioData 0x30 0x10
     = Err sbomOverflows.
Proof.
  destruct (decompressSbom_errors_are_told_apart Fixture.testLib
              Fixture.scenarioData 0x20 0x48 ltac:(lia)) as (Hlen & _ & _).
  destruct (decompressSbom_errors_are_told_apart Fixture.testLib
              Fixture.scenarioData 0x30 0x10 ltac:(lia)) as (_ & Hsbom & _).
  split.
  - apply Hlen. reflexivity.
  - apply Hsbom. split; [lia|].
    exists (Fixture.putUint 8 37). split; reflexivity.
Defined.

(** ** ELF and Mach-O symbol locators *)

Lemma eqb_append_prefix (p a b : string) :
  String.eqb (p ++ a) (p ++ b) = String.eqb a b.
Proof.
  induction p as [|c p IH]; simpl; [reflexivity|].
  now rewrite Ascii.eqb_refl.
Qed.

Lemma scanSymbols_fold (prefix : string) (syms : list Symbol) :
  scanSymbols prefix syms
  = fold_left (scanStep prefix) syms
      {| sbom := zeroSymbol; sbomLength := zeroSymbol;
         svmVersion := zeroSymbol |}.
Proof. reflexivity. Qed.

Lemma scanStep_named (prefix : string) (m : marker) (ms : markers) (s : Symbol) :
  sym_Name s = (prefix ++ markerName m)%string ->
  markerSymbol m (scanStep prefix ms s) = s.
Proof.
  intros Hname. unfold scanStep. rewrite Hname, !eqb_append_prefix.
  destruct m; reflexivity.
Qed.

Lemma scanStep_other (prefix : string) (m : marker) (ms : markers) (s : Symbol) :
  sym_Name s <> (prefix ++ markerName m)%string ->
  markerSymbol m (scanStep prefix ms s) = markerSymbol m ms.
Proof.
  intros Hname. unfold scanStep.
  destruct (String.eqb_spec (sym_Name s) (prefix ++ nativeImageSbomSymbol))
    as [E1|_]; [destruct m; cbn [markerName markerSymbol sbom sbomLength svmVersion] in *;
                congruence|].
  destruct (String.eqb_spec (sym_Name s)
              (prefix ++ nativeImageSbomLengthSymbol))
    as [E2|_]; [destruct m; cbn [markerName markerSymbol sbom sbomLength svmVersion] in *;
                congruence|].
  destruct (String.eqb_spec (sym_Name s)
              (prefix ++ nativeImageSbomVersionSymbol))
    as [E3|_]; [destruct m; cbn [markerName markerSymbol sbom sbomLength svmVersion] in *;
                congruence|].
  reflexivity.
Qed.

Lemma scan_others (prefix : string) (m : marker) (syms : list Symbol) :
  (forall s, In s syms -> sym_Name s <> (prefix ++ markerName m)%string) ->
  forall ms,
    markerSymbol m (fold_left (scanStep prefix) syms ms) = markerSymbol m ms.
Proof.
  induction syms as [|s syms IH]; intros Hother ms; simpl; [reflexivity|].
  rewrite IH by (intros s' Hin; apply Hother; now right).
  apply scanStep_other. apply Hother. now left.
Qed.

(** X4.  The symbol scan of the ELF and Mach-O locators keeps, for each
    marker, the last symbol of the table that bears its name (with the
    prefix of the format): an earlier symbol of the same name is
    replaced.  A marker no symbol is named after is left at the zero
    symbol, whose value 0 the marker check reads as missing. *)
Theorem scanSymbols_keeps_last_symbol (prefix : string) (m : marker) :
  (forall syms,
      (forall s, In s syms -> sym_Name s <> (prefix ++ markerName m)%string) ->
      markerSymbol m (scanSymbols prefix syms) = zeroSymbol)
  /\ (forall before s after,
        sym_Name s = (prefix ++ markerName m)%string ->
        (forall s', In s' after ->
                    sym_Name s' <> (prefix ++ markerName m)%string) ->
        markerSymbol m (scanSymbols prefix (before ++ s :: after)) = s).
Proof.
  split.
  - intros syms Hother. rewrite scanSymbols_fold.
    rewrite (scan_others prefix m syms Hother). now destruct m.
  - intros before s after Hname Hother. rewrite scanSymbols_fold.
    rewrite fold_left_app. simpl.
    rewrite (scan_others prefix m after Hother).
    now apply scanStep_named.
Qed.

Lemma scanSymbols_keeps_last_symbol_witness :
  markerSymbol MarkerSbomLength
    (scanSymbols "_"
       [Fixture.sym "_sbom_length" 0x10; Fixture.sym "_sbom" 0x20;
        Fixture.sym "_sbom_length" 0x30; Fixture.sym "_main" 0x40])
  = Fixture.sym "_sbom_length" 0x30
  /\ markerSymbol MarkerSvmVersion
       (scanSymbols "_"
          [Fixture.sym "_sbom_length" 0x10; Fixture.sym "_sbom" 0x20])
     = zeroSymbol.
Proof.
  split.
  - apply (proj2 (scanSymbols_keeps_last_symbol "_" MarkerSbomLength)
             [Fixture.sym "_sbom_length" 0x10; Fixture.sym "_sbom" 0x20]
             (Fixture.sym "_sbom_length" 0x30) [Fixture.sym "_main" 0x40]).
    + reflexivity.
    + intros s' [<-|[]]. discriminate.
  - apply (proj1 (scanSymbols_keeps_last_symbol "_" MarkerSvmVersion)).
    intros s [<-|[<-|[]]]; discriminate.
Defined.

(** X5.  An image in which the three markers are found but whose data
    region is missing yields the empty package list and no error, in the
    three formats (an ELF image without a [.data] section returns the nil
    error of its symbol lookup).  When the region is there and its bytes
    cannot be read, the ELF locator returns the error of the read, and the
    Mach-O and PE locators return the empty list without an error. *)
Theorem images_without_data_region (L : Lib) :
  (forall (bi : elf_File) (si : list Symbol),
      elf_Symbols bi = Some si ->
      markerMissing (scanSymbols "" si) = false ->
      (find_section ".data" (elf_Sections bi) = None ->
       nativeImageElf_fetchPkgs L bi = Ok [])
      /\ (forall dataSection,
            find_section ".data" (elf_Sections bi) = Some dataSection ->
            sec_Data dataSection = None ->
            nativeImageElf_fetchPkgs L bi = Err (lib_error "Section.Data")))
  /\ (forall (bi : macho_File) (syms : list Symbol),
        macho_Symtab bi = Some syms ->
        markerMissing (scanSymbols "_" syms) = false ->
        find_section "__DATA" (macho_Segments bi) = None
        \/ (exists dataSegment,
               find_section "__DATA" (macho_Segments bi) = Some dataSegment
               /\ sec_Data dataSegment = None) ->
        nativeImageMachO_fetchPkgs L bi = Ok [])
  /\ (forall (ni : nativeImagePE) (content0 content : exportContentPE)
         (sbomAddress sbomLengthAddress : Z),
        fetchExportContent ni = Ok content0 ->
        fetchSbomSymbols ni content0 = Ok content ->
        indexMissing content = false ->
        fetchExportFunctionPointer ni
          (u32 (addressOfFunctions content
                - dd_VirtualAddress (exportSymbols ni)))
          (addressOfSbom content) = Ok sbomAddress ->
        fetchExportFunctionPointer ni
          (u32 (addressOfFunctions content
                - dd_VirtualAddress (exportSymbols ni)))
          (addressOfSbomLength content) = Ok sbomLengthAddress ->
        find_section ".data" (pe_Sections (file ni)) = None
        \/ (exists dataSection,
               find_section ".data" (pe_Sections (file ni)) = Some dataSection
               /\ sec_Data dataSection = None) ->
        nativeImagePE_fetchPkgs L ni = Ok []).
Proof.
  split; [|split].
  - intros bi si Hsyms Hfound. split.
    + intros Hnone. unfold nativeImageElf_fetchPkgs.
      rewrite Hsyms. cbn [lift bind]. now rewrite Hfound, Hnone.
    + intros dataSection Hsec Hdata. unfold nativeImageElf_fetchPkgs.
      rewrite Hsyms. cbn [lift bind]. now rewrite Hfound, Hsec, Hdata.
  - intros bi syms Hsyms Hfound Hregion. unfold nativeImageMachO_fetchPkgs.
    rewrite Hsyms, Hfound.
    destruct Hregion as [->|(seg & -> & ->)]; reflexivity.
  - intros ni content0 content sbomAddress sbomLengthAddress
      H0 Hwalk Hfound Hsbom Hlength Hregion.
    unfold nativeImagePE_fetchPkgs.
    rewrite H0. cbn [bind]. rewrite Hwalk. cbn [bind].
    rewrite Hfound, Hsbom. cbn [bind]. rewrite Hlength. cbn [bind].
    destruct Hregion as [->|(sec & -> & ->)]; reflexivity.
Qed.

Lemma images_without_data_region_witness :
  nativeImageElf_fetchPkgs Fixture.testLib
    {| elf_Symbols := elf_Symbols Fixture.scenarioElf; elf_Sections := [] |}
  = Ok []
  /\ nativeImageMachO_fetchPkgs Fixture.testLib
       {| macho_Symtab := macho_Symtab Fixture.scenarioMachO;
          macho_Segments :=
            [("__DATA"%string, {| sec_Addr := 0x2000; sec_Data := None |})] |}
     = Ok []
  /\ nativeImagePE_fetchPkgs Fixture.testLib
       {| file := {| pe_OptionalHeader := None; pe_Sections := [] |};
          exportSymbols := exportSymbols Fixture.scenarioPE;
          exports := exports Fixture.scenarioPE |}
     = Ok [].
Proof.
  destruct (images_without_data_region Fixture.testLib) as (Helf & Hmacho & Hpe).
  split; [|split].
  - apply (proj1 (Helf {| elf_Symbols := elf_Symbols Fixture.scenarioElf;
                          elf_Sections := [] |}
                    [Fixture.sym "sbom" 0x2020; Fixture.sym "sbom_length" 0x2010;
                     Fixture.sym "__svm_version_info" 0x2030]
                    eq_refl eq_refl)).
    reflexivity.
  - apply (Hmacho
             {| macho_Symtab := macho_Symtab Fixture.scenarioMachO;
                macho_Segments :=
                  [("__DATA"%string,
                    {| sec_Addr := 0x2000; sec_Data := None |})] |}
             [Fixture.sym "_sbom" 0x2020; Fixture.sym "_sbom_length" 0x2010;
              Fixture.sym "___svm_version_info" 0x2030]
             eq_refl eq_refl).
    right. eexists. split; reflexivity.
  - apply (Hpe _
             {| numberOfFunctions := 4; numberOfNames := 4;
                addressOfFunctions := Fixture.exportsVA + 40;
                addressOfNames := Fixture.exportsVA + 56;
                addressOfSbom := 0; addressOfSbomLength := 0;
                addressOfSvmVersion := 0 |}
             {| numberOfFunctions := 4; numberOfNames := 4;
                addressOfFunctions := Fixture.exportsVA + 40;
                addressOfNames := Fixture.exportsVA + 56;
                addressOfSbom := 1; addressOfSbomLength := 2;
                addressOfSvmVersion := 3 |}
             0x2020 0x2010); try reflexivity.
    now left.
Defined.

(** ** PE export walker: what the reads return *)

Lemma read_u32_inside (buf : list byte) (j : Z) :
  0 <= j -> j + 4 <= len buf ->
  (p <- slice buf j (j + 4) ;; binary_Read 4 p) = Ok (u32At buf j).
Proof.
  intros H0 Hin.
  assert (Hs : slice buf j (j + 4)
               = Ok (firstn 4 (skipn (Z.to_nat j) buf))).
  { rewrite slice_in_bounds by lia.
    now replace (Z.to_nat (j + 4 - j)) with 4%nat by lia. }
  rewrite Hs. cbn [bind].
  pose proof (slice_length _ _ _ _ Hs) as Hlen.
  rewrite binary_Read_exact by (unfold len in Hlen; lia).
  reflexivity.
Qed.

Lemma u32At_range (buf : list byte) (j : Z) : 0 <= u32At buf j < 2 ^ 32.
Proof.
  unfold u32At.
  pose proof (le_uint_bound (firstn 4 (skipn (Z.to_nat j) buf))) as Hb.
  pose proof (firstn_le_length 4 (skipn (Z.to_nat j) buf)) as Hlen.
  assert (Hpow : 256 ^ Z.of_nat (List.length (firstn 4 (skipn (Z.to_nat j) buf)))
                 <= 256 ^ 4)
    by (apply Z.pow_le_mono_r; lia).
  change (256 ^ 4) with (2 ^ 32) in Hpow. lia.
Qed.

Lemma fetchExportAttribute_value (ni : nativeImagePE) (i : Z) :
  0 <= i ->
  sizeof_exportPrefixPE + i * sizeof_uint32 + 4 < len (exports ni) ->
  fetchExportAttribute ni i
  = Ok (u32At (exports ni) (sizeof_exportPrefixPE + i * sizeof_uint32)).
Proof.
  intros Hi Hin. unfold fetchExportAttribute.
  destruct (Z.geb_spec (sizeof_exportPrefixPE + i * sizeof_uint32 + 4)
              (len (exports ni))) as [H|H]; [lia|].
  apply read_u32_inside;
    unfold sizeof_exportPrefixPE, sizeof_uint32 in *; lia.
Qed.

(** X6.  [fetchExportContent] reads the four header attributes of the
    export directory as little-endian 32-bit values at offsets 20, 24, 28
    and 32 of the exports buffer, and starts with the three marker indices
    at zero.  It succeeds exactly when the buffer is longer than 36 bytes:
    on a buffer of 36 bytes or fewer, which may hold the whole header, it
    returns the invalid-index error. *)
Theorem fetchExportContent_reads_header (ni : nativeImagePE) :
  (fetchExportContent ni = invalidIndex <-> len (exports ni) <= 36)
  /\ (36 < len (exports ni) ->
      fetchExportContent ni
      = Ok {| numberOfFunctions := u32At (exports ni) 20;
              numberOfNames := u32At (exports ni) 24;
              addressOfFunctions := u32At (exports ni) 28;
              addressOfNames := u32At (exports ni) 32;
              addressOfSbom := 0;
              addressOfSbomLength := 0;
              addressOfSvmVersion := 0 |}).
Proof.
  assert (Hlong : 36 < len (exports ni) ->
                  fetchExportContent ni
                  = Ok {| numberOfFunctions := u32At (exports ni) 20;
                          numberOfNames := u32At (exports ni) 24;
                          addressOfFunctions := u32At (exports ni) 28;
                          addressOfNames := u32At (exports ni) 32;
                          addressOfSbom := 0;
                          addressOfSbomLength := 0;
                          addressOfSvmVersion := 0 |}).
  { intros Hlen. unfold fetchExportContent.
    rewrite (fetchExportAttribute_value ni 0)
      by (unfold sizeof_exportPrefixPE, sizeof_uint32; lia).
    rewrite (fetchExportAttribute_value ni 1)
      by (unfold sizeof_exportPrefixPE, sizeof_uint32; lia).
    rewrite (fetchExportAttribute_value ni 2)
      by (unfold sizeof_exportPrefixPE, sizeof_uint32; lia).
    rewrite (fetchExportAttribute_value ni 3)
      by (unfold sizeof_exportPrefixPE, sizeof_uint32; lia).
    reflexivity. }
  split; [|exact Hlong]. split.
  - intros Herr.
    destruct (Z.le_gt_cases (len (exports ni)) 36) as [H|H]; [exact H|].
    rewrite Hlong in Herr by lia. discriminate.
  - apply fetchExportContent_short.
Qed.

Lemma fetchExportContent_reads_header_witness :
  fetchExportContent Fixture.scenarioPE
  = Ok {| numberOfFunctions := 4; numberOfNames := 4;
          addressOfFunctions := Fixture.exportsVA + 40;
          addressOfNames := Fixture.exportsVA + 56;
          addressOfSbom := 0; addressOfSbomLength := 0;
          addressOfSvmVersion := 0 |}
  /\ fetchExportContent Fixture.headerOnlyPE = invalidIndex.
Proof.
  split.
  - apply (proj2 (fetchExportContent_reads_header Fixture.scenarioPE)).
    reflexivity.
  - apply (proj1 (fetchExportContent_reads_header Fixture.headerOnlyPE)).
    discriminate.
Defined.

(** X7.  On an exports buffer shorter than [2^32] bytes, and for an entry
    whose end offset [j + 4] stays below [2^32], where
    [j = functionsBase + 4 * i] in [uint32] arithmetic,
    [fetchExportFunctionPointer] returns the little-endian 32-bit value at
    offset [j] when [j + 4] is below the buffer length, and the
    invalid-index error otherwise; the value it returns is below
    [2^32]. *)
Theorem fetchExportFunctionPointer_reads_entry (ni : nativeImagePE)
  (functionsBase i : Z) :
  len (exports ni) < 2 ^ 32 ->
  u32 (functionsBase + u32 (i * sizeof_uint32)) + sizeof_uint32 < 2 ^ 32 ->
  (u32 (functionsBase + u32 (i * sizeof_uint32)) + sizeof_uint32
   < len (exports ni) ->
   fetchExportFunctionPointer ni functionsBase i
   = Ok (u32At (exports ni) (u32 (functionsBase + u32 (i * sizeof_uint32))))
   /\ 0 <= u32At (exports ni) (u32 (functionsBase + u32 (i * sizeof_uint32)))
      < 2 ^ 32)
  /\ (len (exports ni)
      <= u32 (functionsBase + u32 (i * sizeof_uint32)) + sizeof_uint32 ->
      fetchExportFunctionPointer ni functionsBase i = invalidIndex).
Proof.
  intros Hlen Hwrap.
  pose proof (u32_range (functionsBase + u32 (i * sizeof_uint32))) as Hj.
  pose proof (len_nonneg (exports ni)) as Hn.
  split.
  - intros Hin. split; [|apply u32At_range].
    unfold fetchExportFunctionPointer. unfold sizeof_uint32 in *.
    rewrite (u32_small (u32 _ + 4)) by lia.
    rewrite (u32_small (len _)) by lia.
    destruct (Z.geb_spec (u32 (functionsBase + u32 (i * 4)) + 4)
                (len (exports ni))) as [H|H]; [lia|].
    apply read_u32_inside; lia.
  - intros Hpast. unfold fetchExportFunctionPointer. unfold sizeof_uint32 in *.
    rewrite (u32_small (u32 _ + 4)) by lia.
    rewrite (u32_small (len _)) by lia.
    destruct (Z.geb_spec (u32 (functionsBase + u32 (i * 4)) + 4)
                (len (exports ni))) as [H|H]; [reflexivity|lia].
Qed.

Lemma fetchExportFunctionPointer_reads_entry_witness :
  fetchExportFunctionPointer Fixture.scenarioPE 40 1 = Ok (u32At (exports Fixture.scenarioPE) 44)
  /\ u32At (exports Fixture.scenarioPE) 44 = 0x2020
  /\ fetchExportFunctionPointer Fixture.scenarioPE 40 30 = invalidIndex.
Proof.
  destruct (fetchExportFunctionPointer_reads_entry Fixture.scenarioPE 40 1
              ltac:(vm_compute; reflexivity) ltac:(vm_compute; reflexivity))
    as (Hin & _).
  destruct (fetchExportFunctionPointer_reads_entry Fixture.scenarioPE 40 30
              ltac:(vm_compute; reflexivity) ltac:(vm_compute; reflexivity))
    as (_ & Hout).
  split; [apply Hin; vm_compute; reflexivity|].
  split; [reflexivity|].
  apply Hout. vm_compute. discriminate.
Defined.

(** ** PE export walker: the name walk *)

Lemma walkNames_not_err (ni : nativeImagePE) (trips : nat) :
  forall (i : Z) (content : exportContentPE) (e : error),
    snd (walkNames ni trips i content) <> Err e.
Proof.
  induction trips as [|trips IH]; intros i content e; [discriminate|].
  cbn [walkNames].
  destruct (walkName ni content i) as [reads [c'|c'|]]; try discriminate.
  specialize (IH (u32 (i + 1)) c' e).
  destruct (walkNames ni trips (u32 (i + 1)) c') as [reads' r]. exact IH.
Qed.

(** X8.  The name walk returns, without a panic, on every exports buffer
    of at most [2^32 - 4] bytes whose name-pointer array starts at an
    offset [k] with [k + 4] below [2^32]: each later entry either lies in
    the buffer or ends the walk. *)
Theorem fetchSbomSymbols_returns_on_bounded_buffer (ni : nativeImagePE)
  (content0 : exportContentPE) :
  0 <= numberOfNames content0 < 2 ^ 32 ->
  len (exports ni) <= 2 ^ 32 - 4 ->
  nameEntry ni content0 0 + sizeof_uint32 < 2 ^ 32 ->
  exists content, fetchSbomSymbols ni content0 = Ok content.
Proof.
  intros Hnames Hlen Hfirst.
  pose proof (walkNames_returns ni (Z.to_nat (numberOfNames content0)) 0
                content0 ltac:(lia) ltac:(lia) Hlen Hfirst) as Hsafe.
  unfold fetchSbomSymbols.
  destruct (snd (walkNames ni (Z.to_nat (numberOfNames content0)) 0 content0))
    as [content|e|] eqn:Hwalk.
  - now exists content.
  - now destruct (walkNames_not_err ni _ _ _ _ Hwalk).
  - now destruct Hsafe.
Qed.

Lemma fetchSbomSymbols_returns_on_bounded_buffer_witness :
  exists content,
    fetchSbomSymbols Fixture.truncatedPE
      {| numberOfFunctions := 4; numberOfNames := 5;
         addressOfFunctions := Fixture.exportsVA + 40;
         addressOfNames := Fixture.exportsVA + 100;
         addressOfSbom := 0; addressOfSbomLength := 0;
         addressOfSvmVersion := 0 |} = Ok content.
Proof.
  apply fetchSbomSymbols_returns_on_bounded_buffer.
  - simpl. lia.
  - vm_compute. discriminate.
  - vm_compute. reflexivity.
Defined.

Lemma recordMarker_header (name : list byte) (i : Z) (content : exportContentPE) :
  numberOfFunctions (recordMarker name i content) = numberOfFunctions content
  /\ numberOfNames (recordMarker name i content) = numberOfNames content
  /\ addressOfFunctions (recordMarker name i content)
     = addressOfFunctions content
  /\ addressOfNames (recordMarker name i content) = addressOfNames content.
Proof.
  unfold recordMarker.
  destruct (bytes_HasPrefix name sbomBytes); [repeat split|].
  destruct (bytes_HasPrefix name sbomLengthBytes); [repeat split|].
  destruct (bytes_HasPrefix name svmVersionInfoBytes); repeat split.
Qed.

Lemma recordMarker_cases (m : marker) (name : list byte) (i : Z)
  (content : exportContentPE) :
  recordedIndex m (recordMarker name i content) = recordedIndex m content
  \/ (recordedIndex m (recordMarker name i content) = i
      /\ bytes_HasPrefix name (markerBytes m) = true).
Proof.
  unfold recordMarker.
  destruct (bytes_HasPrefix name sbomBytes) eqn:E1;
    [destruct m; simpl; auto|].
  destruct (bytes_HasPrefix name sbomLengthBytes) eqn:E2;
    [destruct m; simpl; auto|].
  destruct (bytes_HasPrefix name svmVersionInfoBytes) eqn:E3;
    destruct m; simpl; auto.
Qed.

Lemma walkNames_records_named_entries (ni : nativeImagePE)
  (names : exportContentPE) (trips : nat) :
  forall (i : Z) (content result : exportContentPE),
    0 <= i -> i + Z.of_nat trips < 2 ^ 32 ->
    addressOfNames content = addressOfNames names ->
    snd (walkNames ni trips i content) = Ok result ->
    (numberOfFunctions result = numberOfFunctions content
     /\ numberOfNames result = numberOfNames content
     /\ addressOfFunctions result = addressOfFunctions content
     /\ addressOfNames result = addressOfNames content)
    /\ forall m,
        recordedIndex m result = recordedIndex m content
        \/ (i <= recordedIndex m result < i + Z.of_nat trips
            /\ entryNames ni names (recordedIndex m result) m = true).
Proof.
  induction trips as [|trips IH]; intros i content result Hi Hmax Hsame Hwalk.
  - simpl in Hwalk. injection Hwalk as <-. split; [repeat split|auto].
  - cbn [walkNames] in Hwalk.
    destruct (walkName ni content i) as [reads [content'|content'|]] eqn:Hstep.
    + destruct (walkNames ni trips (u32 (i + 1)) content') as [reads' r] eqn:Hrest.
      simpl in Hwalk. subst r.
      destruct (walkName_Next ni content content' i reads Hstep)
        as (name & -> & Hnames).
      rewrite u32_small in Hrest by lia.
      destruct (recordMarker_header name i content) as (Hf & Hn & Ha & Han).
      destruct (IH (i + 1) (recordMarker name i content) result)
        as ((Hf' & Hn' & Ha' & Han') & Hidx); try lia.
      * now rewrite Hrest.
      * split; [repeat split; congruence|].
        intros m. destruct (Hidx m) as [Hkeep|(Hrange & Hnamed)].
        -- rewrite Hkeep.
           destruct (recordMarker_cases m name i content) as [->|(-> & Hp)];
             [now left|right].
           split; [lia|].
           destruct (walkName_same_names ni names content i Hsame)
             as (_ & _ & Heq).
           now rewrite <- Heq, Hnames.
        -- right. split; [lia|exact Hnamed].
    + simpl in Hwalk. injection Hwalk as <-.
      rewrite (walkName_Return ni content content' i reads Hstep).
      split; [repeat split|auto].
    + discriminate.
Qed.

(** X9.  When the name walk returns, it has changed nothing but the three
    marker indices, and each index is either the one it started with or
    the index, below [numberOfNames], of an entry of the name-pointer
    array that names the marker: the walk never records an entry that
    does not bear the marker's name. *)
Theorem fetchSbomSymbols_records_named_entries (ni : nativeImagePE)
  (content0 content : exportContentPE) :
  0 <= numberOfNames content0 < 2 ^ 32 ->
  fetchSbomSymbols ni content0 = Ok content ->
  numberOfFunctions content = numberOfFunctions content0
  /\ numberOfNames content = numberOfNames content0
  /\ addressOfFunctions content = addressOfFunctions content0
  /\ addressOfNames content = addressOfNames content0
  /\ forall m,
      recordedIndex m content = recordedIndex m content0
      \/ (0 <= recordedIndex m content < numberOfNames content0
          /\ entryNames ni content0 (recordedIndex m content) m = true).
Proof.
  intros Hnames Hwalk.
  destruct (walkNames_records_named_entries ni content0
              (Z.to_nat (numberOfNames content0)) 0 content0 content
              ltac:(lia) ltac:(lia) eq_refl Hwalk)
    as ((Hf & Hn & Ha & Han) & Hidx).
  repeat split; try assumption.
  intros m. destruct (Hidx m) as [H|(Hrange & Hnamed)]; [now left|right].
  split; [lia|exact Hnamed].
Qed.

Lemma fetchSbomSymbols_records_named_entries_witness :
  entryNames Fixture.scenarioPE
    {| numberOfFunctions := 4; numberOfNames := 4;
       addressOfFunctions := Fixture.exportsVA + 40;
       addressOfNames := Fixture.exportsVA + 56;
       addressOfSbom := 0; addressOfSbomLength := 0;
       addressOfSvmVersion := 0 |} 2 MarkerSbomLength = true.
Proof.
  destruct (fetchSbomSymbols_records_named_entries Fixture.scenarioPE
              {| numberOfFunctions := 4; numberOfNames := 4;
                 addressOfFunctions := Fixture.exportsVA + 40;
                 addressOfNames := Fixture.exportsVA + 56;
                 addressOfSbom := 0; addressOfSbomLength := 0;
                 addressOfSvmVersion := 0 |}
              {| numberOfFunctions := 4; numberOfNames := 4;
                 addressOfFunctions := Fixture.exportsVA + 40;
                 addressOfNames := Fixture.exportsVA + 56;
                 addressOfSbom := 1; addressOfSbomLength := 2;
                 addressOfSvmVersion := 3 |}
              ltac:(simpl; lia) eq_refl)
    as (_ & _ & _ & _ & Hidx).
  destruct (Hidx MarkerSbomLength) as [H|(_ & H)]; [discriminate H|exact H].
Defined.

Lemma walkName_reads (ni : nativeImagePE) (c : exportContentPE) (i : Z)
  (reads : list Z) (step : walkStep) :
  walkName ni c i = (reads, step) ->
  step = Crash
  \/ (reads = [] /\ step = Return c)
  \/ (reads = [nameEntry ni c i]
      /\ 0 <= nameEntry ni c i
      /\ nameEntry ni c i + 4 < len (exports ni)
      /\ (step = Return c \/ exists c', step = Next c')).
Proof.
  unfold walkName.
  destruct (Z.geb_spec (u32 (nameEntry ni c i + sizeof_uint32))
              (u32 (len (exports ni)))) as [Hout|Hin].
  - intros H. injection H as <- <-. auto.
  - destruct (slice (exports ni) (nameEntry ni c i)
                (u32 (nameEntry ni c i + sizeof_uint32))) as [p| |] eqn:Hs;
      [|intros H; injection H as <- <-; auto
       |intros H; injection H as <- <-; auto].
    assert (Hbounds : 0 <= nameEntry ni c i
                      /\ nameEntry ni c i + 4 < len (exports ni)).
    { destruct (slice_Ok_bounds _ _ _ _ Hs) as (H0 & Hord & _).
      pose proof (u32_le _ (len_nonneg (exports ni))) as Hle.
      assert (Hk : nameEntry ni c i < 2 ^ 32)
        by (unfold nameEntry; apply u32_range).
      unfold sizeof_uint32 in *.
      destruct (Z.lt_ge_cases (nameEntry ni c i + 4) (2 ^ 32)) as [Hlt|Hge].
      - rewrite u32_small in Hin by lia. lia.
      - assert (E : u32 (nameEntry ni c i + 4)
                    = nameEntry ni c i + 4 - 2 ^ 32).
        { unfold u32. symmetry. apply (Z.mod_unique _ _ 1); lia. }
        lia. }
    destruct (binary_Read 4 p) as [symbolAddress| |];
      [|intros H; injection H as <- <-; right; right; tauto
       |intros H; injection H as <- <-; right; right; tauto].
    destruct (u32 (symbolAddress - dd_VirtualAddress (exportSymbols ni))
              >=? u32 (len (exports ni)));
      [intros H; injection H as <- <-; right; right; tauto|].
    destruct (slice_from (exports ni)
                (u32 (symbolAddress - dd_VirtualAddress (exportSymbols ni))))
      as [name| |]; intros H; injection H as <- <-; auto.
    right. right. repeat split; try tauto. right. now eexists.
Qed.

Lemma walkNames_reads_consecutive (ni : nativeImagePE)
  (names : exportContentPE) (trips : nat) :
  forall (i : Z) (content result : exportContentPE) (reads : list Z),
    0 <= i -> i + Z.of_nat trips < 2 ^ 32 ->
    addressOfNames content = addressOfNames names ->
    walkNames ni trips i content = (reads, Ok result) ->
    exists r,
      (r <= trips)%nat
      /\ reads = map (fun t => nameEntry ni names (i + Z.of_nat t)) (seq 0 r)
      /\ forall k, In k reads -> 0 <= k /\ k + 4 < len (exports ni).
Proof.
  induction trips as [|trips IH];
    intros i content result reads Hi Hmax Hsame Hwalk.
  - simpl in Hwalk. injection Hwalk as <- <-.
    exists 0%nat. split; [lia|]. split; [reflexivity|]. intros k [].
  - cbn [walkNames] in Hwalk.
    assert (Hentry : nameEntry ni content i = nameEntry ni names i)
      by (unfold nameEntry; now rewrite Hsame).
    destruct (walkName ni content i) as [reads0 step] eqn:Hstep.
    destruct (walkName_reads ni content i reads0 step Hstep)
      as [->|[(-> & ->)|(-> & H0 & Hin & [->|(c' & ->)])]].
    + discriminate.
    + injection Hwalk as <- <-.
      exists 0%nat. split; [lia|]. split; [reflexivity|]. intros k [].
    + injection Hwalk as <- <-.
      exists 1%nat. split; [lia|]. split.
      * simpl. now rewrite Z.add_0_r, Hentry.
      * intros k [<-|[]]. auto.
    + destruct (walkNames ni trips (u32 (i + 1)) c') as [reads' r'] eqn:Hrest.
      injection Hwalk as <- ->.
      destruct (walkName_Next ni content c' i _ Hstep) as (name & -> & _).
      rewrite u32_small in Hrest by lia.
      destruct (IH (i + 1) (recordMarker name i content) result reads')
        as (r & Hr & Hreads & Hbounds); try lia; try assumption.
      { rewrite recordMarker_addressOfNames. exact Hsame. }
      exists (S r). split; [lia|]. split.
      * cbn [seq map app]. rewrite Z.add_0_r, Hentry. f_equal.
        rewrite Hreads, <- seq_shift, map_map.
        apply map_ext. intros t. f_equal. lia.
      * intros k [<-|Hk]; [auto|now apply Hbounds].
Qed.

(** X10.  When the name walk returns, the entries of the name-pointer
    array it has read are the first ones, in order, at most
    [numberOfNames] of them, and every one of them lies within the
    exports buffer, ending before its last byte. *)
Theorem fetchSbomSymbols_reads_within_buffer (ni : nativeImagePE)
  (content0 content : exportContentPE) :
  0 <= numberOfNames content0 < 2 ^ 32 ->
  fetchSbomSymbols ni content0 = Ok content ->
  exists r,
    (r <= Z.to_nat (numberOfNames content0))%nat
    /\ nameEntriesRead ni content0
       = map (fun t => nameEntry ni content0 (Z.of_nat t)) (seq 0 r)
    /\ forall k, In k (nameEntriesRead ni content0) ->
                 0 <= k /\ k + 4 < len (exports ni).
Proof.
  intros Hnames Hwalk. unfold fetchSbomSymbols in Hwalk.
  unfold nameEntriesRead.
  destruct (walkNames ni (Z.to_nat (numberOfNames content0)) 0 content0)
    as [reads res] eqn:Hw.
  simpl in Hwalk. subst res. simpl fst.
  destruct (walkNames_reads_consecutive ni content0
              (Z.to_nat (numberOfNames content0)) 0 content0 content reads
              ltac:(lia) ltac:(lia) eq_refl Hw)
    as (r & Hr & Hreads & Hbounds).
  exists r. split; [exact Hr|]. split; [|exact Hbounds].
  rewrite Hreads. apply map_ext. intros t. reflexivity.
Qed.

Lemma fetchSbomSymbols_reads_within_buffer_witness :
  let content0 :=
      {| numberOfFunctions := 4; numberOfNames := 5;
         addressOfFunctions := Fixture.exportsVA + 40;
         addressOfNames := Fixture.exportsVA + 100;
         addressOfSbom := 0; addressOfSbomLength := 0;
         addressOfSvmVersion := 0 |} in
  fetchSbomSymbols Fixture.truncatedPE content0
  = Ok {| numberOfFunctions := 4; numberOfNames := 5;
         addressOfFunctions := Fixture.exportsVA + 40;
         addressOfNames := Fixture.exportsVA + 100;
         addressOfSbom := 1; addressOfSbomLength := 2;
         addressOfSvmVersion := 3 |}
  /\ exists r,
       (r <= Z.to_nat (numberOfNames content0))%nat
       /\ nameEntriesRead Fixture.truncatedPE content0
          = map (fun t => nameEntry Fixture.truncatedPE content0 (Z.of_nat t))
                (seq 0 r)
       /\ forall k, In k (nameEntriesRead Fixture.truncatedPE content0) ->
                    0 <= k /\ k + 4 < len (exports Fixture.truncatedPE).
Proof.
  split; [reflexivity|].
  apply (fetchSbomSymbols_reads_within_buffer Fixture.truncatedPE
           {| numberOfFunctions := 4; numberOfNames := 5;
         addressOfFunctions := Fixture.exportsVA + 40;
         addressOfNames := Fixture.exportsVA + 100;
         addressOfSbom := 0; addressOfSbomLength := 0;
         addressOfSvmVersion := 0 |}
           {| numberOfFunctions := 4; numberOfNames := 5;
         addressOfFunctions := Fixture.exportsVA + 40;
         addressOfNames := Fixture.exportsVA + 100;
         addressOfSbom := 1; addressOfSbomLength := 2;
         addressOfSvmVersion := 3 |});
    [simpl; lia|reflexivity].
Defined.

(** ** FormatDetector and scan: what is collected *)

Lemma tryFormats_contributions (L : Lib) (filename : string) (r : ReaderAt L)
  (pkgs : list (Package (CPE L))) :
  (forall mk ni,
      In mk (imageformats L) -> mk filename r = Ok ni ->
      image_fetchPkgs L ni <> Panic) ->
  tryFormats L filename r pkgs = Ok (pkgs ++ readerContribution L filename r).
Proof.
  intros Hsafe. unfold tryFormats, imageformats, readerContribution.
  cbn [fold_left bind].
  rewrite (tryFormat_contribution L filename r pkgs (newElf L));
    [|now left|intros ni; apply Hsafe; now left].
  cbn [bind].
  rewrite (tryFormat_contribution L filename r _ (newMachO L));
    [|right; now left|intros ni; apply Hsafe; right; now left].
  cbn [bind].
  rewrite (tryFormat_contribution L filename r _ (newPE L));
    [|right; right; now left|intros ni; apply Hsafe; right; right; now left].
  now rewrite <- !app_assoc.
Qed.

Lemma readers_contributions (L : Lib) (filename : string)
  (readers : list (ReaderAt L)) :
  (forall r mk ni,
      In r readers -> In mk (imageformats L) -> mk filename r = Ok ni ->
      image_fetchPkgs L ni <> Panic) ->
  forall pkgs,
    fold_left (fun acc r => pkgs' <- acc ;; tryFormats L filename r pkgs')
      readers (Ok pkgs)
    = Ok (pkgs ++ flat_map (readerContribution L filename) readers).
Proof.
  induction readers as [|r readers IH]; intros Hsafe pkgs.
  - simpl. now rewrite app_nil_r.
  - cbn [fold_left bind flat_map].
    rewrite (tryFormats_contributions L filename r pkgs)
      by (intros mk ni; apply Hsafe; now left).
    rewrite IH by (intros r' mk ni Hin; apply Hsafe; now right).
    now rewrite <- app_assoc.
Qed.

(** X11.  When no extraction panics, the package list of a file is the
    concatenation, over its readers in order, of what the ELF, the Mach-O
    and the PE probe contribute for each reader: a universal binary
    yields the packages of all its images.  A file whose readers cannot
    be obtained yields the empty list. *)
Theorem fetchPkgs_concatenates_readers (L : Lib) (reader : UnionReader L)
  (filename : string) :
  (GetReaders L reader = None -> fetchPkgs L reader filename = Ok [])
  /\ (forall readers,
        GetReaders L reader = Some readers ->
        (forall r mk ni,
            In r readers -> In mk (imageformats L) -> mk filename r = Ok ni ->
            image_fetchPkgs L ni <> Panic) ->
        fetchPkgs L reader filename
        = Ok (flat_map (readerContribution L filename) readers)).
Proof.
  split.
  - intros Hnone. unfold fetchPkgs. now rewrite Hnone.
  - intros readers Hreaders Hsafe. unfold fetchPkgs. rewrite Hreaders.
    now rewrite (readers_contributions L filename readers Hsafe []).
Qed.

Lemma fetchPkgs_concatenates_readers_witness :
  fetchPkgs Fixture.testLib
    [Fixture.peReader Fixture.scenarioPE; Fixture.elfReader Fixture.twoMarkerElf;
     Fixture.elfReader Fixture.scenarioElf] "universal"
  = Ok (flat_map (readerContribution Fixture.testLib "universal")
          [Fixture.peReader Fixture.scenarioPE;
           Fixture.elfReader Fixture.twoMarkerElf;
           Fixture.elfReader Fixture.scenarioElf])
  /\ flat_map (readerContribution Fixture.testLib "universal")
       [Fixture.peReader Fixture.scenarioPE;
        Fixture.elfReader Fixture.twoMarkerElf;
        Fixture.elfReader Fixture.scenarioElf]
     = [Fixture.scenarioPackage; Fixture.scenarioPackage].
Proof.
  split; [|reflexivity].
  apply (proj2 (fetchPkgs_concatenates_readers Fixture.testLib
                  [Fixture.peReader Fixture.scenarioPE;
                   Fixture.elfReader Fixture.twoMarkerElf;
                   Fixture.elfReader Fixture.scenarioElf] "universal")
           _ eq_refl).
  intros r mk ni [<-|[<-|[<-|[]]]] [<-|[<-|[<-|[]]]] H;
    vm_compute in H; try discriminate; injection H as <-;
    vm_compute; discriminate.
Defined.

Lemma scan_collects (L : Lib) (resolver : FileResolver L) (files : list string) :
  (forall location readerCloser,
      In location files ->
      FileContentsByLocation L resolver location = Some readerCloser ->
      exists reader,
        GetUnionReader L readerCloser = Some reader
        /\ fetchPkgs L reader location <> Panic) ->
  forall pkgs,
    fold_left
      (fun acc location =>
         pkgs <- acc ;;
         match FileContentsByLocation L resolver location with
         | None => Ok pkgs
         | Some readerCloser =>
           reader <- lift "unionreader.GetUnionReader"
                       (GetUnionReader L readerCloser) ;;
           newpkgs <- fetchPkgs L reader location ;;
           Ok (pkgs ++ newpkgs)
         end)
      files (Ok pkgs)
    = Ok (pkgs ++ flat_map (fileContribution L resolver) files).
Proof.
  induction files as [|location files IH]; intros Hsafe pkgs.
  - simpl. now rewrite app_nil_r.
  - cbn [fold_left bind flat_map].
    assert (Hrest : forall loc rc,
               In loc files ->
               FileContentsByLocation L resolver loc = Some rc ->
               exists reader,
                 GetUnionReader L rc = Some reader
                 /\ fetchPkgs L reader loc <> Panic).
    { intros loc rc Hin. apply Hsafe. now right. }
    unfold fileContribution at 1.
    destruct (FileContentsByLocation L resolver location) as [rc|] eqn:Hrc.
    + destruct (Hsafe location rc (or_introl eq_refl) Hrc)
        as (reader & Hreader & Hnopanic).
      rewrite Hreader. cbn [lift bind].
      destruct (fetchPkgs L reader location) as [newpkgs|e|] eqn:Hpkgs.
      * cbn [bind]. rewrite (IH Hrest). now rewrite <- app_assoc.
      * now destruct (fetchPkgs_not_err L reader location e).
      * now destruct Hnopanic.
    + rewrite (IH Hrest). reflexivity.
Qed.

Lemma scan_stays_failed (L : Lib) (resolver : FileResolver L)
  (files : list string) (e : error) :
  fold_left
    (fun acc location =>
       pkgs <- acc ;;
       match FileContentsByLocation L resolver location with
       | None => Ok pkgs
       | Some readerCloser =>
         reader <- lift "unionreader.GetUnionReader"
                     (GetUnionReader L readerCloser) ;;
         newpkgs <- fetchPkgs L reader location ;;
         Ok (pkgs ++ newpkgs)
       end)
    files (Err e)
  = Err e.
Proof. induction files as [|location files IH]; simpl; auto. Qed.

(** X13.  In a scan in which no extraction panics and every file that
    opens has a union reader, [Catalog] returns the concatenation, over
    the files in order, of the package lists of the files; a file that
    the resolver cannot open is passed over and adds nothing. *)
Theorem Catalog_collects_every_file (L : Lib) (resolver : FileResolver L)
  (fileMatches : list string) :
  FilesByMIMEType L resolver = Some fileMatches ->
  (forall location readerCloser,
      In location fileMatches ->
      FileContentsByLocation L resolver location = Some readerCloser ->
      exists reader,
        GetUnionReader L readerCloser = Some reader
        /\ fetchPkgs L reader location <> Panic) ->
  Catalog L resolver = Ok (flat_map (fileContribution L resolver) fileMatches)
  /\ (forall location,
        FileContentsByLocation L resolver location = None ->
        fileContribution L resolver location = []).
Proof.
  intros Hfiles Hsafe. split.
  - unfold Catalog. rewrite Hfiles.
    now rewrite (scan_collects L resolver fileMatches Hsafe []).
  - intros location Hnone. unfold fileContribution. now rewrite Hnone.
Qed.

Lemma Catalog_collects_every_file_witness :
  Catalog Fixture.testLib ScanFixture.threeFiles = Ok [Fixture.scenarioPackage].
Proof.
  refine (proj1 (Catalog_collects_every_file Fixture.testLib
                   ScanFixture.threeFiles
                   ["/bin/app"%string; "/bin/gone"%string; "/bin/plain"%string]
                   eq_refl _)).
  intros location rc [<-|[<-|[<-|[]]]] H; vm_compute in H;
    try discriminate; injection H as <-; eexists;
    (split; [reflexivity|vm_compute; discriminate]).
Defined.

(** X14.  [Catalog] ends with an error, and without any package, in two
    cases: when the resolver cannot list the executable files; and when a
    file opens but its union reader cannot be made, whatever packages the
    files before it have yielded. *)
Theorem Catalog_fails_without_packages (L : Lib) (resolver : FileResolver L) :
  (FilesByMIMEType L resolver = None ->
   Catalog L resolver
   = Err (lib_error "failed to find binaries by mime types"))
  /\ (forall before location after readerCloser,
        FilesByMIMEType L resolver = Some (before ++ location :: after) ->
        (forall loc rc,
            In loc before ->
            FileContentsByLocation L resolver loc = Some rc ->
            exists reader,
              GetUnionReader L rc = Some reader
              /\ fetchPkgs L reader loc <> Panic) ->
        FileContentsByLocation L resolver location = Some readerCloser ->
        GetUnionReader L readerCloser = None ->
        Catalog L resolver = Err (lib_error "unionreader.GetUnionReader")).
Proof.
  split.
  - intros Hnone. unfold Catalog. now rewrite Hnone.
  - intros before location after rc Hfiles Hsafe Hrc Hunion.
    unfold Catalog. rewrite Hfiles, fold_left_app.
    rewrite (scan_collects L resolver before Hsafe []).
    cbn [fold_left bind]. rewrite Hrc, Hunion. cbn [lift bind].
    apply scan_stays_failed.
Qed.

Lemma Catalog_fails_without_packages_witness :
  Catalog ScanFixture.strictLib ScanFixture.unreadableSecond
  = Err (lib_error "unionreader.GetUnionReader").
Proof.
  apply (proj2 (Catalog_fails_without_packages ScanFixture.strictLib
                  ScanFixture.unreadableSecond)
           ["/bin/app"%string] "/bin/torn"%string ["/bin/late"%string] None).
  - reflexivity.
  - intros loc rc [<-|[]] H. vm_compute in H. injection H as <-.
    eexists. split; [reflexivity|vm_compute; discriminate].
  - reflexivity.
  - reflexivity.
Defined.
